(** * Voice-leading optimizer of the piano roll (src/utils/theory-functions.ts)

    A shallow embedding of the optimizer and the properties its
    specification states about it.

    Modelling conventions.
    - A JavaScript number that holds a pitch, a position, a duration or a
      voice is an integer; it is a [Z].  [Infinity] only occurs as the
      duration of the last chord and as the initial [lowestCost]; both are
      an [option] whose [None] is [Infinity].
    - [voice?: number] is [option Z]; [None] is [undefined].
    - The note objects are shared: the arrays [remainingNotes],
      [unfixedNotes] and [assignedNotes] hold references to the objects of
      [chord.notes].  The store of a chord is its list [notes]; a reference
      to a note object is its index in that list, and an assignment through
      a reference is [alter] at that index.  Every note object belongs to
      exactly one chord (the caller builds the two input arrays with [map],
      one fresh object per note), so the stores of two chords are disjoint.
    - [Array.prototype.sort] is stable; [stableSort] is the stable
      insertion sort for a comparator.
    - An exception is a [Throw]; the functions that can raise one return a
      [result]. *)

From stdpp Require Import base list numbers sets sorting strings pretty.

Local Open Scope Z_scope.
#[local] Set Warnings "-clear-no-such-hyp".

(** ** JavaScript helpers *)

Inductive error := TypeError.

Inductive result (A : Type) :=
| Ok (a : A)
| Throw (e : error).
Arguments Ok {A} a.
Arguments Throw {A} e.

Global Instance result_ret : MRet result := λ A a, Ok a.
Global Instance result_bind : MBind result := λ A B f m,
  match m with
  | Ok a => f a
  | Throw e => Throw e
  end.
Global Instance result_fmap : FMap result := λ A B f m,
  match m with
  | Ok a => Ok (f a)
  | Throw e => Throw e
  end.

Section sort.
Context {A : Type} (cmp : A → A → Z).

(** [x] goes before the first element it does not compare greater than:
    elements that compare equal keep their order. *)
Fixpoint sortInsert (x : A) (l : list A) : list A :=
  match l with
  | [] => [x]
  | y :: r => if cmp x y <=? 0 then x :: y :: r else y :: sortInsert x r
  end.

Fixpoint stableSort (l : list A) : list A :=
  match l with
  | [] => []
  | x :: r => sortInsert x (stableSort r)
  end.
End sort.

(** [Math.min(...l)] and [Math.max(...l)] of a non-empty argument list;
    [None] stands for the [Infinity] and [-Infinity] of the empty one. *)
Definition mathMin (l : list Z) : option Z :=
  match l with
  | [] => None
  | x :: r => Some (fold_left Z.min r x)
  end.

Definition mathMax (l : list Z) : option Z :=
  match l with
  | [] => None
  | x :: r => Some (fold_left Z.max r x)
  end.

(** ** Data model *)

Record Note := mkNote {
  pitch : Z;
  position : Z;
  duration : Z;
  voice : option Z
}.

Record Chord := mkChord {
  chordPosition : Z;
  notes : list Note;
  chordDuration : option Z
}.

Global Instance Note_eq_dec : EqDecision Note.
Proof. solve_decision. Defined.

Definition setVoice (v : option Z) (n : Note) : Note :=
  mkNote (pitch n) (position n) (duration n) v.

Definition setPitch (p : Z) (n : Note) : Note :=
  mkNote p (position n) (duration n) (voice n).

Definition setNotes (l : list Note) (c : Chord) : Chord :=
  mkChord (chordPosition c) l (chordDuration c).

(** [note.voice || 0] *)
Definition voiceOr0 (n : Note) : Z := default 0 (voice n).

(** The references (indices from [i] on) of the notes that satisfy [P]:
    [chord.notes.filter(P)] as an array of references. *)
Fixpoint refsWhere (P : Note → bool) (i : nat) (l : list Note) : list nat :=
  match l with
  | [] => []
  | n :: r => if P n then i :: refsWhere P (S i) r else refsWhere P (S i) r
  end.

Definition isUndefined (n : Note) : bool :=
  match voice n with None => true | Some _ => false end.

(** ** identifyChords *)

Definition addPosition (positions : list Z) (p : Z) : list Z :=
  if decide (p ∈ positions) then positions else positions ++ [p].

Definition matchesMelody (melodyNotes : list Note) (note : Note) : bool :=
  existsb (λ m, (pitch m =? pitch note) && (position m =? position note))
    melodyNotes.

Definition markMelody (melodyNotes : list Note) (note : Note) : Note :=
  if matchesMelody melodyNotes note then setVoice (Some 0) note else note.

Fixpoint groupChords (melodyNotes allNotes : list Note)
    (sortedPositions : list Z) : list Chord :=
  match sortedPositions with
  | [] => []
  | pos :: rest =>
      (* sortedPositions[i + 1] || Infinity *)
      let nextPosition :=
        match rest with
        | next :: _ => if next =? 0 then None else Some next
        | [] => None
        end in
      let chordNotes := filter (λ note, position note = pos) allNotes in
      let dur := (λ next, next - pos) <$> nextPosition in
      mkChord pos (markMelody melodyNotes <$> chordNotes) dur
        :: groupChords melodyNotes allNotes rest
  end.

Definition identifyChords (melodyNotes harmonyNotes : list Note) : list Chord :=
  let allNotes := melodyNotes ++ harmonyNotes in
  let positions := fold_left addPosition (position <$> allNotes) [] in
  let sortedPositions := stableSort (λ a b, a - b) positions in
  groupChords melodyNotes allNotes sortedPositions.

(** ** determineVoiceCount *)

Definition determineVoiceCount (chords : list Chord) : nat :=
  fold_left (λ maxNotes chord, Nat.max maxNotes (length (notes chord))) chords 0%nat.

(** ** assignVoicesToFirstChord *)

Fixpoint assignRemaining (numVoices : nat) (remaining : list nat)
    (currentVoice : Z) (store : list Note) : list Note :=
  match remaining with
  | [] => store
  | [r] => alter (setVoice (Some (Z.of_nat numVoices - 1))) r store
  | r :: rest =>
      assignRemaining numVoices rest (currentVoice + 1)
        (alter (setVoice (Some currentVoice)) r store)
  end.

(** The references of the notes without a voice, sorted by the pitch of
    the note they point to, descending. *)
Definition remainingRefs (store : list Note) : list nat :=
  fst <$> stableSort (λ a b : nat * Note, pitch b.2 - pitch a.2)
            (filter (λ a : nat * Note, isUndefined a.2)
               (zip (seq 0 (length store)) store)).

Definition assignVoicesToFirstChord (chord : option Chord) (numVoices : nat)
    : result Chord :=
  match chord with
  | None => Throw TypeError            (* chord.notes of undefined *)
  | Some chord =>
      let melodyNote := list_find (λ note, voice note = Some 0) (notes chord) in
      let remaining := remainingRefs (notes chord) in
      let currentVoice := match melodyNote with Some _ => 1 | None => 0 end in
      Ok (setNotes (assignRemaining numVoices remaining currentVoice (notes chord))
            chord)
  end.

(** ** isParallelFifthOrOctave *)

Definition isParallelFifthOrOctave (interval1 interval2 : Z) : bool :=
  (Z.rem interval1 12 =? 7) && (Z.rem interval2 12 =? 7)
  || (Z.rem interval1 12 =? 0) && (Z.rem interval2 12 =? 0)
     && negb (interval1 =? 0).

(** ** calculateVoiceLeadingCost *)

(** [assignedNotes[i].voice = voiceAssignments[i]] for [i] from [i0] on;
    [assignedNotes] holds the objects of [currentChord.notes] in the same
    order, and an index past its end is [undefined]. *)
Fixpoint assignVoices (i : nat) (voiceAssignments : list Z) (store : list Note)
    : result (list Note) :=
  match voiceAssignments with
  | [] => Ok store
  | v :: rest =>
      if decide (i < length store)%nat
      then assignVoices (S i) rest (alter (setVoice (Some v)) i store)
      else Throw TypeError
  end.

Definition byVoice (a b : Note) : Z := voiceOr0 a - voiceOr0 b.

(** [currentSorted.findIndex(n => n.voice === v)] together with the note
    found; [None] is [-1]. *)
Definition findVoice (v : option Z) (sorted : list Note) : option (nat * Note) :=
  list_find (λ n, voice n = v) sorted.

Fixpoint crossingLoop (currentSorted : list Note) (cost : Z) : Z :=
  match currentSorted with
  | [] => cost
  | ci :: rest =>
      crossingLoop rest
        (fold_left (λ cost cj,
           if (voiceOr0 ci <? voiceOr0 cj) && (pitch ci <? pitch cj)
           then cost + 1000 else cost) rest cost)
  end.

Fixpoint spacingLoop (currentSorted : list Note) (cost : Z) : Z :=
  match currentSorted with
  | ci :: ((cj :: _) as rest) =>
      spacingLoop rest (if 12 <? pitch ci - pitch cj then cost + 100 else cost)
  | _ => cost
  end.

Definition parallelStep (currentSorted : list Note) (pi pj : Note) (cost : Z) : Z :=
  let prevInterval := Z.abs (pitch pi - pitch pj) in
  match findVoice (voice pi) currentSorted, findVoice (voice pj) currentSorted with
  | Some (_, ci), Some (_, cj) =>
      let currentInterval := Z.abs (pitch ci - pitch cj) in
      if isParallelFifthOrOctave prevInterval currentInterval
      then cost + 500 else cost
  | _, _ => cost
  end.

Fixpoint parallelLoop (currentSorted prevSorted : list Note) (cost : Z) : Z :=
  match prevSorted with
  | [] => cost
  | pi :: rest =>
      parallelLoop currentSorted rest
        (fold_left (λ cost pj, parallelStep currentSorted pi pj cost) rest cost)
  end.

Definition movementLoop (currentSorted prevSorted : list Note) (cost : Z) : Z :=
  fold_left (λ cost pi,
    match findVoice (voice pi) currentSorted with
    | Some (_, ci) => cost + Z.abs (pitch pi - pitch ci) * 2
    | None => cost
    end) prevSorted cost.

(** The cost, and the store of the current chord as the call leaves it. *)
Definition calculateVoiceLeadingCost (prevChord currentChord : Chord)
    (voiceAssignments : list Z) : result (Z * list Note) :=
  assignedNotes ← assignVoices 0 voiceAssignments (notes currentChord);
  let prevSorted := stableSort byVoice (notes prevChord) in
  let currentSorted := stableSort byVoice assignedNotes in
  let cost := crossingLoop currentSorted 0 in
  let cost := spacingLoop currentSorted cost in
  let cost := parallelLoop currentSorted prevSorted cost in
  let cost := movementLoop currentSorted prevSorted cost in
  mret (cost, assignedNotes).

(** ** generatePermutations and generateVoiceAssignments *)

(** [backtrack(start, current)], where [todo] is [k - current.length]. *)
Fixpoint backtrack (array : list Z) (todo : nat) (start : nat)
    (current : list Z) : list (list Z) :=
  match todo with
  | O => [current]
  | S todo =>
      mjoin (imap (λ i x,
        if decide (x ∈ current) then []
        else backtrack array todo (S i) (current ++ [x])) array)
  end.

Definition generatePermutations (array : list Z) (k : nat) : list (list Z) :=
  backtrack array k 0 [].

Definition availableVoices (store : list Note) (numVoices : nat) : list Z :=
  let fixedNotes := filter (λ note, voice note ≠ None) store in
  let usedVoices := voice <$> fixedNotes in
  filter (λ v, Some v ∉ usedVoices) (seqZ 0 (Z.of_nat numVoices)).

Definition generateVoiceAssignments (chord : Chord) (numVoices : nat)
    : list (list Z) :=
  let unfixedNotes := filter (λ note, voice note = None) (notes chord) in
  generatePermutations (availableVoices (notes chord) numVoices)
    (length unfixedNotes).

(** ** optimizeChordVoicing *)

(** [unfixedNotes[i].voice = assignment[i]] for every [i];
    [assignment[i]] past the end of [assignment] is [undefined]. *)
Fixpoint setVoices (unfixed : list nat) (assignment : list Z)
    (store : list Note) : list Note :=
  match unfixed with
  | [] => store
  | r :: rest =>
      setVoices rest (tail assignment)
        (alter (setVoice (head assignment)) r store)
  end.

(** [unfixedNotes.forEach(note => note.voice = undefined)] *)
Definition resetVoices (unfixed : list nat) (store : list Note) : list Note :=
  fold_left (λ store r, alter (setVoice None) r store) unfixed store.

(** The state of the search loop: [bestAssignment], [lowestCost] and the
    store of the current chord. *)
Record Search := mkSearch {
  bestAssignment : option (list Z);
  lowestCost : option Z;
  searchStore : list Note
}.

(** [cost < lowestCost], where [None] is [Infinity]. *)
Definition costBelow (cost : Z) (lowest : option Z) : bool :=
  match lowest with
  | None => true
  | Some l => cost <? l
  end.

Definition searchStep (prevChord currentChord : Chord) (unfixed : list nat)
    (st : Search) (assignment : list Z) : result Search :=
  let store := setVoices unfixed assignment (searchStore st) in
  '(cost, store) ←
    calculateVoiceLeadingCost prevChord (setNotes store currentChord) assignment;
  let st' :=
    if costBelow cost (lowestCost st)
    then mkSearch (Some assignment) (Some cost) store
    else mkSearch (bestAssignment st) (lowestCost st) store in
  mret (mkSearch (bestAssignment st') (lowestCost st')
          (resetVoices unfixed (searchStore st'))).

Fixpoint searchLoop (prevChord currentChord : Chord) (unfixed : list nat)
    (possibleAssignments : list (list Z)) (st : Search) : result Search :=
  match possibleAssignments with
  | [] => mret st
  | assignment :: rest =>
      st' ← searchStep prevChord currentChord unfixed st assignment;
      searchLoop prevChord currentChord unfixed rest st'
  end.

(** The chord as the search leaves it, before [adjustOctaves]: [None] when
    the chord has no unfixed note and the function returns at once. *)
Definition commitBestAssignment (prevChord currentChord : Chord)
    (numVoices : nat) : result (option (list Note)) :=
  let unfixed := refsWhere isUndefined 0 (notes currentChord) in
  if decide (length unfixed = 0%nat) then mret None else
  let possibleAssignments := generateVoiceAssignments currentChord numVoices in
  st ← searchLoop prevChord currentChord unfixed possibleAssignments
         (mkSearch None None (notes currentChord));
  mret (Some
    match bestAssignment st with
    | Some best => setVoices unfixed best (searchStore st)
    | None => searchStore st
    end).

(** ** adjustOctaves *)

(** [while (bassNote.pitch > lowestPitch) bassNote.pitch -= 12], for at
    most [fuel] rounds. *)
Fixpoint lowerBass (fuel : nat) (bassPitch lowestPitch : Z) : Z :=
  match fuel with
  | O => bassPitch
  | S fuel =>
      if lowestPitch <? bassPitch
      then lowerBass fuel (bassPitch - 12) lowestPitch
      else bassPitch
  end.

(** The body of the loop over [i]: the new pitch of [currentNote]. *)
Definition orderAbove (currentPitch lowerPitch : Z) : Z :=
  let p :=
    if currentPitch <=? lowerPitch
    then currentPitch + 12 * ((lowerPitch - currentPitch) / 12 + 1)
    else currentPitch in
  if 12 <? p - lowerPitch
  then p - 12 * ((p - lowerPitch) / 12)
  else p.

(** [for (i = length - 2; i >= 0; i--)]: the loop runs from the end of
    the array to its start, and round [i] reads the note at [i + 1] as
    the rounds before it left it. *)
Fixpoint orderVoices (l : list Note) : list Note :=
  match l with
  | [] => []
  | currentNote :: rest =>
      match orderVoices rest with
      | [] => [currentNote]
      | (lowerNote :: _) as rest' =>
          setPitch (orderAbove (pitch currentNote) (pitch lowerNote)) currentNote
            :: rest'
      end
  end.

Definition adjustOctavesNotes (store : list Note) : list Note :=
  let sorted := stableSort byVoice store in
  match mathMax (voiceOr0 <$> sorted) with
  | None => sorted
  | Some bassVoice =>
      match list_find (λ note, voice note = Some bassVoice) sorted with
      | None => sorted
      | Some (b, bassNote) =>
          let lowestPitch := default 0 (mathMin (pitch <$> sorted)) in
          let lowered :=
            if decide (pitch bassNote ≠ lowestPitch)
            then alter (setPitch
                   (lowerBass (Z.to_nat (pitch bassNote - lowestPitch))
                      (pitch bassNote) lowestPitch)) b sorted
            else sorted in
          orderVoices lowered
      end
  end.

Definition adjustOctaves (chord : Chord) : Chord :=
  setNotes (adjustOctavesNotes (notes chord)) chord.

Definition optimizeChordVoicing (prevChord currentChord : Chord)
    (numVoices : nat) : result Chord :=
  committed ← commitBestAssignment prevChord currentChord numVoices;
  match committed with
  | None => mret currentChord
  | Some store => mret (adjustOctaves (setNotes store currentChord))
  end.

(** ** flattenChordsToNotes *)

Definition flattenChordsToNotes (chords : list Chord) : list Note :=
  mjoin (notes <$> chords).

(** ** adjustHarmonyOctaveRelativeToMelody *)

Definition isMelodyVoice (note : Note) : bool :=
  match voice note with Some 0 => true | _ => false end.

Definition isHarmonyVoice (note : Note) : bool :=
  match voice note with Some 0 => false | Some _ => true | None => false end.

Definition shiftHarmony (pitchAdjustment : Z) (note : Note) : Note :=
  if isHarmonyVoice note then setPitch (pitch note + pitchAdjustment) note
  else note.

Definition adjustHarmonyOctaveRelativeToMelody (chords : list Chord)
    : list Chord :=
  let allNotes := flattenChordsToNotes chords in
  let melodyNotes := filter (λ n, isMelodyVoice n = true) allNotes in
  let harmonyNotes := filter (λ n, isHarmonyVoice n = true) allNotes in
  match mathMin (pitch <$> melodyNotes), mathMax (pitch <$> harmonyNotes) with
  | Some minMelodyPitch, Some maxHarmonyPitch =>
      let gap := minMelodyPitch - maxHarmonyPitch in
      if 12 <? gap then
        let octavesToShift := (gap - 1) / 12 in
        let pitchAdjustment := octavesToShift * 12 in
        if 0 <? pitchAdjustment
        then (λ chord, setNotes (shiftHarmony pitchAdjustment <$> notes chord) chord)
               <$> chords
        else chords
      else chords
  | _, _ => chords                  (* no melody or no harmony *)
  end.

(** ** optimizeVoiceLeading *)

(** The loop over [i ≥ 1]: [prevChord] is [chords[i - 1]] as the rounds
    before left it. *)
Fixpoint optimizeFrom (numVoices : nat) (prevChord : Chord)
    (rest : list Chord) : result (list Chord) :=
  match rest with
  | [] => mret []
  | currentChord :: rest =>
      currentChord ← optimizeChordVoicing prevChord currentChord numVoices;
      rest ← optimizeFrom numVoices currentChord rest;
      mret (currentChord :: rest)
  end.

(** The chords the optimizer flattens at the end. *)
Definition optimizedChords (melodyNotes harmonyNotes : list Note)
    : result (list Chord) :=
  let chords := identifyChords melodyNotes harmonyNotes in
  let numVoices := determineVoiceCount chords in
  first ← assignVoicesToFirstChord (head chords) numVoices;
  rest ← optimizeFrom numVoices first (tail chords);
  mret (adjustHarmonyOctaveRelativeToMelody (first :: rest)).

Definition optimizeVoiceLeading (melodyNotes harmonyNotes : list Note)
    : result (list Note) :=
  flattenChordsToNotes <$> optimizedChords melodyNotes harmonyNotes.

Definition inputNote (p pos dur : Z) : Note := mkNote p pos dur None.


(** Lexicographic order on sequences of integers. *)
Fixpoint lexLt (p q : list Z) : Prop :=
  match p, q with
  | x :: p, y :: q => x < y ∨ (x = y ∧ lexLt p q)
  | [], _ :: _ => True
  | _, [] => False
  end.


(** ** The cost as the specification words it

    These definitions follow the sentences of the specification, not the
    code; [calculateVoiceLeadingCost] is compared with them below. *)

Definition sumZ (l : list Z) : Z := foldr Z.add 0 l.

(** The sum of [w a b] over the pairs of elements of [l], each pair
    taken once. *)
Fixpoint pairSum {A} (w : A → A → Z) (l : list A) : Z :=
  match l with
  | [] => 0
  | a :: r => sumZ (w a <$> r) + pairSum w r
  end.

Fixpoint adjacentPairs {A} (l : list A) : list (A * A) :=
  match l with
  | a :: ((b :: _) as r) => (a, b) :: adjacentPairs r
  | _ => []
  end.

Module CostSpec.
Definition count (b : bool) : Z := if b then 1 else 0.

(** Every note carries a voice, and no two notes the same one. *)
Definition voicesDistinct (l : list Note) : Prop :=
  Forall (λ n, voice n ≠ None) l ∧ NoDup (voice <$> l).

(** The note with the lower voice index has the lower pitch. *)
Definition crossed (a b : Note) : bool :=
  (voiceOr0 a <? voiceOr0 b) && (pitch a <? pitch b)
  || (voiceOr0 b <? voiceOr0 a) && (pitch b <? pitch a).

Definition crossings (cand : list Note) : Z :=
  pairSum (λ a b, count (crossed a b)) cand.

(** Adjacent voices, by sorted voice index, whose pitches are more than
    an octave apart; [gap] measures how far apart two pitches are. *)
Definition wideGaps (gap : Z → Z → Z) (cand : list Note) : Z :=
  sumZ ((λ ab : Note * Note, count (12 <? gap (pitch ab.1) (pitch ab.2)))
          <$> adjacentPairs (stableSort byVoice cand)).

(** The voices present in both chords. *)
Definition voicesOf (l : list Note) : list Z := omap voice l.
Definition commonVoices (prev cand : list Note) : list Z :=
  filter (λ v, v ∈ voicesOf cand) (voicesOf prev).

(** The pitch of voice [v] in a chord. *)
Definition pitchOf (v : Z) (l : list Note) : Z :=
  match list_find (λ n, voice n = Some v) l with
  | Some (_, n) => pitch n
  | None => 0
  end.

Definition interval (u v : Z) (l : list Note) : Z :=
  Z.abs (pitchOf u l - pitchOf v l).

Definition parallel (prev cand : list Note) (u v : Z) : bool :=
  let before := interval u v prev in
  let after := interval u v cand in
  (before mod 12 =? 7) && (after mod 12 =? 7)
  || (before mod 12 =? 0) && negb (before =? 0) && (after mod 12 =? 0).

Definition parallels (prev cand : list Note) : Z :=
  pairSum (λ u v, count (parallel prev cand u v)) (commonVoices prev cand).

Definition displacement (prev cand : list Note) : Z :=
  sumZ ((λ v, Z.abs (pitchOf v prev - pitchOf v cand))
          <$> commonVoices prev cand).

Definition cost (gap : Z → Z → Z) (prev cand : list Note) : Z :=
  1000 * crossings cand + 100 * wideGaps gap cand
  + 500 * parallels prev cand + 2 * displacement prev cand.

(** The specification: pitches that differ by more than 12. *)
Definition apart (p q : Z) : Z := Z.abs (p - q).
(** The code: the voice above is more than 12 over the voice below. *)
Definition above (p q : Z) : Z := p - q.
End CostSpec.

(** ** Auxiliary definitions of the statements *)

(** What the loops of the cost model add for one pair, one note. *)
Definition crossingWeight (a b : Note) : Z :=
  if (voiceOr0 a <? voiceOr0 b) && (pitch a <? pitch b) then 1000 else 0.

Definition movementWeight (sorted : list Note) (a : Note) : Z :=
  match findVoice (voice a) sorted with
  | Some (_, b) => Z.abs (pitch a - pitch b) * 2
  | None => 0
  end.

(** The candidate chord: the notes of the current chord, the first of
    them with the voices of the assignment. *)
Definition withVoices (voiceAssignments : list Z) (store : list Note)
    : list Note :=
  imap (λ j n, match voiceAssignments !! j with
               | Some v => setVoice (Some v) n
               | None => n
               end) store.

(** The cost of a candidate chord: what the four loops of the cost model
    compute once the assignment is written into the chord. *)
Definition costValue (prev cand : list Note) : Z :=
  let prevSorted := stableSort byVoice prev in
  let currentSorted := stableSort byVoice cand in
  movementLoop currentSorted prevSorted
    (parallelLoop currentSorted prevSorted
       (spacingLoop currentSorted (crossingLoop currentSorted 0))).

(** The candidate that the search scores for [assignment]: the unfixed
    notes of the chord take its voices, then the cost model writes them
    over the first notes of the chord. *)
Definition candidate (store : list Note) (assignment : list Z) : list Note :=
  withVoices assignment
    (setVoices (refsWhere isUndefined 0 store) assignment store).

Definition score (prevChord currentChord : Chord) (assignment : list Z) : Z :=
  costValue (notes prevChord) (candidate (notes currentChord) assignment).

(** A note without its voice: the updates of the search change voices
    only. *)
Definition erase (n : Note) : Note := setVoice None n.

(** A store of the search differs from the store at entry in voices only,
    and only at the first notes, as many as there are unfixed notes, and at
    the unfixed notes. *)
Definition searchFrame (store0 s : list Note) : Prop :=
  let unfixed := refsWhere isUndefined 0 store0 in
  erase <$> s = erase <$> store0
  ∧ ∀ j, (length unfixed ≤ j)%nat → j ∉ unfixed → s !! j = store0 !! j.

(** [best] is the first assignment of the least cost among [possible]. *)
Definition firstMinimum (sc : list Z → Z) (possible : list (list Z))
    (best : list Z) : Prop :=
  ∃ i, possible !! i = Some best
       ∧ ∀ j a, possible !! j = Some a →
                sc best ≤ sc a ∧ ((j < i)%nat → sc best < sc a).

(** The store of the search after it has scored [tried] last: the cost
    model has written [tried] over the first notes, and the unfixed notes
    are reset. *)
Definition storeAfter (store0 : list Note) (tried : option (list Z))
    : list Note :=
  match tried with
  | Some a => resetVoices (refsWhere isUndefined 0 store0) (candidate store0 a)
  | None => store0
  end.

(** The search after the assignments [done]. *)
Definition searchInv (prevChord currentChord : Chord)
    (done : list (list Z)) (st : Search) : Prop :=
  searchStore st = storeAfter (notes currentChord) (last done)
  ∧ match bestAssignment st with
    | None => done = [] ∧ lowestCost st = None
    | Some b =>
        lowestCost st = Some (score prevChord currentChord b)
        ∧ firstMinimum (score prevChord currentChord) done b
    end.

(** The melody and the harmony of a piece, and its extreme pitches, for
    the statements about the global balance. *)
Definition melodyOf (chords : list Chord) : list Note :=
  filter (λ n, voice n = Some 0) (flattenChordsToNotes chords).

Definition harmonyOf (chords : list Chord) : list Note :=
  filter (λ n, voice n ≠ Some 0) (flattenChordsToNotes chords).

Definition lowestPitch (m : Z) (l : list Note) : Prop :=
  (∃ n, n ∈ l ∧ pitch n = m) ∧ ∀ n, n ∈ l → m ≤ pitch n.

Definition highestPitch (m : Z) (l : list Note) : Prop :=
  (∃ n, n ∈ l ∧ pitch n = m) ∧ ∀ n, n ∈ l → pitch n ≤ m.

(** Every note that is not of voice 0 raised by [shift]. *)
Definition raiseHarmony (shift : Z) (chords : list Chord) : list Chord :=
  (λ chord,
     setNotes ((λ n, if decide (voice n = Some 0) then n
                     else setPitch (pitch n + shift) n) <$> notes chord) chord)
    <$> chords.

(** What no pass of the optimizer changes in a note. *)
Definition frame (n : Note) : Z * Z := (position n, duration n).

(** A note up to its octave: what the octave passes keep of it. *)
Definition tone (n : Note) : Z * Z * option Z * Z :=
  (position n, duration n, voice n, pitch n mod 12).

(** The notes of a chord from the top voice down: the voice index does
    not decrease, and every note lies at most an octave above the next
    one, never below it. *)
Definition descending (l : list Note) : Prop :=
  Sorted (λ a b, voiceOr0 a ≤ voiceOr0 b ∧ 0 ≤ pitch a - pitch b ≤ 12) l.

(** Position, duration and pitch class of a note. *)
Definition pitchClassFrame (n : Note) : Z * Z * Z :=
  (position n, duration n, pitch n mod 12).

(** A note with one of the voices 0 .. numVoices - 1. *)
Definition voicedIn (numVoices : nat) (n : Note) : Prop :=
  ∃ v, voice n = Some v ∧ 0 ≤ v < Z.of_nat numVoices.

(** n (n - 1) ... (n - k + 1): the number of sequences of [k] distinct
    elements out of [n]. *)
Fixpoint fallingFactorial (n k : nat) : nat :=
  match k with
  | O => 1
  | S k => n * fallingFactorial (n - 1) k
  end.

(** * The utilities of the grid (second part of theory-functions.ts)

    Modelling conventions.
    - Rows, columns, lengths and ids are integers, as the grid has them.
    - [a % b] is the truncated remainder [Z.rem]; for [b = 0] it is NaN,
      and every number computed from NaN is NaN: a function whose result
      can be NaN returns an [option] whose [None] is NaN.
    - [array[i]] is [undefined] out of range: [element] returns an
      [option] whose [None] is [undefined].
    - A template literal prints an integer in decimal ([pretty]) and
      [undefined] by its name.
    - The globals [allNotes], [NOTES] and [BAR_LENGTH] are imported from
      modules outside this file; the functions that read them take them as
      their first argument ([NOTES] as the list of its keys, in order).
    - The id generator [idGen] counts up from 0; its state is the last id
      it yielded, and [getNewID] returns the id with the new state. *)

(** The notes of the grid, with the fields [makeNewNote] gives them. *)
Module NoteData.
Record t := mk {
  row : Z; column : Z; note : option string; units : Z; velocity : Z;
  pan : Z; id : Z; selected : bool; color : option string }.
End NoteData.

(** [array[i]] *)
Definition element {A} (array : list A) (i : Z) : option A :=
  if decide (0 ≤ i) then array !! Z.to_nat i else None.

(** [array.indexOf(x)]: the first index of [x], or -1. *)
Definition indexOf {A} `{EqDecision A} (array : list A) (x : A) : Z :=
  match list_find (x =.) array with
  | Some (i, _) => Z.of_nat i
  | None => -1
  end.

(** [a % b] *)
Definition remainder (a b : Z) : option Z :=
  if decide (b = 0) then None else Some (Z.rem a b).

(** [`${s}`] for a string that may be [undefined]. *)
Definition template (s : option string) : string :=
  default "undefined"%string s.

(** ** pitchToNoteName *)

Definition noteNames : list string :=
  ["c"; "c#"; "d"; "d#"; "e"; "f"; "f#"; "g"; "g#"; "a"; "a#"; "b"]%string.

Definition pitchToNoteName (pitch : Z) : string :=
  let octave := pitch / 12 - 1 in
  let note := element noteNames (Z.rem pitch 12) in
  template note +:+ pretty octave.

(** ** getRowFromNote, getAllNotesFromOctaveCount *)

Definition getRowFromNote (allNotes : list string) (note : string) : Z :=
  Z.of_nat (length allNotes) - indexOf allNotes note - 1.

Definition getAllNotesFromOctaveCount (NOTES : list string)
    (octaveCount startOctave : Z) : list string :=
  reverse (i ← seqZ startOctave (octaveCount - startOctave);
           (λ note, note +:+ pretty i) <$> NOTES).

(** ** getNewID, makeNewNote *)

Definition getNewID (idGen : Z) : Z * Z := (idGen + 1, idGen + 1).

Definition makeNewNote (allNotes : list string) (row col noteLength : Z)
    (idGen : Z) : NoteData.t * Z :=
  let '(id, idGen) := getNewID idGen in
  (NoteData.mk row col
     (element allNotes (Z.of_nat (length allNotes) - 1 - row))
     noteLength 1 1 id false None, idGen).

(** ** snapColumn

    [mod > snapValue / 2] compares with the exact half: it is
    [snapValue < 2 * mod]. *)

Definition snapColumn (col snapValue : Z) : option Z :=
  if decide (col = 0) then Some 0
  else
    m ← remainder col snapValue;
    if decide (snapValue < 2 * m) then Some (col + (snapValue - m))
    else Some (col - m).

(** ** getNearestBar

    [Math.max] of no number is [-Infinity], the [None] of [mathMax]. *)

Definition getNearestBar (BAR_LENGTH : Z) (notes : list NoteData.t) : option Z :=
  if decide (length notes = 0%nat) then Some BAR_LENGTH
  else
    farthestCol ← mathMax ((λ note, NoteData.column note + NoteData.units note)
                             <$> notes);
    m ← remainder farthestCol BAR_LENGTH;
    if decide (m ≠ 0) then Some (farthestCol + (BAR_LENGTH - m))
    else Some farthestCol.

(** * Properties *)

(** ** Sorting *)

Section sort_facts.
Context {A : Type} (cmp : A → A → Z).

Lemma sortInsert_perm x l : sortInsert cmp x l ≡ₚ x :: l.
Proof.
  induction l as [|y l IH]; simpl; [done|].
  case_match; [done|]. rewrite IH. apply Permutation_swap.
Qed.

Lemma stableSort_perm l : stableSort cmp l ≡ₚ l.
Proof.
  induction l as [|x l IH]; simpl; [done|].
  by rewrite sortInsert_perm, IH.
Qed.

Lemma length_stableSort l : length (stableSort cmp l) = length l.
Proof. by rewrite stableSort_perm. Qed.

Lemma elem_of_stableSort x l : x ∈ stableSort cmp l ↔ x ∈ l.
Proof. by rewrite stableSort_perm. Qed.

Context (key : A → Z) (Hcmp : ∀ a b, cmp a b = key a - key b).

Lemma sortInsert_sorted x l :
  StronglySorted (λ a b, key a ≤ key b) l →
  StronglySorted (λ a b, key a ≤ key b) (sortInsert cmp x l).
Proof.
  induction 1 as [|y l Hl IH Hy]; simpl; [repeat constructor|].
  rewrite Hcmp. case_match eqn:Hle.
  - apply Z.leb_le in Hle. constructor; [by constructor|].
    constructor; [lia|]. eapply Forall_impl; [exact Hy|]. simpl. lia.
  - apply Z.leb_gt in Hle. constructor; [done|].
    rewrite sortInsert_perm. constructor; [lia|done].
Qed.

Lemma stableSort_sorted l :
  StronglySorted (λ a b, key a ≤ key b) (stableSort cmp l).
Proof.
  induction l as [|x l IH]; simpl; [constructor|].
  by apply sortInsert_sorted.
Qed.
End sort_facts.

Lemma byVoice_sorted (l : list Note) :
  StronglySorted (λ a b, voiceOr0 a ≤ voiceOr0 b) (stableSort byVoice l).
Proof. by apply (stableSort_sorted byVoice voiceOr0). Qed.

(** ** Sums over pairs *)

Section pair_sums.
Context {A : Type}.
Implicit Types (w : A → A → Z) (l : list A).

Lemma sumZ_app (l1 l2 : list Z) : sumZ (l1 ++ l2) = sumZ l1 + sumZ l2.
Proof. induction l1 as [|x l1 IH]; csimpl; lia. Qed.

Lemma sumZ_perm (l1 l2 : list Z) : l1 ≡ₚ l2 → sumZ l1 = sumZ l2.
Proof. induction 1; csimpl; lia. Qed.

Lemma sumZ_nonneg (l : list Z) : Forall (λ x, 0 ≤ x) l → 0 ≤ sumZ l.
Proof. induction 1; csimpl; lia. Qed.

Lemma sumZ_scale (c : Z) (f : A → Z) l :
  sumZ ((λ a, c * f a) <$> l) = c * sumZ (f <$> l).
Proof. induction l as [|x l IH]; csimpl; lia. Qed.

Lemma sumZ_ext (f g : A → Z) l :
  (∀ a, a ∈ l → f a = g a) → sumZ (f <$> l) = sumZ (g <$> l).
Proof.
  induction l as [|x l IH]; intros H; csimpl; [done|].
  rewrite H, IH; [done| |left]. intros a Ha. apply H. by right.
Qed.

Lemma sumZ_zero (f : A → Z) l :
  (∀ a, a ∈ l → f a = 0) → sumZ (f <$> l) = 0.
Proof.
  induction l as [|x l IH]; intros H; csimpl; [done|].
  rewrite H, IH; [done| |left]. intros a Ha. apply H. by right.
Qed.

Lemma pairSum_ext w w' l :
  (∀ a b, a ∈ l → b ∈ l → w a b = w' a b) → pairSum w l = pairSum w' l.
Proof.
  induction l as [|x l IH]; intros H; csimpl; [done|].
  rewrite IH by (intros; apply H; by right).
  f_equal. apply sumZ_ext. intros a Ha. apply H; [left|by right].
Qed.

Lemma pairSum_sorted (R : relation A) w w' l :
  StronglySorted R l → (∀ a b, R a b → w a b = w' a b) →
  pairSum w l = pairSum w' l.
Proof.
  intros Hl H. induction Hl as [|x l Hl IH Hx]; csimpl; [done|].
  rewrite IH. f_equal. apply sumZ_ext. intros a Ha.
  rewrite Forall_forall in Hx. auto.
Qed.

Lemma pairSum_perm w l l' :
  (∀ a b, w a b = w b a) → l ≡ₚ l' → pairSum w l = pairSum w l'.
Proof.
  intros Hsym. induction 1 as [|x l l' Hp IH|x y l|l1 l2 l3 _ IH1 _ IH2]; csimpl.
  - done.
  - rewrite IH. f_equal. apply sumZ_perm. by rewrite Hp.
  - rewrite (Hsym y x). lia.
  - congruence.
Qed.

Lemma pairSum_scale (c : Z) w l :
  pairSum (λ a b, c * w a b) l = c * pairSum w l.
Proof.
  induction l as [|x l IH]; csimpl; [lia|].
  rewrite IH, (sumZ_scale c (w x)). lia.
Qed.

Lemma pairSum_nonneg w l : (∀ a b, 0 ≤ w a b) → 0 ≤ pairSum w l.
Proof.
  intros H. induction l as [|x l IH]; csimpl; [lia|].
  assert (0 ≤ sumZ (w x <$> l)); [|lia].
  apply sumZ_nonneg, Forall_fmap, Forall_forall. intros; apply H.
Qed.
End pair_sums.


(** ** generatePermutations *)

Section permutations.
Implicit Types (array current p q : list Z) (todo k start : nat).

Lemma backtrack_start array todo start start' current :
  backtrack array todo start current = backtrack array todo start' current.
Proof.
  revert start start' current.
  induction todo as [|todo IH]; intros start start' current; [done|].
  done.
Qed.

Lemma backtrack_bind array todo start current :
  backtrack array (S todo) start current =
  array ≫= λ x, if decide (x ∈ current) then []
                else backtrack array todo 0 (current ++ [x]).
Proof.
  cbn [backtrack]. rewrite list_join_bind.
  rewrite (imap_ext _ (const (λ x, if decide (x ∈ current) then []
                else backtrack array todo 0 (current ++ [x])))).
  - rewrite imap_const, list_fmap_bind. done.
  - intros i x _. simpl. case_decide; [done|]. apply backtrack_start.
Qed.

(** What [backtrack] produces: [current] extended by [todo] further
    elements of [array], none of them in [current], none twice. *)
Lemma elem_of_backtrack array todo start current p :
  p ∈ backtrack array todo start current ↔
  ∃ q, p = current ++ q ∧ length q = todo ∧ NoDup q ∧
       ∀ x, x ∈ q → x ∈ array ∧ x ∉ current.
Proof.
  revert start current p.
  induction todo as [|todo IH]; intros start current p.
  - simpl. rewrite list_elem_of_singleton. split.
    + intros ->. exists []. rewrite app_nil_r.
      split_and!; [done|done|constructor|]. intros x Hx. inv Hx.
    + intros (q & -> & Hq & _). apply nil_length_inv in Hq as ->.
      by rewrite app_nil_r.
  - rewrite backtrack_bind, list_elem_of_bind. split.
    + intros (x & Hp & Hx). case_decide as Hc; [inv Hp|].
      apply IH in Hp as (q & -> & Hlen & Hnd & Hq).
      exists (x :: q). rewrite <- app_assoc. split_and!; [done|simpl; lia| |].
      * constructor; [|done]. intros Hxq. apply Hq in Hxq as [_ Hn].
        apply Hn, elem_of_app. right. left.
      * intros y [->|Hy]%elem_of_cons; [done|].
        apply Hq in Hy as [? Hn]. split; [done|].
        intros ?. apply Hn, elem_of_app. by left.
    + intros (q & -> & Hlen & Hnd & Hq). destruct q as [|x q]; [done|].
      exists x. destruct (Hq x) as [Hxa Hxc]; [left|].
      split; [|done]. rewrite decide_False by done.
      apply IH. exists q. rewrite <- app_assoc. inv Hnd.
      split_and!; [done|simpl in Hlen; lia|done|].
      intros y Hy. destruct (Hq y) as [? ?]; [by right|]. split; [done|].
      rewrite elem_of_app, list_elem_of_singleton. intros [?| ->]; done.
Qed.

Lemma NoDup_backtrack array todo start current :
  NoDup array → NoDup (backtrack array todo start current).
Proof.
  intros Harr. revert start current.
  induction todo as [|todo IH]; intros start current.
  - apply NoDup_singleton.
  - rewrite backtrack_bind. apply NoDup_bind; [|intros x _; case_decide; [constructor|apply IH]|done].
    intros x1 x2 p _ _ H1 H2.
    destruct (decide (x1 ∈ current)); [by inv H1|].
    destruct (decide (x2 ∈ current)); [by inv H2|].
    apply elem_of_backtrack in H1 as (q1 & -> & _).
    apply elem_of_backtrack in H2 as (q2 & Heq & _).
    rewrite <- !app_assoc in Heq. apply app_inv_head in Heq. by inv Heq.
Qed.

Lemma lexLt_app current p q : lexLt (current ++ p) (current ++ q) ↔ lexLt p q.
Proof.
  induction current as [|x current IH]; [done|]. simpl. rewrite IH.
  split; [intros [?|[_ ?]]; [lia|done]|by right].
Qed.

Lemma StronglySorted_bind {A B} (R : relation B) (S : relation A)
    (f : A → list B) (l : list A) :
  StronglySorted S l →
  (∀ x, x ∈ l → StronglySorted R (f x)) →
  (∀ x y a b, S x y → a ∈ f x → b ∈ f y → R a b) →
  StronglySorted R (l ≫= f).
Proof.
  intros Hl Hf HR. induction Hl as [|x l Hl IH Hx]; [constructor|].
  rewrite bind_cons. apply StronglySorted_app_2.
  - intros a b Ha (y & Hb & Hy)%list_elem_of_bind.
    rewrite Forall_forall in Hx. eauto.
  - apply Hf. left.
  - apply IH. intros y Hy. apply Hf. by right.
Qed.

(** Over an array in ascending order the enumeration is in ascending
    lexicographic order. *)
Lemma backtrack_sorted array todo start current :
  StronglySorted Z.lt array →
  StronglySorted lexLt (backtrack array todo start current).
Proof.
  intros Harr. revert start current.
  induction todo as [|todo IH]; intros start current.
  - repeat constructor.
  - rewrite backtrack_bind. eapply StronglySorted_bind; [done| |].
    + intros x _. case_decide; [constructor|apply IH].
    + intros x y p q Hxy Hp Hq.
      destruct (decide (x ∈ current)); [by inv Hp|].
      destruct (decide (y ∈ current)); [by inv Hq|].
      apply elem_of_backtrack in Hp as (p' & -> & _).
      apply elem_of_backtrack in Hq as (q' & -> & _).
      rewrite <- !app_assoc. apply lexLt_app. simpl. by left.
Qed.

(** The enumeration follows the positions in [array]: renaming the
    elements by an injective function renames the result. *)
Lemma backtrack_fmap (f : Z → Z) array todo start current :
  (∀ x y, x ∈ array ++ current → y ∈ array ++ current → f x = f y → x = y) →
  backtrack (f <$> array) todo start (f <$> current) =
  fmap (M:=list) f <$> backtrack array todo start current.
Proof.
  revert start current. induction todo as [|todo IH]; intros start current Hinj; [done|].
  rewrite !backtrack_bind, list_fmap_bind.
  assert (∀ (g : Z → list (list Z)) l,
    fmap (M:=list) f <$> (l ≫= g) = l ≫= λ x, fmap (M:=list) f <$> g x) as ->.
  { intros g l. induction l as [|x l IHl]; [done|].
    rewrite !bind_cons, fmap_app. by f_equal. }
  apply Forall_bind_ext, Forall_forall. intros x Hx. simpl.
  assert (f x ∈ f <$> current ↔ x ∈ current) as Hiff.
  { rewrite list_elem_of_fmap. split; [|by eauto].
    intros (y & Heq & Hy). apply Hinj in Heq as ->; [done|set_solver..]. }
  destruct (decide (x ∈ current)) as [Hc|Hc].
  - rewrite decide_True by by apply Hiff. done.
  - rewrite decide_False by by rewrite Hiff.
    rewrite <- IH; [by rewrite fmap_app|].
    intros a b Ha Hb. apply Hinj; set_solver.
Qed.

Lemma seqZ_sorted m n : StronglySorted Z.lt (seqZ m n).
Proof.
  unfold seqZ. apply (StronglySorted_fmap _ lt); [intros; lia|].
  generalize 0%nat as j. induction (Z.to_nat n) as [|k IH]; intros j; [constructor|].
  simpl. constructor; [apply IH|].
  apply Forall_forall. intros i Hi%elem_of_seq. lia.
Qed.

Lemma elem_of_generatePermutations array k p :
  p ∈ generatePermutations array k ↔ length p = k ∧ NoDup p ∧ p ⊆ array.
Proof.
  unfold generatePermutations. rewrite elem_of_backtrack. split.
  - intros (q & -> & Hlen & Hq & Hin). split_and!; [done..|].
    intros x Hx. by apply Hin.
  - intros (Hlen & Hp & Hin). exists p. split_and!; [done..|].
    intros x Hx. split; [by apply Hin|]. apply not_elem_of_nil.
Qed.

Lemma generatePermutations_take array k :
  NoDup array → (k ≤ length array)%nat →
  take k array ∈ generatePermutations array k.
Proof.
  intros Hnd Hk. apply elem_of_generatePermutations. split_and!.
  - by apply length_take_le.
  - eapply sublist_NoDup; [exact Hnd|apply sublist_take].
  - intros x Hx. apply elem_of_take in Hx as (i & Hi & _).
    by eapply list_elem_of_lookup_2.
Qed.

Lemma lookup_total_seqZ array :
  array = (λ i, array !!! Z.to_nat i) <$> seqZ 0 (Z.of_nat (length array)).
Proof.
  apply list_eq. intros i. rewrite list_lookup_fmap.
  destruct (decide (i < length array)%nat) as [Hi|Hi].
  - rewrite lookup_seqZ_lt by lia. simpl. rewrite Z.add_0_l, Nat2Z.id.
    by apply list_lookup_lookup_total_lt.
  - rewrite lookup_seqZ_ge by lia. simpl. apply lookup_ge_None. lia.
Qed.
End permutations.

(** C9.  For an array of pairwise distinct integers and k ≤ length
    array, generatePermutations(array, k) holds exactly the injective
    sequences of k elements of array, each of them once; it is not empty;
    its order is fixed by the positions in array: it is the enumeration
    over the positions 0, 1, ..., which is in strictly ascending
    lexicographic order, read through array; and the [start] argument of
    backtrack has no influence on what is enumerated. *)
Theorem generatePermutations_complete (array : list Z) (k : nat) :
  NoDup array → (k ≤ length array)%nat →
  (∀ p, p ∈ generatePermutations array k ↔
        length p = k ∧ NoDup p ∧ p ⊆ array)
  ∧ NoDup (generatePermutations array k)
  ∧ generatePermutations array k ≠ []
  ∧ generatePermutations array k =
      fmap (M:=list) (λ i, array !!! Z.to_nat i)
        <$> generatePermutations (seqZ 0 (Z.of_nat (length array))) k
  ∧ StronglySorted lexLt
      (generatePermutations (seqZ 0 (Z.of_nat (length array))) k)
  ∧ ∀ todo start start' current,
      backtrack array todo start current = backtrack array todo start' current.
Proof.
  intros Hnd Hk. split_and!.
  - apply elem_of_generatePermutations.
  - by apply NoDup_backtrack.
  - intros Hnil. pose proof (generatePermutations_take array k Hnd Hk) as Hin.
    rewrite Hnil in Hin. by apply not_elem_of_nil in Hin.
  - unfold generatePermutations. rewrite (lookup_total_seqZ array) at 1.
    apply (backtrack_fmap _ _ _ _ []).
    intros x y Hx Hy Heq. rewrite app_nil_r in Hx, Hy.
    apply elem_of_seqZ in Hx, Hy.
    assert (Z.to_nat x = Z.to_nat y); [|lia].
    eapply (NoDup_lookup array _ _ (array !!! Z.to_nat x)); [done|..].
    + apply list_lookup_lookup_total_lt. lia.
    + rewrite Heq. apply list_lookup_lookup_total_lt. lia.
  - apply backtrack_sorted, seqZ_sorted.
  - intros. apply backtrack_start.
Qed.

Lemma generatePermutations_complete_witness :
  generatePermutations [3; 1; 2] 2 =
    [[3; 1]; [3; 2]; [1; 3]; [1; 2]; [2; 3]; [2; 1]]
  ∧ generatePermutations [3; 1; 2] 2 ≠ [].
Proof.
  split; [reflexivity|].
  apply (generatePermutations_complete [3; 1; 2] 2).
  - by apply (bool_decide_unpack _); vm_compute.
  - simpl. lia.
Defined.

Section filtered_sums.
Context {A B : Type} (g : A → option B) (P : B → Prop) `{!∀ u, Decision (P u)}.

Lemma sumZ_filter_omap (f : B → Z) (l : list A) :
  sumZ (f <$> filter P (omap g l)) =
  sumZ ((λ a, match g a with
              | Some u => if decide (P u) then f u else 0
              | None => 0
              end) <$> l).
Proof.
  induction l as [|a l IH]; csimpl; [done|].
  destruct (g a) as [u|]; [|lia].
  rewrite filter_cons. case_decide; csimpl; lia.
Qed.

Lemma pairSum_filter_omap (w : B → B → Z) (l : list A) :
  pairSum w (filter P (omap g l)) =
  pairSum (λ a b, match g a, g b with
                  | Some u, Some v =>
                      if decide (P u) then if decide (P v) then w u v else 0
                      else 0
                  | _, _ => 0
                  end) l.
Proof.
  induction l as [|a l IH]; csimpl; [done|]. rewrite <- IH.
  destruct (g a) as [u|].
  - rewrite filter_cons. case_decide; csimpl.
    + by rewrite sumZ_filter_omap.
    + rewrite sumZ_zero; [done|]. by intros; repeat case_match.
  - by rewrite sumZ_zero.
Qed.
End filtered_sums.

(** ** The cost model *)

Section cost_model.
Import CostSpec.
Implicit Types (l prev cand sorted : list Note) (c : Z).



Lemma fold_left_sum {X} (f : X → Z) (step : Z → X → Z) (l : list X) c :
  (∀ c a, step c a = c + f a) → fold_left step l c = c + sumZ (f <$> l).
Proof.
  intros H. revert c. induction l as [|x l IH]; intros c; csimpl; [lia|].
  rewrite IH, H. lia.
Qed.

Lemma crossingLoop_pairSum l c :
  crossingLoop l c = c + pairSum crossingWeight l.
Proof.
  revert c. induction l as [|a l IH]; intros c; simpl; [lia|].
  rewrite IH, (fold_left_sum (crossingWeight a)); [lia|].
  intros c' b. unfold crossingWeight. case_match; lia.
Qed.

Lemma spacingLoop_sum l c :
  spacingLoop l c =
  c + 100 * sumZ ((λ ab : Note * Note,
                     count (12 <? above (pitch ab.1) (pitch ab.2)))
                    <$> adjacentPairs l).
Proof.
  revert c. induction l as [|a l IH]; intros c; [simpl; lia|].
  destruct l as [|b l]; [simpl; lia|].
  change (spacingLoop (a :: b :: l) c) with
    (spacingLoop (b :: l) (if 12 <? pitch a - pitch b then c + 100 else c)).
  rewrite IH. change (adjacentPairs (a :: b :: l)) with
    ((a, b) :: adjacentPairs (b :: l)).
  csimpl. unfold above, count. case_match; lia.
Qed.

Lemma parallelStep_add sorted a b c :
  parallelStep sorted a b c = c + parallelStep sorted a b 0.
Proof. unfold parallelStep. repeat case_match; lia. Qed.

Lemma parallelLoop_pairSum sorted l c :
  parallelLoop sorted l c = c + pairSum (λ a b, parallelStep sorted a b 0) l.
Proof.
  revert c. induction l as [|a l IH]; intros c; simpl; [lia|].
  rewrite IH, (fold_left_sum (λ b, parallelStep sorted a b 0)); [lia|].
  intros. apply parallelStep_add.
Qed.

Lemma movementLoop_sum sorted l c :
  movementLoop sorted l c = c + sumZ (movementWeight sorted <$> l).
Proof.
  unfold movementLoop. apply fold_left_sum.
  intros c' a. unfold movementWeight. repeat case_match; lia.
Qed.

Lemma parallelStep_sym sorted a b :
  parallelStep sorted a b 0 = parallelStep sorted b a 0.
Proof.
  unfold parallelStep.
  destruct (findVoice (voice a) sorted) as [[? ca]|],
           (findVoice (voice b) sorted) as [[? cb]|]; try done.
  replace (Z.abs (pitch b - pitch a)) with (Z.abs (pitch a - pitch b)) by lia.
  by replace (Z.abs (pitch cb - pitch ca)) with (Z.abs (pitch ca - pitch cb)) by lia.
Qed.

Lemma crossed_sym a b : crossed a b = crossed b a.
Proof. unfold crossed. apply orb_comm. Qed.

(** The crossing term. *)
Lemma crossing_term cand :
  crossingLoop (stableSort byVoice cand) 0 = 1000 * crossings cand.
Proof.
  rewrite crossingLoop_pairSum, Z.add_0_l. unfold crossings.
  rewrite <- pairSum_scale.
  rewrite <- (pairSum_perm _ _ _
    (λ a b, f_equal (λ x, 1000 * count x) (crossed_sym a b))
    (stableSort_perm byVoice cand)).
  eapply pairSum_sorted; [apply byVoice_sorted|].
  intros a b Hab. unfold crossingWeight, crossed, count. simpl in Hab.
  replace (voiceOr0 b <? voiceOr0 a) with false by (symmetry; apply Z.ltb_ge; lia).
  rewrite orb_false_r. by case_match.
Qed.

Lemma NoDup_fmap_eq {X Y} (f : X → Y) (l : list X) a b :
  NoDup (f <$> l) → a ∈ l → b ∈ l → f a = f b → a = b.
Proof.
  intros Hnd (i & Hi)%list_elem_of_lookup (j & Hj)%list_elem_of_lookup Heq.
  assert (i = j) as ->; [|congruence].
  eapply NoDup_lookup; [exact Hnd|..]; rewrite list_lookup_fmap.
  - by rewrite Hi.
  - rewrite Hj. simpl. by rewrite Heq.
Qed.

(** With distinct voices the note of a voice is the same note in
    whatever order the chord is searched. *)
Lemma findVoice_perm l l' n v :
  NoDup (voice <$> l) → l' ≡ₚ l → n ∈ l → voice n = Some v →
  ∃ i, findVoice (Some v) l' = Some (i, n).
Proof.
  intros Hnd Hp Hn Hv.
  destruct (list_find_elem_of (λ m, voice m = Some v) l' n)
    as [[i m] Hfind]; [by rewrite Hp|done|].
  exists i. unfold findVoice. rewrite Hfind.
  apply list_find_Some in Hfind as (Hm & Hvm & _). do 2 f_equal.
  eapply NoDup_fmap_eq; [exact Hnd| |done|congruence].
  rewrite <- Hp. by eapply list_elem_of_lookup_2.
Qed.

Lemma findVoice_absent l l' v :
  l' ≡ₚ l → v ∉ voicesOf l → findVoice (Some v) l' = None.
Proof.
  intros Hp Hv. apply list_find_None, Forall_forall. intros m Hm Hvm.
  apply Hv, list_elem_of_omap. exists m. by rewrite <- Hp.
Qed.

Lemma pitchOf_unique l n v :
  NoDup (voice <$> l) → n ∈ l → voice n = Some v → pitchOf v l = pitch n.
Proof.
  intros Hnd Hn Hv. unfold pitchOf.
  destruct (findVoice_perm l l n v) as [i Hi]; [done..|].
  unfold findVoice in Hi. by rewrite Hi.
Qed.

Lemma pitchOf_absent l v : v ∉ voicesOf l → pitchOf v l = 0.
Proof.
  intros Hv. unfold pitchOf.
  pose proof (findVoice_absent l l v (reflexivity _) Hv) as Hf.
  unfold findVoice in Hf. by rewrite Hf.
Qed.

Lemma isParallelFifthOrOctave_mod i1 i2 :
  0 ≤ i1 → 0 ≤ i2 →
  isParallelFifthOrOctave i1 i2 =
  (i1 mod 12 =? 7) && (i2 mod 12 =? 7)
  || (i1 mod 12 =? 0) && negb (i1 =? 0) && (i2 mod 12 =? 0).
Proof.
  intros H1 H2. unfold isParallelFifthOrOctave.
  rewrite !Z.rem_mod_nonneg by lia.
  by destruct (i1 mod 12 =? 7), (i2 mod 12 =? 7), (i1 mod 12 =? 0),
    (i2 mod 12 =? 0), (i1 =? 0).
Qed.

(** What the code adds for two notes of the previous chord, in the
    words of the specification. *)
Lemma parallelStep_spec prev cand sorted a b u v :
  NoDup (voice <$> prev) → NoDup (voice <$> cand) → sorted ≡ₚ cand →
  a ∈ prev → b ∈ prev → voice a = Some u → voice b = Some v →
  parallelStep sorted a b 0 =
  if decide (u ∈ voicesOf cand) then
    if decide (v ∈ voicesOf cand)
    then 500 * count (parallel prev cand u v) else 0
  else 0.
Proof.
  intros Hprev Hcand Hp Ha Hb Hu Hv. unfold parallelStep. rewrite Hu, Hv.
  destruct (decide (u ∈ voicesOf cand)) as [Hiu|Hiu];
    [|by rewrite (findVoice_absent cand sorted u)].
  apply list_elem_of_omap in Hiu as (ca & Hca & Hcu).
  destruct (findVoice_perm cand sorted ca u) as [i ->]; [done..|].
  destruct (decide (v ∈ voicesOf cand)) as [Hiv|Hiv];
    [|by rewrite (findVoice_absent cand sorted v)].
  apply list_elem_of_omap in Hiv as (cb & Hcb & Hcv).
  destruct (findVoice_perm cand sorted cb v) as [j ->]; [done..|].
  rewrite isParallelFifthOrOctave_mod by lia.
  unfold parallel, interval.
  rewrite (pitchOf_unique prev a u), (pitchOf_unique prev b v),
    (pitchOf_unique cand ca u), (pitchOf_unique cand cb v) by done.
  unfold count. by case_match.
Qed.

Lemma parallel_term prev cand c :
  voicesDistinct prev → NoDup (voice <$> cand) →
  parallelLoop (stableSort byVoice cand) (stableSort byVoice prev) c =
  c + 500 * parallels prev cand.
Proof.
  intros [Hdef Hprev] Hcand. rewrite parallelLoop_pairSum. f_equal.
  rewrite (pairSum_perm _ _ prev (parallelStep_sym _))
    by apply stableSort_perm.
  unfold parallels, commonVoices, voicesOf.
  rewrite <- pairSum_scale, pairSum_filter_omap.
  apply pairSum_ext. intros a b Ha Hb. rewrite Forall_forall in Hdef.
  destruct (voice a) as [u|] eqn:Hu; [|by destruct (Hdef a Ha)].
  destruct (voice b) as [v|] eqn:Hv; [|by destruct (Hdef b Hb)].
  by apply (parallelStep_spec prev cand); [..|apply stableSort_perm| | | |].
Qed.

Lemma movement_term prev cand c :
  voicesDistinct prev → NoDup (voice <$> cand) →
  movementLoop (stableSort byVoice cand) (stableSort byVoice prev) c =
  c + 2 * displacement prev cand.
Proof.
  intros [Hdef Hprev] Hcand. rewrite movementLoop_sum. f_equal.
  rewrite (sumZ_perm _ (movementWeight (stableSort byVoice cand) <$> prev))
    by (by rewrite (stableSort_perm byVoice prev)).
  unfold displacement, commonVoices, voicesOf.
  rewrite <- (sumZ_scale 2), sumZ_filter_omap.
  apply sumZ_ext. intros a Ha. rewrite Forall_forall in Hdef.
  unfold movementWeight.
  destruct (voice a) as [u|] eqn:Hu; [|by destruct (Hdef a Ha)].
  case_decide as Hiu.
  - apply list_elem_of_omap in Hiu as (ca & Hca & Hcu).
    destruct (findVoice_perm cand (stableSort byVoice cand) ca u)
      as [i ->]; [done|apply stableSort_perm|done..|].
    rewrite (pitchOf_unique prev a u), (pitchOf_unique cand ca u) by done.
    lia.
  - by rewrite (findVoice_absent cand); [| apply stableSort_perm|].
Qed.
End cost_model.


Lemma assignVoices_from i va store :
  (i + length va ≤ length store)%nat →
  assignVoices i va store =
  Ok (imap (λ j n, if decide (i ≤ j)%nat
                   then match va !! (j - i)%nat with
                        | Some v => setVoice (Some v) n
                        | None => n
                        end
                   else n) store).
Proof.
  revert i store. induction va as [|v va IH]; intros i store Hlen.
  - simpl. f_equal. apply list_eq. intros j. rewrite list_lookup_imap.
    destruct (store !! j); simpl; [|done]. by case_decide.
  - simpl in *. rewrite decide_True by lia.
    rewrite IH by (rewrite length_alter; lia). f_equal.
    apply list_eq. intros j. rewrite !list_lookup_imap.
    destruct (decide (i = j)) as [->|Hne].
    + rewrite list_lookup_alter_eq. destruct (store !! j); simpl; [|done].
      rewrite decide_False, decide_True by lia. by rewrite Nat.sub_diag.
    + rewrite list_lookup_alter_ne by done.
      destruct (store !! j); simpl; [|done].
      destruct (decide (S i ≤ j)%nat).
      * rewrite decide_True by lia.
        by replace (j - i)%nat with (S (j - S i)) by lia.
      * by rewrite decide_False by lia.
Qed.

Lemma assignVoices_ok va store :
  (length va ≤ length store)%nat →
  assignVoices 0 va store = Ok (withVoices va store).
Proof.
  intros Hlen. rewrite assignVoices_from by done. f_equal. unfold withVoices.
  apply imap_ext. intros j n _. simpl. by rewrite Nat.sub_0_r.
Qed.

(** The cost as a sum.  For a voice assignment no longer than the candidate
    chord, the cost model returns, together with the candidate chord, a
    cost that is not negative; and when the notes of each of the two chords
    carry pairwise distinct voices, the cost is the sum of 1000 for each pair
    of candidate notes of which the one with the lower voice index has the
    lower pitch, 100 for each pair of voice-adjacent candidate notes of
    which the one with the lower voice index is more than 12 semitones
    above the other, 500 for each pair of voices present in both chords
    whose interval is a fifth in both chords or an octave (not a unison
    before) in both, and twice the displacement of each voice present in
    both chords. *)
Theorem calculateVoiceLeadingCost_sum (prevChord currentChord : Chord)
    (voiceAssignments : list Z) :
  (length voiceAssignments ≤ length (notes currentChord))%nat →
  ∃ cost,
    calculateVoiceLeadingCost prevChord currentChord voiceAssignments =
      Ok (cost, withVoices voiceAssignments (notes currentChord))
    ∧ 0 ≤ cost
    ∧ (CostSpec.voicesDistinct (notes prevChord) →
       CostSpec.voicesDistinct (withVoices voiceAssignments (notes currentChord)) →
       cost = CostSpec.cost CostSpec.above (notes prevChord)
                (withVoices voiceAssignments (notes currentChord))).
Proof.
  intros Hlen. unfold calculateVoiceLeadingCost.
  rewrite assignVoices_ok by done. simpl.
  set (cand := withVoices voiceAssignments (notes currentChord)).
  eexists. split; [done|]. split.
  - rewrite movementLoop_sum, parallelLoop_pairSum, spacingLoop_sum,
      crossingLoop_pairSum.
    assert (0 ≤ pairSum crossingWeight (stableSort byVoice cand)).
    { apply pairSum_nonneg. intros a b. unfold crossingWeight. case_match; lia. }
    assert (0 ≤ pairSum (λ a b, parallelStep (stableSort byVoice cand) a b 0)
                  (stableSort byVoice (notes prevChord))).
    { apply pairSum_nonneg. intros a b. unfold parallelStep.
      repeat case_match; lia. }
    assert (0 ≤ sumZ (movementWeight (stableSort byVoice cand)
                        <$> stableSort byVoice (notes prevChord))).
    { apply sumZ_nonneg, Forall_fmap, Forall_forall. intros a _. simpl.
      unfold movementWeight. repeat case_match; lia. }
    assert (0 ≤ sumZ ((λ ab : Note * Note,
                  CostSpec.count (12 <? CostSpec.above (pitch ab.1) (pitch ab.2)))
                 <$> adjacentPairs (stableSort byVoice cand))).
    { apply sumZ_nonneg, Forall_fmap, Forall_forall. intros a _. simpl.
      unfold CostSpec.count. case_match; lia. }
    lia.
  - intros Hprev [_ Hcand].
    rewrite movement_term, parallel_term, spacingLoop_sum, crossing_term by done.
    unfold CostSpec.cost, CostSpec.wideGaps. lia.
Qed.

Lemma calculateVoiceLeadingCost_sum_witness :
  let prev := mkChord 0 [mkNote 72 0 8 (Some 0); mkNote 67 0 8 (Some 1);
                         mkNote 60 0 8 (Some 2)] (Some 8) in
  let cur := mkChord 8 [inputNote 74 8 8; inputNote 55 8 8; inputNote 62 8 8] None in
  let cand := withVoices [0; 2; 1] (notes cur) in
  (CostSpec.voicesDistinct (notes prev) ∧ CostSpec.voicesDistinct cand
   ∧ CostSpec.cost CostSpec.above (notes prev) cand = 524)
  ∧ ∃ cost,
      calculateVoiceLeadingCost prev cur [0; 2; 1] = Ok (cost, cand)
      ∧ 0 ≤ cost
      ∧ (CostSpec.voicesDistinct (notes prev) → CostSpec.voicesDistinct cand →
         cost = CostSpec.cost CostSpec.above (notes prev) cand).
Proof.
  split.
  - split_and!; [split; apply (bool_decide_unpack _); by vm_compute..|].
    by vm_compute.
  - apply (calculateVoiceLeadingCost_sum
      (mkChord 0 [mkNote 72 0 8 (Some 0); mkNote 67 0 8 (Some 1);
                  mkNote 60 0 8 (Some 2)] (Some 8))
      (mkChord 8 [inputNote 74 8 8; inputNote 55 8 8; inputNote 62 8 8] None)
      [0; 2; 1]).
    simpl. lia.
Defined.

(** C3.  The spacing term misses voices that are more than an octave
    apart.  The previous chord has voice 0 at 72 and voice 1 at 60; the
    candidate has voice 0 at pitch 60 and voice 1 at pitch 80.  The sum of
    the four terms, with 100 for adjacent voices whose pitches differ by
    more than 12 semitones, is 1164: 1000 for the crossing, 100 for the
    distance of 20, and 64 for the movement.  The cost model returns 1064:
    its spacing test is the signed difference of the upper voice over the
    lower, -20 here, not the distance. *)
Lemma calculateVoiceLeadingCost_not_apart :
  let prev := mkChord 0 [mkNote 72 0 8 (Some 0); mkNote 60 0 8 (Some 1)] (Some 8) in
  let cur := mkChord 8 [inputNote 60 8 8; inputNote 80 8 8] None in
  let cand := withVoices [0; 1] (notes cur) in
  CostSpec.voicesDistinct (notes prev) ∧ CostSpec.voicesDistinct cand
  ∧ calculateVoiceLeadingCost prev cur [0; 1] = Ok (1064, cand)
  ∧ CostSpec.cost CostSpec.apart (notes prev) cand = 1164.
Proof.
  split_and!; [split; apply (bool_decide_unpack _); by vm_compute..| |];
    by vm_compute.
Qed.

(** ** Updates through references *)

Section references.
Implicit Types (store s : list Note) (unfixed refs : list nat) (a : list Z).

Lemma fmap_alter_invariant {X Y} (f : X → Y) (g : X → X) (i : nat) (l : list X) :
  (∀ x, f (g x) = f x) → f <$> alter g i l = f <$> l.
Proof.
  intros H. revert i. induction l as [|x l IH]; intros [|i]; csimpl;
    by rewrite ?H, ?IH.
Qed.

Lemma elem_of_refsWhere P i l r :
  r ∈ refsWhere P i l ↔
  (i ≤ r)%nat ∧ ∃ n, l !! (r - i)%nat = Some n ∧ P n = true.
Proof.
  revert i. induction l as [|n l IH]; intros i; simpl.
  - rewrite elem_of_nil. naive_solver.
  - assert (r ∈ refsWhere P (S i) l ↔
            (i < r)%nat ∧ ∃ m, l !! (r - S i)%nat = Some m ∧ P m = true) as IH'.
    { rewrite IH. naive_solver lia. }
    destruct (P n) eqn:HP; rewrite ?elem_of_cons, IH'; split.
    + intros [->|[Hlt (m & Hm & HPm)]].
      * split; [lia|]. exists n. by rewrite Nat.sub_diag.
      * split; [lia|]. exists m. split; [|done].
        by replace (r - i)%nat with (S (r - S i)) by lia.
    + intros [Hle (m & Hm & HPm)].
      destruct (decide (r = i)) as [->|Hne]; [by left|right].
      split; [lia|]. exists m. split; [|done].
      by replace (r - i)%nat with (S (r - S i)) in Hm by lia.
    + intros [Hlt (m & Hm & HPm)]. split; [lia|]. exists m. split; [|done].
      by replace (r - i)%nat with (S (r - S i)) by lia.
    + intros [Hle (m & Hm & HPm)].
      destruct (decide (r = i)) as [->|Hne].
      * rewrite Nat.sub_diag in Hm. simpl in Hm. congruence.
      * split; [lia|]. exists m. split; [|done].
        by replace (r - i)%nat with (S (r - S i)) in Hm by lia.
Qed.

Lemma NoDup_refsWhere P i l : NoDup (refsWhere P i l).
Proof.
  revert i. induction l as [|n l IH]; intros i; simpl; [constructor|].
  destruct (P n); [|done]. constructor; [|done].
  rewrite elem_of_refsWhere. lia.
Qed.

Lemma length_refsWhere P i l :
  length (refsWhere P i l) = length (filter (λ n, P n = true) l).
Proof.
  revert i. induction l as [|n l IH]; intros i; simpl; [done|].
  rewrite filter_cons. case_decide as HP; destruct (P n); try done; simpl;
    by rewrite IH.
Qed.

Lemma length_refsWhere_le P i l : (length (refsWhere P i l) ≤ length l)%nat.
Proof. rewrite length_refsWhere. apply length_filter. Qed.

Lemma length_setVoices unfixed a s : length (setVoices unfixed a s) = length s.
Proof.
  revert a s. induction unfixed as [|r refs IH]; intros a s; simpl; [done|].
  by rewrite IH, length_alter.
Qed.

Lemma lookup_setVoices_ne unfixed a s j :
  j ∉ unfixed → setVoices unfixed a s !! j = s !! j.
Proof.
  revert a s. induction unfixed as [|r refs IH]; intros a s Hj; simpl; [done|].
  apply not_elem_of_cons in Hj as [? ?].
  by rewrite IH, list_lookup_alter_ne.
Qed.

Lemma lookup_setVoices unfixed a s i r :
  NoDup unfixed → unfixed !! i = Some r →
  setVoices unfixed a s !! r = setVoice (a !! i) <$> s !! r.
Proof.
  revert a s i. induction unfixed as [|r' refs IH]; intros a s i Hnd Hi; [done|].
  apply NoDup_cons in Hnd as [Hr' Hnd]. destruct i as [|i]; simpl in *.
  - simplify_eq. rewrite lookup_setVoices_ne, list_lookup_alter_eq by done.
    by destruct a.
  - rewrite (IH _ _ i) by done.
    rewrite list_lookup_alter_ne.
    + by destruct a.
    + intros ->. apply Hr'. by eapply list_elem_of_lookup_2.
Qed.

Lemma length_resetVoices unfixed s : length (resetVoices unfixed s) = length s.
Proof.
  unfold resetVoices. revert s.
  induction unfixed as [|r refs IH]; intros s; simpl; [done|].
  by rewrite IH, length_alter.
Qed.

Lemma lookup_resetVoices_ne unfixed s j :
  j ∉ unfixed → resetVoices unfixed s !! j = s !! j.
Proof.
  unfold resetVoices. revert s.
  induction unfixed as [|r refs IH]; intros s Hj; simpl; [done|].
  apply not_elem_of_cons in Hj as [? ?].
  by rewrite IH, list_lookup_alter_ne.
Qed.

Lemma length_withVoices a s : length (withVoices a s) = length s.
Proof. apply length_imap. Qed.

Lemma lookup_withVoices a s j :
  withVoices a s !! j =
  (λ n, match a !! j with Some v => setVoice (Some v) n | None => n end)
    <$> s !! j.
Proof. apply list_lookup_imap. Qed.


Lemma erase_setVoices unfixed a s :
  erase <$> setVoices unfixed a s = erase <$> s.
Proof.
  revert a s. induction unfixed as [|r refs IH]; intros a s; simpl; [done|].
  by rewrite IH, fmap_alter_invariant.
Qed.

Lemma erase_resetVoices unfixed s :
  erase <$> resetVoices unfixed s = erase <$> s.
Proof.
  unfold resetVoices. revert s.
  induction unfixed as [|r refs IH]; intros s; simpl; [done|].
  by rewrite IH, fmap_alter_invariant.
Qed.

Lemma erase_withVoices a s : erase <$> withVoices a s = erase <$> s.
Proof.
  apply list_eq. intros j. rewrite !list_lookup_fmap, lookup_withVoices.
  destruct (s !! j); simpl; [|done]. by destruct (a !! j).
Qed.
End references.

(** ** The search of the step optimizer *)

Lemma calculateVoiceLeadingCost_ok prevChord currentChord va :
  (length va ≤ length (notes currentChord))%nat →
  calculateVoiceLeadingCost prevChord currentChord va =
  Ok (costValue (notes prevChord) (withVoices va (notes currentChord)),
      withVoices va (notes currentChord)).
Proof.
  intros Hlen. unfold calculateVoiceLeadingCost.
  by rewrite assignVoices_ok by done.
Qed.

Section search.
Context (prevChord currentChord : Chord).
Local Abbreviation store0 := (notes currentChord).
Local Abbreviation unfixed := (refsWhere isUndefined 0 (notes currentChord)).
Local Abbreviation k := (length (refsWhere isUndefined 0 (notes currentChord))).

Lemma searchFrame_entry : searchFrame store0 store0.
Proof. by split. Qed.

Lemma setVoice_erase v n : setVoice v (erase n) = setVoice v n.
Proof. done. Qed.

Lemma erase_lookup (s s' : list Note) j n n' :
  erase <$> s = erase <$> s' → s !! j = Some n → s' !! j = Some n' →
  erase n = erase n'.
Proof.
  intros Heq Hn Hn'.
  assert ((erase <$> s) !! j = (erase <$> s') !! j) as H by by rewrite Heq.
  rewrite !list_lookup_fmap, Hn, Hn' in H. simpl in H. congruence.
Qed.

Lemma candidate_frame s a :
  searchFrame store0 s → length a = k →
  withVoices a (setVoices unfixed a s) = candidate store0 a.
Proof.
  intros [Her Hsame] Ha. unfold candidate.
  assert (length s = length store0) as Hlen.
  { by rewrite <- (length_fmap erase s), Her, length_fmap. }
  assert (NoDup unfixed) as Hnd by apply NoDup_refsWhere.
  apply list_eq. intros j. rewrite !lookup_withVoices.
  destruct (decide (j ∈ unfixed)) as [Hj|Hj].
  - apply list_elem_of_lookup in Hj as [i Hi].
    rewrite !(lookup_setVoices _ _ _ i j) by done.
    destruct (s !! j) as [n|] eqn:Hn, (store0 !! j) as [n0|] eqn:Hn0; simpl;
      [|apply lookup_lt_Some in Hn; apply lookup_ge_None in Hn0; lia
       |apply lookup_lt_Some in Hn0; apply lookup_ge_None in Hn; lia|done].
    pose proof (erase_lookup _ _ _ _ _ Her Hn Hn0) as He.
    f_equal. rewrite <- (setVoice_erase _ n), <- (setVoice_erase _ n0), He.
    done.
  - rewrite !lookup_setVoices_ne by done.
    destruct (a !! j) as [v|] eqn:Hv.
    + destruct (s !! j) as [n|] eqn:Hn, (store0 !! j) as [n0|] eqn:Hn0; simpl;
        [|apply lookup_lt_Some in Hn; apply lookup_ge_None in Hn0; lia
         |apply lookup_lt_Some in Hn0; apply lookup_ge_None in Hn; lia|done].
      pose proof (erase_lookup _ _ _ _ _ Her Hn Hn0) as He.
      f_equal. by rewrite <- (setVoice_erase _ n), <- (setVoice_erase _ n0), He.
    + apply lookup_ge_None in Hv. rewrite Hsame by (done || lia).
      by destruct (store0 !! j).
Qed.

Lemma searchFrame_reset a :
  length a = k → searchFrame store0 (resetVoices unfixed (candidate store0 a)).
Proof.
  intros Ha. split.
  - unfold candidate. by rewrite erase_resetVoices, erase_withVoices, erase_setVoices.
  - intros j Hj Hnot. unfold candidate.
    rewrite lookup_resetVoices_ne, lookup_withVoices, lookup_setVoices_ne by done.
    rewrite (proj2 (lookup_ge_None a j)) by lia. by destruct (store0 !! j).
Qed.

Lemma searchFrame_storeAfter tried :
  (∀ a, tried = Some a → length a = k) →
  searchFrame store0 (storeAfter store0 tried).
Proof.
  destruct tried as [a|]; simpl; intros Ha;
    [by apply searchFrame_reset, Ha|apply searchFrame_entry].
Qed.

Lemma searchStep_inv done st a :
  Forall (λ a, length a = k) done →
  searchInv prevChord currentChord done st → length a = k →
  ∃ st', searchStep prevChord currentChord unfixed st a = Ok st'
         ∧ searchInv prevChord currentChord (done ++ [a]) st'.
Proof.
  intros Hdone [Hstore Hbest] Ha. unfold searchStep.
  assert (searchFrame store0 (searchStore st)) as Hframe.
  { rewrite Hstore. apply searchFrame_storeAfter. intros a' Hlast.
    rewrite Forall_forall in Hdone. apply Hdone.
    rewrite last_Some in Hlast. destruct Hlast as [l' ->].
    apply elem_of_app. right. left. }
  assert (length (searchStore st) = length store0) as Hlen.
  { destruct Hframe as [Her _].
    by rewrite <- (length_fmap erase (searchStore st)), Her, length_fmap. }
  rewrite calculateVoiceLeadingCost_ok; simpl;
    [|rewrite length_setVoices, Hlen, Ha; apply length_refsWhere_le].
  rewrite (candidate_frame _ _ Hframe Ha).
  fold (score prevChord currentChord a).
  eexists. split; [done|]. split.
  { rewrite last_snoc. by destruct (costBelow _ _). }
  destruct (bestAssignment st) as [b|] eqn:Hb.
  - destruct Hbest as [Hlow (i & Hi & Hmin)]. rewrite Hlow. simpl.
    destruct (score prevChord currentChord a <? score prevChord currentChord b)
      eqn:Hlt; simpl.
    + apply Z.ltb_lt in Hlt. split; [done|]. exists (length done).
      split; [by rewrite lookup_app_r, Nat.sub_diag by lia|].
      intros j a' Hj. destruct (decide (j < length done)%nat) as [Hjd|Hjd].
      * rewrite lookup_app_l in Hj by done.
        destruct (Hmin j a' Hj) as [? _]. lia.
      * rewrite lookup_app_r in Hj by lia.
        destruct (j - length done)%nat eqn:Hz; simpl in Hj; [|done].
        simplify_eq. lia.
    + apply Z.ltb_ge in Hlt. split; [done|]. exists i.
      split; [by apply lookup_app_l_Some|].
      intros j a' Hj. destruct (decide (j < length done)%nat) as [Hjd|Hjd].
      * rewrite lookup_app_l in Hj by done. by apply Hmin.
      * rewrite lookup_app_r in Hj by lia.
        destruct (j - length done)%nat eqn:Hz; simpl in Hj; [|done].
        simplify_eq. apply lookup_lt_Some in Hi. lia.
  - destruct Hbest as [-> ->]. simpl. split; [done|]. exists 0%nat.
    split; [done|]. intros [|j] a' Hj; simpl in Hj; [|done].
    simplify_eq. lia.
Qed.

Lemma searchLoop_inv rest done st :
  Forall (λ a, length a = k) done →
  searchInv prevChord currentChord done st → Forall (λ a, length a = k) rest →
  ∃ st', searchLoop prevChord currentChord unfixed rest st = Ok st'
         ∧ searchInv prevChord currentChord (done ++ rest) st'.
Proof.
  revert done st. induction rest as [|a rest IH]; intros done st Hdone Hinv Hlen.
  - exists st. by rewrite app_nil_r.
  - apply Forall_cons in Hlen as [Ha Hlen].
    destruct (searchStep_inv done st a Hdone Hinv Ha) as (st1 & Hstep & Hinv1).
    destruct (IH (done ++ [a]) st1) as (st2 & Hloop & Hinv2); [|done..|].
    { apply Forall_app. split; [done|]. by constructor. }
    exists st2. simpl. rewrite Hstep. simpl.
    by rewrite <- app_assoc in Hinv2.
Qed.
End search.

Lemma elem_of_availableVoices store numVoices v :
  v ∈ availableVoices store numVoices ↔
  0 ≤ v < Z.of_nat numVoices ∧ ∀ n, n ∈ store → voice n ≠ Some v.
Proof.
  unfold availableVoices. rewrite list_elem_of_filter, elem_of_seqZ.
  rewrite list_elem_of_fmap. split.
  - intros [Hused ?]. split; [lia|]. intros n Hn Hv. apply Hused.
    exists n. split; [done|]. apply list_elem_of_filter. split; [|done].
    by rewrite Hv.
  - intros [? Hfree]. split; [|lia].
    intros (n & Hv & [_ Hn]%list_elem_of_filter). by apply (Hfree n).
Qed.

Lemma NoDup_availableVoices store numVoices :
  NoDup (availableVoices store numVoices).
Proof. apply NoDup_filter, NoDup_seqZ. Qed.

Lemma length_unfixed store :
  length (filter (λ note, voice note = None) store) =
  length (refsWhere isUndefined 0 store).
Proof.
  rewrite length_refsWhere. f_equal. apply list_filter_iff.
  intros n. unfold isUndefined. by destruct (voice n).
Qed.

Lemma elem_of_generateVoiceAssignments chord numVoices a :
  a ∈ generateVoiceAssignments chord numVoices ↔
  length a = length (refsWhere isUndefined 0 (notes chord)) ∧ NoDup a
  ∧ a ⊆ availableVoices (notes chord) numVoices.
Proof.
  unfold generateVoiceAssignments.
  by rewrite elem_of_generatePermutations, length_unfixed.
Qed.

(** The search returns, and what it leaves: the best assignment in the
    unfixed notes of a store that differs from the chord in voices only. *)
Lemma commitBestAssignment_spec prevChord currentChord numVoices :
  let unfixed := refsWhere isUndefined 0 (notes currentChord) in
  unfixed ≠ [] →
  (length unfixed ≤ length (availableVoices (notes currentChord) numVoices))%nat →
  ∃ best tried,
    commitBestAssignment prevChord currentChord numVoices =
      Ok (Some (setVoices unfixed best
                  (storeAfter (notes currentChord) (Some tried))))
    ∧ last (generateVoiceAssignments currentChord numVoices) = Some tried
    ∧ firstMinimum (score prevChord currentChord)
        (generateVoiceAssignments currentChord numVoices) best.
Proof.
  intros unfixed Hne Havail. subst unfixed. unfold commitBestAssignment.
  rewrite decide_False by by destruct (refsWhere _ _ _).
  destruct (searchLoop_inv prevChord currentChord
    (generateVoiceAssignments currentChord numVoices) []
    (mkSearch None None (notes currentChord))) as (st & -> & Hstore & Hbest).
  { constructor. }
  { by split. }
  { apply Forall_forall. intros a Ha.
    by apply elem_of_generateVoiceAssignments in Ha as [? _]. }
  pose proof (generatePermutations_take
    (availableVoices (notes currentChord) numVoices) _
    (NoDup_availableVoices _ _) Havail) as Hin.
  rewrite <- length_unfixed in Hin.
  fold (generateVoiceAssignments currentChord numVoices) in Hin.
  simpl in *. destruct (bestAssignment st) as [best|].
  - destruct Hbest as [_ Hmin].
    destruct (last (generateVoiceAssignments currentChord numVoices))
      as [tried|] eqn:Hlast.
    + exists best, tried. by rewrite Hstore.
    + apply last_None in Hlast. rewrite Hlast in Hin.
      by apply not_elem_of_nil in Hin.
  - destruct Hbest as [Hnil _]. rewrite Hnil in Hin.
    by apply not_elem_of_nil in Hin.
Qed.

Lemma searchFrame_length store0 s :
  searchFrame store0 s → length s = length store0.
Proof. intros [Her _]. by rewrite <- (length_fmap erase s), Her, length_fmap. Qed.

(** What the search minimises.  For a chord with at least one unfixed
    note and enough free voices for them, the candidate assignments are all
    the sequences of distinct voices, one per unfixed note, taken from
    0 .. N-1 without the voices in use.  The number the search compares is
    the [score]: the cost model is called on the chord that carries the
    assignment and writes the assignment once more, over the first notes of
    the chord, before it counts.  The voices committed to the unfixed notes
    are those of the first assignment of least score; the score is the cost
    of the chord that carries the assignment only when the unfixed notes
    are the first notes of the chord. *)
Theorem optimizeChordVoicing_first_minimum (prevChord currentChord : Chord)
    (numVoices : nat) :
  let unfixed := refsWhere isUndefined 0 (notes currentChord) in
  let possible := generateVoiceAssignments currentChord numVoices in
  unfixed ≠ [] →
  (length unfixed ≤ length (availableVoices (notes currentChord) numVoices))%nat →
  (∀ a, a ∈ possible ↔
        length a = length unfixed ∧ NoDup a
        ∧ ∀ v, v ∈ a → 0 ≤ v < Z.of_nat numVoices
                       ∧ ∀ n, n ∈ notes currentChord → voice n ≠ Some v)
  ∧ (∀ a, a ∈ possible →
        fst <$> calculateVoiceLeadingCost prevChord
                  (setNotes (setVoices unfixed a (notes currentChord)) currentChord)
                  a
        = Ok (score prevChord currentChord a))
  ∧ ∃ best store,
      commitBestAssignment prevChord currentChord numVoices = Ok (Some store)
      ∧ optimizeChordVoicing prevChord currentChord numVoices =
          Ok (adjustOctaves (setNotes store currentChord))
      ∧ firstMinimum (score prevChord currentChord) possible best
      ∧ ∀ j r, unfixed !! j = Some r → voice <$> store !! r = Some (best !! j).
Proof.
  intros unfixed possible Hne Havail. subst unfixed possible. split_and!.
  - intros a. rewrite elem_of_generateVoiceAssignments.
    do 2 (apply and_iff_compat_l). split.
    + intros Hsub v Hv. by apply elem_of_availableVoices, Hsub.
    + intros Hall v Hv. by apply elem_of_availableVoices, Hall.
  - intros a Ha. apply elem_of_generateVoiceAssignments in Ha as [Hlen _].
    rewrite calculateVoiceLeadingCost_ok; [done|]. simpl.
    rewrite length_setVoices, Hlen. apply length_refsWhere_le.
  - destruct (commitBestAssignment_spec prevChord currentChord numVoices
      Hne Havail) as (best & tried & Hcommit & Hlast & Hmin).
    eexists best, _. split_and!; [exact Hcommit| |done|].
    + unfold optimizeChordVoicing. by rewrite Hcommit.
    + intros j r Hj.
      rewrite (lookup_setVoices _ _ _ j r) by (apply NoDup_refsWhere || done).
      assert (r < length (storeAfter (notes currentChord) (Some tried)))%nat
        as [n ->]%lookup_lt_is_Some; [|done].
      rewrite (searchFrame_length (notes currentChord)).
      * apply list_elem_of_lookup_2, elem_of_refsWhere in Hj
          as [_ (n & Hn%lookup_lt_Some & _)]. lia.
      * apply searchFrame_storeAfter. intros a [= <-].
        apply last_Some_elem_of, elem_of_generateVoiceAssignments in Hlast.
        by destruct Hlast.
Qed.

Lemma optimizeChordVoicing_first_minimum_witness :
  let prev := mkChord 0 [mkNote 72 0 8 (Some 0); mkNote 67 0 8 (Some 1);
                         mkNote 64 0 8 (Some 2); mkNote 60 0 8 (Some 3)] (Some 8) in
  let cur := mkChord 8 [mkNote 74 8 8 (Some 0); inputNote 69 8 8;
                        inputNote 65 8 8; inputNote 57 8 8] None in
  generateVoiceAssignments cur 4 =
    [[1; 2; 3]; [1; 3; 2]; [2; 1; 3]; [2; 3; 1]; [3; 1; 2]; [3; 2; 1]]
  ∧ ∃ best store,
      commitBestAssignment prev cur 4 = Ok (Some store)
      ∧ firstMinimum (score prev cur) (generateVoiceAssignments cur 4) best.
Proof.
  intros prev cur. split; [reflexivity|].
  destruct (optimizeChordVoicing_first_minimum prev cur 4)
    as (_ & _ & best & store & Hcommit & _ & Hmin & _).
  - discriminate.
  - simpl. lia.
  - exists best, store. split; [exact Hcommit|exact Hmin].
Defined.

(** C2.  The search does not commit the assignment of least cost.  The
    input is the melody (74, 0), (75, 8) over the harmony (62, 0), (64, 0),
    (64, 8), (66, 8).  The second chord has the melody note 75 and the
    unfixed notes 64 and 66, and the free voices 1 and 2.  The cost model
    gives 1010 for the chord that carries the assignment [1; 2] (the voices
    of 64 and 66 cross) and 10 for the chord that carries [2; 1]; called
    with an empty third argument it writes nothing and counts the chord as
    it is.  The search calls the cost model with the assignment as third
    argument, the cost model writes it over the first notes of the chord,
    the melody note first, and returns 26 and 2026: the search commits
    [1; 2], and the melody note keeps voice 2 of the last candidate. *)
Theorem optimizeChordVoicing_not_minimum :
  let melodyNotes := [inputNote 74 0 8; inputNote 75 8 8] in
  let harmonyNotes := [inputNote 62 0 8; inputNote 64 0 8;
                       inputNote 64 8 8; inputNote 66 8 8] in
  let first := mkChord 0 [mkNote 74 0 8 (Some 0); inputNote 62 0 8;
                          inputNote 64 0 8] (Some 8) in
  let prev := mkChord 0 [mkNote 74 0 8 (Some 0); mkNote 62 0 8 (Some 2);
                         mkNote 64 0 8 (Some 1)] (Some 8) in
  let cur := mkChord 8 [mkNote 75 8 8 (Some 0); inputNote 64 8 8;
                        inputNote 66 8 8] None in
  let carrying assignment :=
    setNotes (setVoices (refsWhere isUndefined 0 (notes cur)) assignment
                (notes cur)) cur in
  identifyChords melodyNotes harmonyNotes = [first; cur]
  ∧ determineVoiceCount [first; cur] = 3%nat
  ∧ assignVoicesToFirstChord (Some first) 3 = Ok prev
  ∧ generateVoiceAssignments cur 3 = [[1; 2]; [2; 1]]
  ∧ fst <$> calculateVoiceLeadingCost prev (carrying [1; 2]) [] = Ok 1010
  ∧ fst <$> calculateVoiceLeadingCost prev (carrying [2; 1]) [] = Ok 10
  ∧ fst <$> calculateVoiceLeadingCost prev (carrying [1; 2]) [1; 2] = Ok 26
  ∧ fst <$> calculateVoiceLeadingCost prev (carrying [2; 1]) [2; 1] = Ok 2026
  ∧ commitBestAssignment prev cur 3 =
      Ok (Some [mkNote 75 8 8 (Some 2); mkNote 64 8 8 (Some 1);
                mkNote 66 8 8 (Some 2)])
  ∧ optimizeVoiceLeading melodyNotes harmonyNotes =
      Ok [mkNote 74 0 8 (Some 0); mkNote 62 0 8 (Some 2);
          mkNote 64 0 8 (Some 1); mkNote 76 8 8 (Some 1);
          mkNote 75 8 8 (Some 2); mkNote 66 8 8 (Some 2)].
Proof. split_and!; by vm_compute. Qed.

(** ** The global balance *)

Lemma fold_left_min_spec (l : list Z) (x : Z) :
  fold_left Z.min l x ∈ x :: l ∧ ∀ y, y ∈ x :: l → fold_left Z.min l x ≤ y.
Proof.
  revert x. induction l as [|z l IH]; intros x; simpl.
  - split; [left|]. intros y ->%list_elem_of_singleton. lia.
  - destruct (IH (Z.min x z)) as [Hin Hle]. split.
    + apply elem_of_cons in Hin as [Heq|Hin]; [|by do 2 right].
      rewrite Heq. destruct (Z.min_spec x z) as [[_ ->]|[_ ->]];
        [left|right; left].
    + intros y Hy. assert (fold_left Z.min l (Z.min x z) ≤ Z.min x z) as Hm
        by (apply Hle; left).
      apply elem_of_cons in Hy as [->|Hy]; [lia|].
      apply elem_of_cons in Hy as [->|Hy]; [lia|].
      apply Hle. by right.
Qed.

Lemma fold_left_max_spec (l : list Z) (x : Z) :
  fold_left Z.max l x ∈ x :: l ∧ ∀ y, y ∈ x :: l → y ≤ fold_left Z.max l x.
Proof.
  revert x. induction l as [|z l IH]; intros x; simpl.
  - split; [left|]. intros y ->%list_elem_of_singleton. lia.
  - destruct (IH (Z.max x z)) as [Hin Hle]. split.
    + apply elem_of_cons in Hin as [Heq|Hin]; [|by do 2 right].
      rewrite Heq. destruct (Z.max_spec x z) as [[_ ->]|[_ ->]];
        [right; left|left].
    + intros y Hy. assert (Z.max x z ≤ fold_left Z.max l (Z.max x z)) as Hm
        by (apply Hle; left).
      apply elem_of_cons in Hy as [->|Hy]; [lia|].
      apply elem_of_cons in Hy as [->|Hy]; [lia|].
      apply Hle. by right.
Qed.

Lemma mathMin_Some (l : list Z) (m : Z) :
  mathMin l = Some m ↔ m ∈ l ∧ ∀ y, y ∈ l → m ≤ y.
Proof.
  destruct l as [|x l]; simpl.
  - split; [done|]. intros [H _]. inv H.
  - destruct (fold_left_min_spec l x) as [Hin Hle]. split.
    + intros [= <-]. done.
    + intros [Hm Hmin]. f_equal. apply Z.le_antisymm; auto.
Qed.

Lemma mathMax_Some (l : list Z) (m : Z) :
  mathMax l = Some m ↔ m ∈ l ∧ ∀ y, y ∈ l → y ≤ m.
Proof.
  destruct l as [|x l]; simpl.
  - split; [done|]. intros [H _]. inv H.
  - destruct (fold_left_max_spec l x) as [Hin Hle]. split.
    + intros [= <-]. done.
    + intros [Hm Hmax]. f_equal. apply Z.le_antisymm; auto.
Qed.

Lemma mathMin_lowest (l : list Note) (m : Z) :
  mathMin (pitch <$> l) = Some m ↔ lowestPitch m l.
Proof.
  rewrite mathMin_Some. unfold lowestPitch. rewrite list_elem_of_fmap.
  split; intros [(n & ? & ?) Hle]; (split; [by exists n|]).
  - intros n' Hn'. apply Hle. by apply list_elem_of_fmap_2.
  - intros y (n' & -> & Hn')%list_elem_of_fmap. by apply Hle.
Qed.

Lemma mathMax_highest (l : list Note) (m : Z) :
  mathMax (pitch <$> l) = Some m ↔ highestPitch m l.
Proof.
  rewrite mathMax_Some. unfold highestPitch. rewrite list_elem_of_fmap.
  split; intros [(n & ? & ?) Hle]; (split; [by exists n|]).
  - intros n' Hn'. apply Hle. by apply list_elem_of_fmap_2.
  - intros y (n' & -> & Hn')%list_elem_of_fmap. by apply Hle.
Qed.

Lemma isMelodyVoice_true n : isMelodyVoice n = true ↔ voice n = Some 0.
Proof.
  unfold isMelodyVoice. destruct (voice n) as [[| |]|]; naive_solver.
Qed.

Lemma isHarmonyVoice_true n :
  isHarmonyVoice n = true ↔ voice n ≠ None ∧ voice n ≠ Some 0.
Proof.
  unfold isHarmonyVoice. destruct (voice n) as [[| |]|]; naive_solver.
Qed.

Lemma flatten_fmap_notes (f : Note → Note) (chords : list Chord) :
  flattenChordsToNotes ((λ chord, setNotes (f <$> notes chord) chord) <$> chords)
  = f <$> flattenChordsToNotes chords.
Proof.
  unfold flattenChordsToNotes.
  induction chords as [|c chords IH]; csimpl; [done|].
  by rewrite fmap_app, IH.
Qed.

Lemma filter_ext_elem {X} (P Q : X → Prop) `{!∀ x, Decision (P x)}
    `{!∀ x, Decision (Q x)} (l : list X) :
  (∀ x, x ∈ l → P x ↔ Q x) → filter P l = filter Q l.
Proof.
  induction l as [|x l IH]; intros Hext; [done|].
  rewrite !filter_cons, IH by (intros y Hy; apply Hext; by right).
  assert (P x ↔ Q x) as Hx by (apply Hext; left).
  destruct (decide (P x)) as [HP|HP], (decide (Q x)) as [HQ|HQ]; try done;
    exfalso; tauto.
Qed.

Lemma fmap_notes_ext (f g : Note → Note) (chords : list Chord) :
  (∀ n, n ∈ flattenChordsToNotes chords → f n = g n) →
  (λ chord, setNotes (f <$> notes chord) chord) <$> chords =
  (λ chord, setNotes (g <$> notes chord) chord) <$> chords.
Proof.
  unfold flattenChordsToNotes. induction chords as [|c chords IH]; intros H;
    csimpl in *; [done|].
  rewrite IH by (intros; apply H, elem_of_app; by right). f_equal. f_equal.
  apply list_fmap_ext. intros i n Hn. apply H, elem_of_app. left.
  by eapply list_elem_of_lookup_2.
Qed.

Lemma elem_of_melody_raised shift chords n :
  n ∈ melodyOf (raiseHarmony shift chords) ↔ n ∈ melodyOf chords.
Proof.
  unfold melodyOf, raiseHarmony. rewrite flatten_fmap_notes.
  rewrite !list_elem_of_filter, list_elem_of_fmap. split.
  - intros [Hv (m & -> & Hm)]. case_decide; simpl in *; by eauto.
  - intros [Hv Hn]. split; [done|]. exists n. by rewrite decide_True.
Qed.

Lemma elem_of_harmony_raised shift chords n :
  n ∈ harmonyOf (raiseHarmony shift chords) ↔
  ∃ m, m ∈ harmonyOf chords ∧ n = setPitch (pitch m + shift) m.
Proof.
  unfold harmonyOf, raiseHarmony. rewrite flatten_fmap_notes.
  rewrite list_elem_of_filter, list_elem_of_fmap. split.
  - intros [Hv (m & -> & Hm)]. case_decide; [done|]. exists m.
    by rewrite list_elem_of_filter.
  - intros (m & [Hv Hm]%list_elem_of_filter & ->). split; [done|].
    exists m. by rewrite decide_False.
Qed.

(** The code's balancer in one formula. *)
Lemma adjustHarmony_cases chords minMelody maxHarmony :
  Forall (λ n, voice n ≠ None) (flattenChordsToNotes chords) →
  lowestPitch minMelody (melodyOf chords) →
  highestPitch maxHarmony (harmonyOf chords) →
  adjustHarmonyOctaveRelativeToMelody chords =
  if decide (12 < minMelody - maxHarmony)
  then raiseHarmony (12 * ((minMelody - maxHarmony - 1) / 12)) chords
  else chords.
Proof.
  intros Hvoiced Hlow Hhigh. unfold adjustHarmonyOctaveRelativeToMelody.
  rewrite Forall_forall in Hvoiced.
  rewrite (filter_ext_elem _ (λ n, voice n = Some 0))
    by (intros; apply isMelodyVoice_true).
  rewrite (filter_ext_elem (λ n, isHarmonyVoice n = true) (λ n, voice n ≠ Some 0)).
  2:{ intros n Hn. rewrite isHarmonyVoice_true. specialize (Hvoiced n Hn).
      naive_solver. }
  apply mathMin_lowest in Hlow. apply mathMax_highest in Hhigh.
  unfold melodyOf, harmonyOf in *. rewrite Hlow, Hhigh.
  destruct (12 <? minMelody - maxHarmony) eqn:Hgap.
  - apply Z.ltb_lt in Hgap. rewrite decide_True by done.
    assert (1 ≤ (minMelody - maxHarmony - 1) / 12)
      by (apply Z.div_le_lower_bound; lia).
    replace (0 <? (minMelody - maxHarmony - 1) / 12 * 12) with true
      by (symmetry; apply Z.ltb_lt; lia).
    unfold raiseHarmony. apply fmap_notes_ext. intros n Hn.
    specialize (Hvoiced n Hn). unfold shiftHarmony, isHarmonyVoice.
    rewrite Z.mul_comm.
    destruct (voice n) as [[| |]|] eqn:Hv; try done;
      by rewrite decide_False by (intros [=]).
  - apply Z.ltb_ge in Hgap. by rewrite decide_False by lia.
Qed.

(** C8.  In a piece whose notes all carry a voice, with minMelody the
    lowest pitch of the notes of voice 0 and maxHarmony the highest pitch
    of the other notes: when minMelody - maxHarmony > 12 every note that is
    not of voice 0 is raised by 12 * floor((minMelody - maxHarmony - 1) /
    12) and nothing else changes; when the gap is at most 12, or there is
    no melody or no harmony, nothing changes; and afterwards the lowest
    melody pitch is at most 12 above the highest harmony pitch. *)
Theorem adjustHarmonyOctaveRelativeToMelody_gap (chords : list Chord) :
  Forall (λ n, voice n ≠ None) (flattenChordsToNotes chords) →
  (∀ minMelody maxHarmony,
     lowestPitch minMelody (melodyOf chords) →
     highestPitch maxHarmony (harmonyOf chords) →
     (12 < minMelody - maxHarmony →
      adjustHarmonyOctaveRelativeToMelody chords =
      raiseHarmony (12 * ((minMelody - maxHarmony - 1) / 12)) chords)
     ∧ (minMelody - maxHarmony ≤ 12 →
        adjustHarmonyOctaveRelativeToMelody chords = chords)
     ∧ ∀ minMelody' maxHarmony',
         lowestPitch minMelody'
           (melodyOf (adjustHarmonyOctaveRelativeToMelody chords)) →
         highestPitch maxHarmony'
           (harmonyOf (adjustHarmonyOctaveRelativeToMelody chords)) →
         minMelody' - maxHarmony' ≤ 12)
  ∧ (melodyOf chords = [] ∨ harmonyOf chords = [] →
     adjustHarmonyOctaveRelativeToMelody chords = chords).
Proof.
  intros Hvoiced. split.
  - intros minMelody maxHarmony Hlow Hhigh.
    rewrite (adjustHarmony_cases chords minMelody maxHarmony) by done.
    split_and!.
    + intros. by rewrite decide_True.
    + intros. by rewrite decide_False by lia.
    + intros m' h' [_ Hm'] [_ Hh'].
      destruct Hlow as [(nm & Hnm & Hpm) _], Hhigh as [(nh & Hnh & Hph) _].
      case_decide as Hgap.
      * assert (m' ≤ minMelody).
        { rewrite <- Hpm. by apply Hm', elem_of_melody_raised. }
        assert (maxHarmony + 12 * ((minMelody - maxHarmony - 1) / 12) ≤ h').
        { pose proof (Hh' (setPitch
            (pitch nh + 12 * ((minMelody - maxHarmony - 1) / 12)) nh)) as Hle.
          simpl in Hle. rewrite Hph in Hle. apply Hle.
          apply elem_of_harmony_raised. exists nh. by rewrite Hph. }
        pose proof (Z.div_mod (minMelody - maxHarmony - 1) 12 ltac:(lia)).
        pose proof (Z.mod_pos_bound (minMelody - maxHarmony - 1) 12 ltac:(lia)).
        lia.
      * assert (m' ≤ minMelody) by (rewrite <- Hpm; by apply Hm').
        assert (maxHarmony ≤ h') by (rewrite <- Hph; by apply Hh').
        lia.
  - unfold adjustHarmonyOctaveRelativeToMelody. rewrite Forall_forall in Hvoiced.
    rewrite (filter_ext_elem _ (λ n, voice n = Some 0))
      by (intros; apply isMelodyVoice_true).
    rewrite (filter_ext_elem (λ n, isHarmonyVoice n = true) (λ n, voice n ≠ Some 0)).
    2:{ intros n Hn. rewrite isHarmonyVoice_true. specialize (Hvoiced n Hn).
        naive_solver. }
    unfold melodyOf, harmonyOf. intros [-> | ->]; [done|].
    by destruct (mathMin _).
Qed.

Lemma adjustHarmonyOctaveRelativeToMelody_gap_witness :
  let chords :=
    [mkChord 0 [mkNote 72 0 8 (Some 0); mkNote 38 0 8 (Some 1);
                mkNote 31 0 8 (Some 2)] None] in
  (lowestPitch 72 (melodyOf chords) ∧ highestPitch 38 (harmonyOf chords))
  ∧ adjustHarmonyOctaveRelativeToMelody chords = raiseHarmony 24 chords
  ∧ flattenChordsToNotes (adjustHarmonyOctaveRelativeToMelody chords) =
      [mkNote 72 0 8 (Some 0); mkNote 62 0 8 (Some 1); mkNote 55 0 8 (Some 2)].
Proof.
  intros chords.
  assert (lowestPitch 72 (melodyOf chords) ∧ highestPitch 38 (harmonyOf chords))
    as [Hlow Hhigh].
  { assert (melodyOf chords = [mkNote 72 0 8 (Some 0)]) as Hm by by vm_compute.
    assert (harmonyOf chords =
            [mkNote 38 0 8 (Some 1); mkNote 31 0 8 (Some 2)]) as Hh
      by by vm_compute.
    rewrite Hm, Hh. split.
    - split; [exists (mkNote 72 0 8 (Some 0)); split; [left|done]|].
      intros n ->%list_elem_of_singleton. simpl. lia.
    - split; [exists (mkNote 38 0 8 (Some 1)); split; [left|done]|].
      intros n [->| ->%list_elem_of_singleton]%elem_of_cons; simpl; lia. }
  split; [done|]. split; [|reflexivity].
  destruct (adjustHarmonyOctaveRelativeToMelody_gap chords) as [H _].
  - repeat constructor; done.
  - destruct (H 72 38 Hlow Hhigh) as (Hraise & _). apply Hraise. lia.
Defined.

(** ** The chords of the input *)

Lemma elem_of_addPositions l acc p :
  p ∈ fold_left addPosition l acc ↔ p ∈ acc ∨ p ∈ l.
Proof.
  revert acc. induction l as [|x l IH]; intros acc; simpl.
  - rewrite elem_of_nil. naive_solver.
  - rewrite IH, elem_of_cons. unfold addPosition. case_decide.
    + naive_solver.
    + rewrite elem_of_app, list_elem_of_singleton. naive_solver.
Qed.

Lemma NoDup_addPositions l acc :
  NoDup acc → NoDup (fold_left addPosition l acc).
Proof.
  revert acc. induction l as [|x l IH]; intros acc Hacc; simpl; [done|].
  apply IH. unfold addPosition. case_decide; [done|].
  apply NoDup_app. split_and!; [done| |apply NoDup_singleton].
  intros y Hy ->%list_elem_of_singleton. done.
Qed.

(** The positions of the chords: those of the notes, each once. *)
Lemma sortedPositions_spec (allNotes : list Note) :
  let sortedPositions :=
    stableSort (λ a b, a - b) (fold_left addPosition (position <$> allNotes) []) in
  NoDup sortedPositions ∧ ∀ p, p ∈ sortedPositions ↔ p ∈ position <$> allNotes.
Proof.
  simpl. split.
  - rewrite stableSort_perm. apply NoDup_addPositions. constructor.
  - intros p. rewrite elem_of_stableSort, elem_of_addPositions, elem_of_nil.
    naive_solver.
Qed.

Lemma flatten_groupChords melodyNotes allNotes sortedPositions :
  flattenChordsToNotes (groupChords melodyNotes allNotes sortedPositions) =
  markMelody melodyNotes
    <$> mjoin ((λ pos, filter (λ note, position note = pos) allNotes)
                 <$> sortedPositions).
Proof.
  unfold flattenChordsToNotes.
  induction sortedPositions as [|pos rest IH]; [done|].
  cbn [groupChords]. csimpl. by rewrite fmap_app, IH.
Qed.

Lemma join_filter_positions (allNotes : list Note) (ps : list Z) :
  NoDup ps → (∀ n, n ∈ allNotes → position n ∈ ps) →
  mjoin ((λ pos, filter (λ note, position note = pos) allNotes) <$> ps)
  ≡ₚ allNotes.
Proof.
  revert allNotes. induction ps as [|p ps IH]; intros allNotes Hnd Hall.
  - destruct allNotes as [|n ?]; [done|].
    assert (position n ∈ @nil Z) as H0 by (apply Hall; left).
    by apply not_elem_of_nil in H0.
  - apply NoDup_cons in Hnd as [Hp Hnd]. csimpl.
    etrans; [|apply (filter_app_complement (λ note, position note = p) allNotes)].
    apply Permutation_app_head.
    etrans; [|apply (IH (filter (λ note, ¬ position note = p) allNotes) Hnd)].
    + apply reflexive_eq. f_equal. apply list_fmap_ext. intros i p' Hp'.
      rewrite list_filter_filter. apply list_filter_iff. intros n.
      split; [|naive_solver]. intros Hn. split; [done|]. intros Heq.
      apply Hp. rewrite <- Heq, Hn. by eapply list_elem_of_lookup_2.
    + intros n [Hn Hin]%list_elem_of_filter.
      apply Hall, elem_of_cons in Hin as [?|?]; done.
Qed.

Lemma flatten_identifyChords melodyNotes harmonyNotes :
  flattenChordsToNotes (identifyChords melodyNotes harmonyNotes)
  ≡ₚ markMelody melodyNotes <$> (melodyNotes ++ harmonyNotes).
Proof.
  unfold identifyChords. rewrite flatten_groupChords.
  destruct (sortedPositions_spec (melodyNotes ++ harmonyNotes)) as [Hnd Hin].
  rewrite join_filter_positions; [done..|].
  intros n Hn. apply Hin. by apply list_elem_of_fmap_2.
Qed.

Lemma identifyChords_nil melodyNotes harmonyNotes :
  identifyChords melodyNotes harmonyNotes = [] → melodyNotes ++ harmonyNotes = [].
Proof.
  intros Hnil. unfold identifyChords in Hnil.
  destruct (sortedPositions_spec (melodyNotes ++ harmonyNotes)) as [_ Hin].
  destruct (melodyNotes ++ harmonyNotes) as [|n l]; [done|].
  destruct (stableSort _ _) as [|p ps]; [|done].
  assert (position n ∈ @nil Z) as H0 by (apply Hin; left).
  by apply not_elem_of_nil in H0.
Qed.

Lemma frame_markMelody melodyNotes n : frame (markMelody melodyNotes n) = frame n.
Proof. unfold markMelody. by case_match. Qed.

(** ** The passes return, and keep the frame of every note *)

Lemma frame_erase (l l' : list Note) :
  erase <$> l = erase <$> l' → frame <$> l = frame <$> l'.
Proof.
  intros H. apply (f_equal (fmap frame)) in H.
  by rewrite <- !list_fmap_compose in H.
Qed.

Lemma erase_assignRemaining numVoices remaining currentVoice store :
  erase <$> assignRemaining numVoices remaining currentVoice store
  = erase <$> store.
Proof.
  revert currentVoice store.
  induction remaining as [|r rest IH]; intros currentVoice store; [done|].
  destruct rest as [|r' rest].
  - simpl. by rewrite fmap_alter_invariant.
  - change (assignRemaining numVoices (r :: r' :: rest) currentVoice store)
      with (assignRemaining numVoices (r' :: rest) (currentVoice + 1)
              (alter (setVoice (Some currentVoice)) r store)).
    by rewrite IH, fmap_alter_invariant.
Qed.

Lemma orderVoices_fmap {X} (f : Note → X) (l : list Note) :
  (∀ p n, f (setPitch p n) = f n) → f <$> orderVoices l = f <$> l.
Proof.
  intros Hf. induction l as [|n l IH]; [done|]. simpl.
  destruct (orderVoices l) as [|lower rest] eqn:Hl; csimpl in *.
  - destruct l; [done|]. by destruct (f <$> _).
  - by rewrite Hf, IH.
Qed.

Lemma adjustOctavesNotes_fmap {X} (f : Note → X) (store : list Note) :
  (∀ p n, f (setPitch p n) = f n) →
  f <$> adjustOctavesNotes store = f <$> stableSort byVoice store.
Proof.
  intros Hf. unfold adjustOctavesNotes.
  destruct (mathMax _) as [bassVoice|]; [|done].
  destruct (list_find _ _) as [[b bassNote]|]; [|done].
  rewrite orderVoices_fmap by done.
  case_decide; [|done]. by rewrite fmap_alter_invariant.
Qed.

Lemma frame_adjustOctavesNotes (store : list Note) :
  frame <$> adjustOctavesNotes store ≡ₚ frame <$> store.
Proof.
  rewrite adjustOctavesNotes_fmap by done. by rewrite stableSort_perm.
Qed.

(** The search of a chord with unfixed notes returns. *)
Lemma searchLoop_total prevChord currentChord numVoices :
  ∃ st,
    searchLoop prevChord currentChord (refsWhere isUndefined 0 (notes currentChord))
      (generateVoiceAssignments currentChord numVoices)
      (mkSearch None None (notes currentChord)) = Ok st
    ∧ searchInv prevChord currentChord
        (generateVoiceAssignments currentChord numVoices) st.
Proof.
  apply (searchLoop_inv prevChord currentChord _ []).
  - constructor.
  - by split.
  - apply Forall_forall. intros a Ha.
    by apply elem_of_generateVoiceAssignments in Ha as [? _].
Qed.

Lemma commitBestAssignment_total prevChord currentChord numVoices :
  ∃ committed,
    commitBestAssignment prevChord currentChord numVoices = Ok committed
    ∧ ∀ store, committed = Some store →
               erase <$> store = erase <$> notes currentChord.
Proof.
  unfold commitBestAssignment. case_decide; [by eexists|].
  destruct (searchLoop_total prevChord currentChord numVoices)
    as (st & -> & Hstore & _).
  eexists. split; [done|]. intros store [= <-].
  assert (erase <$> searchStore st = erase <$> notes currentChord) as Her.
  { rewrite Hstore. destruct (last _); simpl; [|done]. unfold candidate.
    by rewrite erase_resetVoices, erase_withVoices, erase_setVoices. }
  destruct (bestAssignment st); [|done]. by rewrite erase_setVoices.
Qed.

Lemma optimizeChordVoicing_total prevChord currentChord numVoices :
  ∃ chord, optimizeChordVoicing prevChord currentChord numVoices = Ok chord
           ∧ frame <$> notes chord ≡ₚ frame <$> notes currentChord.
Proof.
  unfold optimizeChordVoicing.
  destruct (commitBestAssignment_total prevChord currentChord numVoices)
    as ([store|] & -> & Her); simpl; eexists; (split; [done|]); [|done].
  simpl. rewrite frame_adjustOctavesNotes. by rewrite (frame_erase _ _ (Her _ eq_refl)).
Qed.

(** Every later chord is the result of [optimizeChordVoicing] for some
    previous chord. *)
Lemma optimizeFrom_total numVoices prevChord rest :
  ∃ rest',
    optimizeFrom numVoices prevChord rest = Ok rest'
    ∧ Forall2 (λ c c', ∃ prev, optimizeChordVoicing prev c numVoices = Ok c')
        rest rest'.
Proof.
  revert prevChord. induction rest as [|c rest IH]; intros prevChord; simpl.
  - by exists [].
  - destruct (optimizeChordVoicing_total prevChord c numVoices) as (c' & Hc & _).
    destruct (IH c') as (rest' & Hrest & Hall).
    exists (c' :: rest'). rewrite Hc. simpl. rewrite Hrest. simpl.
    split; [done|]. constructor; [by exists prevChord|done].
Qed.

Lemma shiftHarmony_0 n : shiftHarmony 0 n = n.
Proof.
  unfold shiftHarmony, setPitch. destruct n as [p ? ? ?]; simpl.
  case_match; [|done]. by rewrite Z.add_0_r.
Qed.

(** The balancer raises the harmony by some amount, possibly 0. *)
Lemma adjustHarmony_shape (chords : list Chord) :
  ∃ shift, 0 ≤ shift ∧
    adjustHarmonyOctaveRelativeToMelody chords =
    (λ chord, setNotes (shiftHarmony shift <$> notes chord) chord) <$> chords.
Proof.
  assert (chords =
    (λ chord, setNotes (shiftHarmony 0 <$> notes chord) chord) <$> chords) as H0.
  { rewrite <- (list_fmap_id chords) at 1. apply list_fmap_ext.
    intros i [pos l dur] _. unfold setNotes. simpl. f_equal.
    rewrite <- (list_fmap_id l) at 1. apply list_fmap_ext.
    intros. by rewrite shiftHarmony_0. }
  unfold adjustHarmonyOctaveRelativeToMelody.
  destruct (mathMin _) as [minMelodyPitch|]; [|by exists 0].
  destruct (mathMax _) as [maxHarmonyPitch|]; [|by exists 0].
  destruct (12 <? _); [|by exists 0].
  destruct (0 <? _) eqn:Hpos; [|by exists 0].
  apply Z.ltb_lt in Hpos. eexists. split; [|done]. lia.
Qed.

Lemma adjustHarmony_fmap {X} (f : Note → X) (chords : list Chord) :
  (∀ p n, f (setPitch p n) = f n) →
  f <$> flattenChordsToNotes (adjustHarmonyOctaveRelativeToMelody chords)
  = f <$> flattenChordsToNotes chords.
Proof.
  intros Hf. destruct (adjustHarmony_shape chords) as (shift & _ & ->).
  rewrite flatten_fmap_notes, <- list_fmap_compose.
  apply list_fmap_ext. intros i n _. simpl. unfold shiftHarmony.
  by case_match.
Qed.

(** ** The whole pipeline *)

(** On an input with a note the optimizer returns; the chords it flattens
    are the first chord with its voices and the later chords as
    [optimizeChordVoicing] leaves them, after the global balance. *)
Lemma optimizedChords_shape melodyNotes harmonyNotes :
  melodyNotes ++ harmonyNotes ≠ [] →
  let numVoices := determineVoiceCount (identifyChords melodyNotes harmonyNotes) in
  ∃ c0 rest first rest',
    identifyChords melodyNotes harmonyNotes = c0 :: rest
    ∧ first =
        setNotes (assignRemaining numVoices (remainingRefs (notes c0))
                    (match list_find (λ note, voice note = Some 0) (notes c0) with
                     | Some _ => 1
                     | None => 0
                     end) (notes c0)) c0
    ∧ Forall2 (λ c c', ∃ prev, optimizeChordVoicing prev c numVoices = Ok c')
        rest rest'
    ∧ optimizedChords melodyNotes harmonyNotes =
        Ok (adjustHarmonyOctaveRelativeToMelody (first :: rest')).
Proof.
  intros Hne numVoices. unfold optimizedChords. fold numVoices.
  destruct (identifyChords melodyNotes harmonyNotes) as [|c0 rest] eqn:Hchords.
  { by apply identifyChords_nil in Hchords. }
  simpl.
  destruct (optimizeFrom_total numVoices
    (setNotes (assignRemaining numVoices (remainingRefs (notes c0))
                 (match list_find (λ note, voice note = Some 0) (notes c0) with
                  | Some _ => 1
                  | None => 0
                  end) (notes c0)) c0) rest) as (rest' & Hrest & Hall).
  eexists c0, rest, _, rest'. split_and!; [done..|].
  by rewrite Hrest.
Qed.

Lemma frame_later_chords numVoices (rest rest' : list Chord) :
  Forall2 (λ c c', ∃ prev, optimizeChordVoicing prev c numVoices = Ok c')
    rest rest' →
  frame <$> flattenChordsToNotes rest' ≡ₚ frame <$> flattenChordsToNotes rest.
Proof.
  unfold flattenChordsToNotes. induction 1 as [|c c' rest rest' [prev Hc] _ IH];
    csimpl; [done|].
  rewrite !fmap_app, IH. f_equiv.
  destruct (optimizeChordVoicing_total prev c numVoices) as (c'' & Hc' & Hframe).
  rewrite Hc in Hc'. by injection Hc' as ->.
Qed.

(** C10.  On an input with at least one note the optimizer returns one
    output note per input note, and the output notes have the positions and
    durations of the input notes, note for note: the pairs (position,
    duration) of the output are those of the input, rearranged. *)
Theorem optimizeVoiceLeading_frame (melodyNotes harmonyNotes : list Note) :
  melodyNotes ++ harmonyNotes ≠ [] →
  ∃ output,
    optimizeVoiceLeading melodyNotes harmonyNotes = Ok output
    ∧ length output = (length melodyNotes + length harmonyNotes)%nat
    ∧ frame <$> output ≡ₚ frame <$> (melodyNotes ++ harmonyNotes).
Proof.
  intros Hne.
  destruct (optimizedChords_shape melodyNotes harmonyNotes Hne)
    as (c0 & rest & first & rest' & Hchords & Hfirst & Hall & Hopt).
  unfold optimizeVoiceLeading. rewrite Hopt. simpl. eexists. split; [done|].
  assert (frame <$> flattenChordsToNotes
            (adjustHarmonyOctaveRelativeToMelody (first :: rest'))
          ≡ₚ frame <$> (melodyNotes ++ harmonyNotes)) as Hframe.
  { rewrite adjustHarmony_fmap by done.
    change (flattenChordsToNotes (first :: rest'))
      with (notes first ++ flattenChordsToNotes rest').
    rewrite fmap_app, (frame_later_chords _ _ _ Hall), Hfirst. simpl.
    rewrite (frame_erase _ _ (erase_assignRemaining _ _ _ _)), <- fmap_app.
    change (notes c0 ++ flattenChordsToNotes rest)
      with (flattenChordsToNotes (c0 :: rest)).
    rewrite <- Hchords, flatten_identifyChords, <- list_fmap_compose.
    apply reflexive_eq, list_fmap_ext. intros i n _.
    apply frame_markMelody. }
  split; [|done].
  apply Permutation_length in Hframe. rewrite !length_fmap in Hframe.
  by rewrite Hframe, length_app.
Qed.

Lemma optimizeVoiceLeading_frame_witness :
  ∃ output,
    optimizeVoiceLeading [inputNote 72 0 8; inputNote 74 8 4]
      [inputNote 60 0 8; inputNote 62 8 4] = Ok output
    ∧ length output = 4%nat
    ∧ frame <$> output ≡ₚ [(0, 8); (8, 4); (0, 8); (8, 4)].
Proof.
  apply (optimizeVoiceLeading_frame [inputNote 72 0 8; inputNote 74 8 4]
           [inputNote 60 0 8; inputNote 62 8 4]).
  simpl. discriminate.
Defined.

(** C4.  With no melody note and no harmony note there is no first
    chord, and [assignVoicesToFirstChord] reads chord.notes of undefined:
    the optimizer throws a TypeError. *)
Theorem optimizeVoiceLeading_empty_throws :
  optimizeVoiceLeading [] [] = Throw TypeError.
Proof. reflexivity. Qed.

(** C1.  The melody note of the second chord, pitch 74 at position 8,
    leaves the optimizer with voice 3 and pitch 62: no output note at
    position 8 has voice 0, none has pitch 74. *)
Theorem optimizeVoiceLeading_melody_changed :
  optimizeVoiceLeading
    [inputNote 72 0 8; inputNote 74 8 8]
    [inputNote 67 0 8; inputNote 64 0 8; inputNote 60 0 8;
     inputNote 69 8 8; inputNote 65 8 8; inputNote 57 8 8]
  = Ok [mkNote 72 0 8 (Some 0); mkNote 67 0 8 (Some 1);
        mkNote 64 0 8 (Some 2); mkNote 60 0 8 (Some 3);
        mkNote 69 8 8 (Some 1); mkNote 65 8 8 (Some 2);
        mkNote 62 8 8 (Some 3); mkNote 57 8 8 (Some 3)].
Proof. by vm_compute. Qed.

(** C5.  The first chord is not normalised, and its bottom voice does not
    go to the lowest note when the melody lies below the harmony.  For the
    melody note 60 under the harmony notes 67 and 72, all at position 0,
    the output chord has voice 0 at 60, voice 1 at 72 and voice 2 at 67:
    the note with the highest voice index, 67, is not the lowest of the
    chord. *)
Theorem optimizeVoiceLeading_first_chord_bass :
  optimizeVoiceLeading [inputNote 60 0 8] [inputNote 67 0 8; inputNote 72 0 8]
  = Ok [mkNote 60 0 8 (Some 0); mkNote 67 0 8 (Some 2);
        mkNote 72 0 8 (Some 1)].
Proof. by vm_compute. Qed.

(** C6.  The ordering loop can put a voice on the pitch of the voice
    below it.  The second chord of the input has the harmony notes 84 and
    60, which the search gives the voices 0 and 1; the note 84 is two
    octaves above the note below, the loop takes two octaves off, and both
    voices of the output chord sound 60: the pitch does not strictly
    decrease from voice 0 to voice 1. *)
Theorem optimizeVoiceLeading_same_pitch :
  orderAbove 84 60 = 60
  ∧ optimizeVoiceLeading [inputNote 72 0 8]
      [inputNote 60 0 8; inputNote 84 8 8; inputNote 60 8 8]
    = Ok [mkNote 72 0 8 (Some 0); mkNote 60 0 8 (Some 1);
          mkNote 60 8 8 (Some 0); mkNote 60 8 8 (Some 1)].
Proof. split; by vm_compute. Qed.

(** C7.  Two notes of a chord leave the optimizer with the same voice.
    The second chord of the input has the melody note 74 and the unfixed
    note 62, for which voice 1 is free; the cost model writes the
    assignment over the first note of the chord, the melody note, and the
    search commits it to the unfixed note: both notes have voice 1 in the
    chords that are flattened into the output. *)
Theorem optimizedChords_voice_shared :
  optimizedChords [inputNote 72 0 8; inputNote 74 8 8]
    [inputNote 60 0 8; inputNote 62 8 8]
  = Ok [mkChord 0 [mkNote 72 0 8 (Some 0); mkNote 60 0 8 (Some 1)] (Some 8);
        mkChord 8 [mkNote 74 8 8 (Some 1); mkNote 62 8 8 (Some 1)] None]
  ∧ ¬ NoDup (voice <$> [mkNote 74 8 8 (Some 1); mkNote 62 8 8 (Some 1)]).
Proof.
  split; [by vm_compute|]. csimpl. intros Hnd.
  apply NoDup_cons in Hnd as [Hin _]. apply Hin. left.
Qed.

(** ** The octave normalizer *)

Lemma lowerBass_closed (fuel : nat) (p lowestPitch : Z) :
  p - lowestPitch ≤ Z.of_nat fuel →
  lowerBass fuel p lowestPitch =
  if decide (lowestPitch < p) then p - 12 * ((p - lowestPitch + 11) / 12)
  else p.
Proof.
  revert p. induction fuel as [|fuel IH]; intros p Hfuel; simpl.
  - by rewrite decide_False by lia.
  - destruct (lowestPitch <? p) eqn:Hlt.
    + apply Z.ltb_lt in Hlt. rewrite decide_True by done.
      rewrite IH by lia. case_decide.
      * replace (p - lowestPitch + 11) with (p - 12 - lowestPitch + 11 + 1 * 12)
          by lia.
        rewrite Z.div_add by lia. lia.
      * replace ((p - lowestPitch + 11) / 12) with 1; [lia|].
        apply Z.div_unique with (r := p - lowestPitch - 1); lia.
    + apply Z.ltb_ge in Hlt. by rewrite decide_False by lia.
Qed.

Lemma lowerBass_mod (p lowestPitch : Z) :
  (lowerBass (Z.to_nat (p - lowestPitch)) p lowestPitch) mod 12 = p mod 12.
Proof.
  rewrite lowerBass_closed by lia. case_decide; [|done].
  replace (p - 12 * ((p - lowestPitch + 11) / 12))
    with (p + (- ((p - lowestPitch + 11) / 12)) * 12) by lia.
  apply Z_mod_plus_full.
Qed.

(** X1.  The loop that lowers the bass ends by its own test within the
    rounds it is given, and more rounds change nothing: a bass above the
    lowest pitch comes to rest at most an octave below it, a bass that is
    not above it stays; the bass moves by whole octaves. *)
Theorem lowerBass_rest (fuel : nat) (bassPitch lowestPitch : Z) :
  bassPitch - lowestPitch ≤ Z.of_nat fuel →
  lowerBass fuel bassPitch lowestPitch =
    lowerBass (Z.to_nat (bassPitch - lowestPitch)) bassPitch lowestPitch
  ∧ (bassPitch ≤ lowestPitch → lowerBass fuel bassPitch lowestPitch = bassPitch)
  ∧ (lowestPitch < bassPitch →
     lowestPitch - 12 < lowerBass fuel bassPitch lowestPitch ≤ lowestPitch)
  ∧ (lowerBass fuel bassPitch lowestPitch) mod 12 = bassPitch mod 12.
Proof.
  intros Hfuel. rewrite (lowerBass_closed fuel) by done.
  rewrite <- (lowerBass_mod bassPitch lowestPitch).
  rewrite (lowerBass_closed (Z.to_nat (bassPitch - lowestPitch))) by lia.
  split; [done|]. case_decide as Hlt.
  - pose proof (Z.div_mod (bassPitch - lowestPitch + 11) 12 ltac:(lia)).
    pose proof (Z.mod_pos_bound (bassPitch - lowestPitch + 11) 12 ltac:(lia)).
    split_and!; [lia|lia|done].
  - split_and!; [done|lia|done].
Qed.

Lemma lowerBass_rest_witness :
  lowerBass 20 74 57 = 50
  ∧ lowerBass 20 74 57 = lowerBass (Z.to_nat (74 - 57)) 74 57.
Proof.
  split; [reflexivity|]. apply (lowerBass_rest 20 74 57). simpl. lia.
Defined.

Lemma orderAbove_mod (currentPitch lowerPitch : Z) :
  0 ≤ orderAbove currentPitch lowerPitch - lowerPitch ≤ 12
  ∧ (orderAbove currentPitch lowerPitch) mod 12 = currentPitch mod 12
  ∧ (orderAbove currentPitch lowerPitch = lowerPitch ↔
     12 < currentPitch - lowerPitch ∧ (currentPitch - lowerPitch) mod 12 = 0).
Proof.
  unfold orderAbove.
  destruct (currentPitch <=? lowerPitch) eqn:Hle.
  - apply Z.leb_le in Hle.
    pose proof (Z.div_mod (lowerPitch - currentPitch) 12 ltac:(lia)).
    pose proof (Z.mod_pos_bound (lowerPitch - currentPitch) 12 ltac:(lia)).
    replace (12 <? _) with false by (symmetry; apply Z.ltb_ge; lia).
    split_and!; [lia|lia| |lia].
    rewrite Z.mul_comm. apply Z_mod_plus_full.
  - apply Z.leb_gt in Hle.
    pose proof (Z.div_mod (currentPitch - lowerPitch) 12 ltac:(lia)).
    pose proof (Z.mod_pos_bound (currentPitch - lowerPitch) 12 ltac:(lia)).
    destruct (12 <? currentPitch - lowerPitch) eqn:Hfar.
    + apply Z.ltb_lt in Hfar. split_and!; [lia|lia| |lia].
      replace (currentPitch - 12 * ((currentPitch - lowerPitch) / 12))
        with (currentPitch + (- ((currentPitch - lowerPitch) / 12)) * 12) by lia.
      apply Z_mod_plus_full.
    + apply Z.ltb_ge in Hfar. split_and!; [lia|lia|done|lia].
Qed.

(** X2.  One round of the ordering loop leaves the note at most an octave
    above the note below it and never below it, moves it by whole octaves,
    and leaves it ON the pitch of the note below exactly when it was a
    whole number of octaves, more than one, above it. *)
Theorem orderAbove_within_octave (currentPitch lowerPitch : Z) :
  0 ≤ orderAbove currentPitch lowerPitch - lowerPitch ≤ 12
  ∧ (orderAbove currentPitch lowerPitch) mod 12 = currentPitch mod 12
  ∧ (orderAbove currentPitch lowerPitch = lowerPitch ↔
     12 < currentPitch - lowerPitch ∧ (currentPitch - lowerPitch) mod 12 = 0).
Proof. apply orderAbove_mod. Qed.

Lemma fmap_alter_at {X Y} (f : X → Y) (g : X → X) (i : nat) (l : list X) :
  (∀ x, l !! i = Some x → f (g x) = f x) → f <$> alter g i l = f <$> l.
Proof.
  revert i. induction l as [|x l IH]; intros [|i] H; csimpl; [done..| |].
  - by rewrite H.
  - by rewrite IH.
Qed.

Lemma tone_orderVoices (l : list Note) : tone <$> orderVoices l = tone <$> l.
Proof.
  induction l as [|n l IH]; [done|]. simpl.
  destruct (orderVoices l) as [|lower rest] eqn:Hl; csimpl in *.
  - destruct l; [done|]. by destruct (tone <$> _).
  - rewrite IH. f_equal. unfold tone. simpl.
    by rewrite (proj1 (proj2 (orderAbove_mod _ _))).
Qed.

Lemma adjustOctaves_tones_aux (chord : Chord) :
  tone <$> notes (adjustOctaves chord) ≡ₚ tone <$> notes chord.
Proof.
  simpl. unfold adjustOctavesNotes.
  destruct (mathMax _) as [bassVoice|]; [|by rewrite stableSort_perm].
  destruct (list_find _ _) as [[b bassNote]|] eqn:Hfind;
    [|by rewrite stableSort_perm].
  rewrite tone_orderVoices. case_decide; [|by rewrite stableSort_perm].
  rewrite fmap_alter_at; [by rewrite stableSort_perm|].
  intros x Hx. apply list_find_Some in Hfind as (Hb & _).
  rewrite Hb in Hx. injection Hx as <-. unfold tone. simpl.
  by rewrite lowerBass_mod.
Qed.

(** X3.  The octave normalizer moves notes by whole octaves and changes
    nothing else: position, duration, voice and pitch class of the notes
    of the chord are, rearranged, what they were. *)
Theorem adjustOctaves_tones (chord : Chord) :
  chordPosition (adjustOctaves chord) = chordPosition chord
  ∧ chordDuration (adjustOctaves chord) = chordDuration chord
  ∧ tone <$> notes (adjustOctaves chord) ≡ₚ tone <$> notes chord.
Proof. split; [done|]. split; [done|]. apply adjustOctaves_tones_aux. Qed.

Lemma head_fmap_eq {X Y} (f : X → Y) (l l' : list X) x x' :
  f <$> l = f <$> l' → head l = Some x → head l' = Some x' → f x = f x'.
Proof. destruct l, l'; naive_solver. Qed.

Lemma orderVoices_descending (l : list Note) :
  Sorted (λ a b, voiceOr0 a ≤ voiceOr0 b) l → descending (orderVoices l).
Proof.
  unfold descending. induction 1 as [|n l Hl IH Hhd]; [constructor|]. simpl.
  destruct (orderVoices l) as [|lower rest] eqn:Hord; [by repeat constructor|].
  constructor; [done|]. constructor. simpl.
  split; [|apply orderAbove_mod].
  destruct l as [|m l]; [done|]. inv Hhd.
  pose proof (orderVoices_fmap voiceOr0 (m :: l) (λ _ _, eq_refl)) as Hv.
  rewrite Hord in Hv. simpl in Hv. injection Hv as Hv _. by rewrite Hv.
Qed.

Lemma byVoice_Sorted (l : list Note) :
  Sorted Z.le (voiceOr0 <$> stableSort byVoice l).
Proof.
  apply StronglySorted_Sorted.
  eapply (StronglySorted_fmap _ _ Z.le); [|apply byVoice_sorted]. done.
Qed.

Lemma Sorted_fmap_inv {X} (f : X → Z) (l : list X) :
  Sorted Z.le (f <$> l) → Sorted (λ a b, f a ≤ f b) l.
Proof.
  induction l as [|x l IH]; [constructor|]. csimpl. intros Hs. inv Hs.
  constructor; [by apply IH|]. destruct l; constructor. by inv H2.
Qed.

Lemma Sorted_weaken {X} (R R' : relation X) (l : list X) :
  (∀ a b, R a b → R' a b) → Sorted R l → Sorted R' l.
Proof.
  intros HR. induction 1 as [|x l Hl IH Hhd]; constructor; [done|].
  destruct Hhd; constructor; auto.
Qed.

(** The normalizer on a chord that has a note and whose notes all carry
    a voice: the bass is found, and the chord is ordered. *)
Lemma adjustOctavesNotes_descending (store : list Note) :
  Forall (λ n, voice n ≠ None) store → descending (adjustOctavesNotes store).
Proof.
  intros Hvoiced. unfold adjustOctavesNotes.
  destruct (mathMax _) as [bassVoice|] eqn:Hmax.
  2:{ destruct (stableSort byVoice store); [constructor|done]. }
  apply mathMax_Some in Hmax as [(n & -> & Hn)%list_elem_of_fmap _].
  assert (voice n = Some (voiceOr0 n)) as Hvn.
  { rewrite elem_of_stableSort in Hn. rewrite Forall_forall in Hvoiced.
    specialize (Hvoiced n Hn). unfold voiceOr0. by destruct (voice n). }
  destruct (list_find_elem_of (λ note, voice note = Some (voiceOr0 n)) _ n Hn Hvn)
    as [[b bassNote] ->].
  apply orderVoices_descending, Sorted_fmap_inv.
  case_decide; [|apply byVoice_Sorted].
  rewrite fmap_alter_invariant by done. apply byVoice_Sorted.
Qed.

Lemma descending_last (l : list Note) (bass : Note) :
  descending l → last l = Some bass →
  ∀ n, n ∈ l → voiceOr0 n ≤ voiceOr0 bass ∧ pitch bass ≤ pitch n.
Proof.
  intros Hd Hlast n Hn.
  apply last_Some in Hlast as [l' Hl']. rewrite Hl' in Hd, Hn.
  assert (StronglySorted (λ a b, voiceOr0 a ≤ voiceOr0 b ∧ pitch b ≤ pitch a)
            (l' ++ [bass])) as Hss.
  { apply Sorted_StronglySorted.
    - intros a b c [? ?] [? ?]. lia.
    - eapply Sorted_weaken; [|exact Hd]. simpl. intros a b [? ?]. lia. }
  apply elem_of_app in Hn as [Hn|Hn%list_elem_of_singleton].
  - apply (StronglySorted_app_1_elem_of _ _ _ n bass Hss Hn). left.
  - subst. lia.
Qed.

(** X4.  A chord whose notes all carry a voice leaves the octave
    normalizer ordered from the top voice down: voice indices do not
    decrease along the chord, every note is at most an octave above the
    next and not below it, and so the last note, which carries the highest
    voice index, has the lowest pitch of the chord. *)
Theorem adjustOctaves_descending (chord : Chord) :
  Forall (λ n, voice n ≠ None) (notes chord) →
  descending (notes (adjustOctaves chord))
  ∧ ∀ bass, last (notes (adjustOctaves chord)) = Some bass →
      ∀ n, n ∈ notes (adjustOctaves chord) →
           voiceOr0 n ≤ voiceOr0 bass ∧ pitch bass ≤ pitch n.
Proof.
  intros Hvoiced. pose proof (adjustOctavesNotes_descending _ Hvoiced) as Hd.
  split; [done|]. intros bass. by apply descending_last.
Qed.

Lemma adjustOctaves_descending_witness :
  notes (adjustOctaves (mkChord 8
    [mkNote 74 8 8 (Some 3); mkNote 69 8 8 (Some 1);
     mkNote 65 8 8 (Some 2); mkNote 57 8 8 (Some 3)] None)) =
    [mkNote 69 8 8 (Some 1); mkNote 65 8 8 (Some 2);
     mkNote 62 8 8 (Some 3); mkNote 57 8 8 (Some 3)]
  ∧ descending (notes (adjustOctaves (mkChord 8
      [mkNote 74 8 8 (Some 3); mkNote 69 8 8 (Some 1);
       mkNote 65 8 8 (Some 2); mkNote 57 8 8 (Some 3)] None))).
Proof.
  split; [reflexivity|].
  apply (adjustOctaves_descending (mkChord 8
    [mkNote 74 8 8 (Some 3); mkNote 69 8 8 (Some 1);
     mkNote 65 8 8 (Some 2); mkNote 57 8 8 (Some 3)] None)).
  repeat constructor; done.
Defined.

(** ** Pitch classes through the pipeline *)

Lemma pitchClassFrame_tone (l l' : list Note) :
  tone <$> l ≡ₚ tone <$> l' → pitchClassFrame <$> l ≡ₚ pitchClassFrame <$> l'.
Proof.
  intros H.
  apply (fmap_Permutation (λ t : Z * Z * option Z * Z, (t.1.1.1, t.1.1.2, t.2))) in H.
  by rewrite <- !list_fmap_compose in H.
Qed.

Lemma pitchClassFrame_erase (l l' : list Note) :
  erase <$> l = erase <$> l' → pitchClassFrame <$> l = pitchClassFrame <$> l'.
Proof.
  intros H. apply (f_equal (fmap pitchClassFrame)) in H.
  by rewrite <- !list_fmap_compose in H.
Qed.

Lemma optimizeChordVoicing_pitchClasses prevChord currentChord numVoices chord :
  optimizeChordVoicing prevChord currentChord numVoices = Ok chord →
  chordPosition chord = chordPosition currentChord
  ∧ pitchClassFrame <$> notes chord ≡ₚ pitchClassFrame <$> notes currentChord.
Proof.
  unfold optimizeChordVoicing.
  destruct (commitBestAssignment_total prevChord currentChord numVoices)
    as ([store|] & -> & Her); simpl; intros [= <-]; [|done].
  split; [done|].
  rewrite <- (pitchClassFrame_erase _ _ (Her _ eq_refl)).
  apply pitchClassFrame_tone.
  apply (adjustOctaves_tones_aux (setNotes store currentChord)).
Qed.

(** The balancer raises the harmony by whole octaves, and not up to the
    melody. *)
Lemma adjustHarmony_octaves (chords : list Chord) :
  ∃ k, 0 ≤ k
    ∧ adjustHarmonyOctaveRelativeToMelody chords =
      (λ chord, setNotes (shiftHarmony (k * 12) <$> notes chord) chord) <$> chords
    ∧ ∀ a b, a ∈ flattenChordsToNotes chords → b ∈ flattenChordsToNotes chords →
             isMelodyVoice a = true → isHarmonyVoice b = true →
             k = 0 ∨ pitch b + k * 12 < pitch a.
Proof.
  assert (chords =
    (λ chord, setNotes (shiftHarmony (0 * 12) <$> notes chord) chord) <$> chords)
    as H0.
  { rewrite <- (list_fmap_id chords) at 1. apply list_fmap_ext.
    intros i [pos l dur] _. unfold setNotes. simpl. f_equal.
    rewrite <- (list_fmap_id l) at 1. apply list_fmap_ext.
    intros. by rewrite shiftHarmony_0. }
  unfold adjustHarmonyOctaveRelativeToMelody.
  destruct (mathMin _) as [minMelodyPitch|] eqn:Hmin;
    [|exists 0; split_and!; [done|done|by left]].
  destruct (mathMax _) as [maxHarmonyPitch|] eqn:Hmax;
    [|exists 0; split_and!; [done|done|by left]].
  destruct (12 <? _) eqn:Hgap; [|exists 0; split_and!; [done|done|by left]].
  destruct (0 <? _) eqn:Hpos; [|exists 0; split_and!; [done|done|by left]].
  apply Z.ltb_lt in Hgap, Hpos.
  exists ((minMelodyPitch - maxHarmonyPitch - 1) / 12).
  split_and!; [lia|done|]. intros a b Ha Hb Hma Hhb. right.
  apply mathMin_Some in Hmin as [_ Hmin]. apply mathMax_Some in Hmax as [_ Hmax].
  assert (minMelodyPitch ≤ pitch a).
  { apply Hmin, list_elem_of_fmap_2, list_elem_of_filter. done. }
  assert (pitch b ≤ maxHarmonyPitch).
  { apply Hmax, list_elem_of_fmap_2, list_elem_of_filter. done. }
  pose proof (Z.div_mod (minMelodyPitch - maxHarmonyPitch - 1) 12 ltac:(lia)).
  pose proof (Z.mod_pos_bound (minMelodyPitch - maxHarmonyPitch - 1) 12 ltac:(lia)).
  lia.
Qed.

Lemma pitchClassFrame_shiftHarmony k n :
  pitchClassFrame (shiftHarmony (k * 12) n) = pitchClassFrame n.
Proof.
  unfold shiftHarmony. case_match; [|done]. unfold pitchClassFrame. simpl.
  by rewrite Z_mod_plus_full.
Qed.

Lemma pitchClassFrame_later_chords numVoices (rest rest' : list Chord) :
  Forall2 (λ c c', ∃ prev, optimizeChordVoicing prev c numVoices = Ok c')
    rest rest' →
  pitchClassFrame <$> flattenChordsToNotes rest'
  ≡ₚ pitchClassFrame <$> flattenChordsToNotes rest.
Proof.
  unfold flattenChordsToNotes. induction 1 as [|c c' rest rest' [prev Hc] _ IH];
    csimpl; [done|].
  rewrite !fmap_app, IH. f_equiv.
  by apply optimizeChordVoicing_pitchClasses in Hc as [_ ?].
Qed.

(** X5.  The optimizer moves notes by whole octaves only: on an input
    with a note, position, duration and pitch class of the output notes
    are, note for note, those of the input notes. *)
Theorem optimizeVoiceLeading_pitch_classes (melodyNotes harmonyNotes : list Note) :
  melodyNotes ++ harmonyNotes ≠ [] →
  ∃ output,
    optimizeVoiceLeading melodyNotes harmonyNotes = Ok output
    ∧ pitchClassFrame <$> output
      ≡ₚ pitchClassFrame <$> (melodyNotes ++ harmonyNotes).
Proof.
  intros Hne.
  destruct (optimizedChords_shape melodyNotes harmonyNotes Hne)
    as (c0 & rest & first & rest' & Hchords & Hfirst & Hall & Hopt).
  unfold optimizeVoiceLeading. rewrite Hopt. simpl. eexists. split; [done|].
  destruct (adjustHarmony_octaves (first :: rest')) as (k & _ & -> & _).
  rewrite flatten_fmap_notes, <- list_fmap_compose.
  rewrite (list_fmap_ext (pitchClassFrame ∘ shiftHarmony (k * 12)) pitchClassFrame)
    by (intros; apply pitchClassFrame_shiftHarmony).
  change (flattenChordsToNotes (first :: rest'))
    with (notes first ++ flattenChordsToNotes rest').
  rewrite fmap_app, (pitchClassFrame_later_chords _ _ _ Hall), Hfirst. simpl.
  rewrite (pitchClassFrame_erase _ _ (erase_assignRemaining _ _ _ _)), <- fmap_app.
  change (notes c0 ++ flattenChordsToNotes rest)
    with (flattenChordsToNotes (c0 :: rest)).
  rewrite <- Hchords, flatten_identifyChords, <- list_fmap_compose.
  apply reflexive_eq, list_fmap_ext. intros i n _.
  unfold compose, markMelody. by destruct (matchesMelody melodyNotes n).
Qed.

Lemma optimizeVoiceLeading_pitch_classes_witness :
  ∃ output,
    optimizeVoiceLeading [inputNote 72 0 8; inputNote 84 8 8]
      [inputNote 60 0 8; inputNote 50 8 8] = Ok output
    ∧ pitchClassFrame <$> output ≡ₚ [(0, 8, 0); (8, 8, 0); (0, 8, 0); (8, 8, 2)].
Proof.
  apply (optimizeVoiceLeading_pitch_classes [inputNote 72 0 8; inputNote 84 8 8]
           [inputNote 60 0 8; inputNote 50 8 8]).
  simpl. discriminate.
Defined.

(** ** The chords after the first, in the output *)

Lemma elem_of_groupChords melodyNotes allNotes sortedPositions chord :
  chord ∈ groupChords melodyNotes allNotes sortedPositions →
  chordPosition chord ∈ sortedPositions
  ∧ notes chord =
    markMelody melodyNotes
      <$> filter (λ note, position note = chordPosition chord) allNotes.
Proof.
  induction sortedPositions as [|pos rest IH]; simpl; [by intros ?%elem_of_nil|].
  intros [->|Hin]%elem_of_cons.
  - split; [left|done].
  - destruct (IH Hin) as [? ?]. split; [by right|done].
Qed.

Lemma identifyChords_voices melodyNotes harmonyNotes chord n :
  Forall (λ n, voice n = None) (melodyNotes ++ harmonyNotes) →
  chord ∈ identifyChords melodyNotes harmonyNotes → n ∈ notes chord →
  voice n = None ∨ voice n = Some 0.
Proof.
  intros Hin Hc Hn. apply elem_of_groupChords in Hc as [_ Hnotes].
  rewrite Hnotes in Hn.
  apply list_elem_of_fmap in Hn as (n0 & -> & [_ Hn0]%list_elem_of_filter).
  rewrite Forall_forall in Hin. specialize (Hin n0 Hn0).
  unfold markMelody. case_match; [by right|by left].
Qed.

Lemma determineVoiceCount_fold (chords : list Chord) (acc : nat) :
  (acc ≤ fold_left (λ maxNotes chord, Nat.max maxNotes (length (notes chord)))
          chords acc)%nat
  ∧ ∀ chord, chord ∈ chords →
      (length (notes chord)
       ≤ fold_left (λ maxNotes chord, Nat.max maxNotes (length (notes chord)))
           chords acc)%nat.
Proof.
  revert acc. induction chords as [|c chords IH]; intros acc; simpl.
  - split; [done|]. by intros ? ?%elem_of_nil.
  - destruct (IH (Nat.max acc (length (notes c)))) as [Hacc Hall].
    split; [lia|]. intros chord [->|Hin]%elem_of_cons; [lia|by apply Hall].
Qed.

Lemma determineVoiceCount_le (chords : list Chord) (chord : Chord) :
  chord ∈ chords → (length (notes chord) ≤ determineVoiceCount chords)%nat.
Proof. apply determineVoiceCount_fold. Qed.

Lemma length_filter_complement {X} (P : X → Prop) `{!∀ x, Decision (P x)}
    (l : list X) :
  (length (filter P l) + length (filter (λ x, ¬ P x) l) = length l)%nat.
Proof.
  rewrite <- length_app. apply Permutation_length, filter_app_complement.
Qed.

(** A chord of the input has a free voice for each of its unfixed
    notes. *)
Lemma enough_voices (store : list Note) (numVoices : nat) :
  (∀ n, n ∈ store → voice n = None ∨ voice n = Some 0) →
  (length store ≤ numVoices)%nat →
  (length (refsWhere isUndefined 0 store)
   ≤ length (availableVoices store numVoices))%nat.
Proof.
  intros Hvoices Hlen. rewrite <- length_unfixed.
  pose proof (length_filter_complement (λ n, voice n = None) store) as Hsplit.
  destruct (filter (λ n, ¬ voice n = None) store) as [|fixed l] eqn:Hfixed.
  - (* no fixed note: every voice is free *)
    assert (availableVoices store numVoices = seqZ 0 (Z.of_nat numVoices)) as ->.
    { unfold availableVoices.
      replace (filter (λ note, voice note ≠ None) store) with (@nil Note).
      simpl. clear. induction (seqZ 0 (Z.of_nat numVoices)) as [|v l IH]; [done|].
      rewrite filter_cons, decide_True by apply not_elem_of_nil. by f_equal. }
    rewrite length_seqZ. simpl in Hsplit. lia.
  - (* a fixed note: it has voice 0, and the voices from 1 on are free *)
    assert (seqZ 1 (Z.of_nat numVoices - 1) ⊆+ availableVoices store numVoices)
      as Hsub.
    { apply NoDup_submseteq; [apply NoDup_seqZ|].
      intros v Hv%elem_of_seqZ. apply elem_of_availableVoices.
      split; [lia|]. intros n Hn Hvn. destruct (Hvoices n Hn); simplify_eq. lia. }
    apply submseteq_length in Hsub. rewrite length_seqZ in Hsub.
    simpl in Hsplit. lia.
Qed.

Section committed.
Context (store0 : list Note) (best tried : list Z).
Local Abbreviation unfixed := (refsWhere isUndefined 0 store0).
Local Abbreviation committedStore :=
  (setVoices (refsWhere isUndefined 0 store0) best (storeAfter store0 (Some tried))).

Lemma erase_committed : erase <$> committedStore = erase <$> store0.
Proof.
  simpl. unfold candidate.
  by rewrite erase_setVoices, erase_resetVoices, erase_withVoices, erase_setVoices.
Qed.

(** An unfixed note has the voice of the best assignment. *)
Lemma lookup_committed_unfixed i j n0 :
  unfixed !! i = Some j → store0 !! j = Some n0 →
  committedStore !! j = Some (setVoice (best !! i) n0).
Proof.
  intros Hi Hj. rewrite (lookup_setVoices _ _ _ i j) by (apply NoDup_refsWhere || done).
  destruct (storeAfter store0 (Some tried) !! j) as [n1|] eqn:Hn1.
  - simpl. f_equal. rewrite <- (setVoice_erase _ n1), <- (setVoice_erase _ n0).
    f_equal. eapply erase_lookup; [|exact Hn1|exact Hj].
    simpl. unfold candidate.
    by rewrite erase_resetVoices, erase_withVoices, erase_setVoices.
  - apply lookup_ge_None in Hn1. apply lookup_lt_Some in Hj.
    simpl in Hn1. unfold candidate in Hn1.
    rewrite length_resetVoices, length_withVoices, length_setVoices in Hn1. lia.
Qed.

(** A fixed note has the voice that the last candidate has at the index
    of the note in the chord, if it has one there, and else its own. *)
Lemma lookup_committed_fixed j n0 :
  j ∉ unfixed → store0 !! j = Some n0 →
  committedStore !! j =
  Some (match tried !! j with Some v => setVoice (Some v) n0 | None => n0 end).
Proof.
  intros Hj Hn0. simpl. unfold candidate.
  rewrite lookup_setVoices_ne, lookup_resetVoices_ne, lookup_withVoices,
    lookup_setVoices_ne, Hn0 by done.
  done.
Qed.

Lemma unfixed_lookup j n0 :
  store0 !! j = Some n0 → j ∈ unfixed ↔ voice n0 = None.
Proof.
  intros Hn0. rewrite elem_of_refsWhere, Nat.sub_0_r, Hn0. unfold isUndefined.
  split.
  - intros [_ (n & Heq & Hn)]. injection Heq as <-. by destruct (voice n0).
  - intros Hv. split; [lia|]. exists n0. by rewrite Hv.
Qed.

Lemma committed_voiced (numVoices : nat) :
  (∀ n, n ∈ store0 → voice n = None ∨ voice n = Some 0) →
  (0 < numVoices)%nat →
  length best = length unfixed →
  (∀ v, v ∈ best → 0 ≤ v < Z.of_nat numVoices) →
  (∀ v, v ∈ tried → 0 ≤ v < Z.of_nat numVoices) →
  Forall (voicedIn numVoices) committedStore.
Proof.
  intros Hvoices HN Hlen Hbest Htried. apply Forall_lookup. intros j n Hn.
  assert (is_Some (store0 !! j)) as [n0 Hn0].
  { apply lookup_lt_is_Some. apply lookup_lt_Some in Hn.
    by rewrite <- (length_fmap erase), erase_committed, length_fmap in Hn. }
  destruct (decide (j ∈ unfixed)) as [Hj|Hj].
  - apply list_elem_of_lookup in Hj as [i Hi].
    rewrite (lookup_committed_unfixed i j n0 Hi Hn0) in Hn. injection Hn as <-.
    destruct (best !! i) as [v|] eqn:Hv.
    + exists v. split; [done|]. apply Hbest. by eapply list_elem_of_lookup_2.
    + apply lookup_ge_None in Hv. apply lookup_lt_Some in Hi. lia.
  - rewrite (lookup_committed_fixed j n0 Hj Hn0) in Hn. injection Hn as <-.
    destruct (tried !! j) as [v|] eqn:Hv.
    + exists v. split; [done|]. apply Htried. by eapply list_elem_of_lookup_2.
    + exists 0. split; [|lia].
      destruct (Hvoices n0) as [Hnone|?]; [by eapply list_elem_of_lookup_2| |done].
      exfalso. apply Hj. by apply (unfixed_lookup j n0).
Qed.
End committed.

(** The chord that [optimizeChordVoicing] returns for a chord of the
    input with an unfixed note. *)
Lemma optimizeChordVoicing_later prevChord currentChord numVoices chord :
  (∀ n, n ∈ notes currentChord → voice n = None ∨ voice n = Some 0) →
  (length (notes currentChord) ≤ numVoices)%nat →
  (∃ n, n ∈ notes currentChord ∧ voice n = None) →
  optimizeChordVoicing prevChord currentChord numVoices = Ok chord →
  descending (notes chord) ∧ Forall (voicedIn numVoices) (notes chord).
Proof.
  intros Hvoices Hlen (n & Hn & Hvn) Hopt.
  assert (refsWhere isUndefined 0 (notes currentChord) ≠ []) as Hne.
  { apply list_elem_of_lookup in Hn as [j Hj].
    assert (j ∈ refsWhere isUndefined 0 (notes currentChord)) as Hin
      by by apply (unfixed_lookup _ j n).
    intros Hnil. rewrite Hnil in Hin. by apply not_elem_of_nil in Hin. }
  destruct (commitBestAssignment_spec prevChord currentChord numVoices Hne
    (enough_voices _ _ Hvoices Hlen)) as (best & tried & Hcommit & Hlast & Hmin).
  unfold optimizeChordVoicing in Hopt. rewrite Hcommit in Hopt. simpl in Hopt.
  injection Hopt as <-.
  assert (Forall (voicedIn numVoices)
    (setVoices (refsWhere isUndefined 0 (notes currentChord)) best
       (storeAfter (notes currentChord) (Some tried)))) as Hvoiced.
  { destruct Hmin as (i & Hi%list_elem_of_lookup_2 & _).
    apply elem_of_generateVoiceAssignments in Hi as (Hbl & _ & Hbsub).
    apply last_Some_elem_of, elem_of_generateVoiceAssignments in Hlast
      as (_ & _ & Htsub).
    apply committed_voiced; [done| |done|..].
    - apply list_elem_of_lookup in Hn as [j Hj%lookup_lt_Some]. lia.
    - intros v Hv. by apply Hbsub, elem_of_availableVoices in Hv as [? _].
    - intros v Hv. by apply Htsub, elem_of_availableVoices in Hv as [? _]. }
  split.
  - apply adjustOctavesNotes_descending. simpl.
    eapply Forall_impl; [exact Hvoiced|]. intros m (v & -> & _). done.
  - simpl. apply Forall_forall. intros m Hm.
    assert (voice m ∈ voice <$> adjustOctavesNotes
              (setVoices (refsWhere isUndefined 0 (notes currentChord)) best
                 (storeAfter (notes currentChord) (Some tried)))) as Hv
      by by apply list_elem_of_fmap_2.
    rewrite adjustOctavesNotes_fmap, stableSort_perm in Hv by done.
    apply list_elem_of_fmap in Hv as (m' & Heq & Hm').
    rewrite Forall_forall in Hvoiced. destruct (Hvoiced m' Hm') as (v & Hv & ?).
    exists v. by rewrite Heq.
Qed.

Lemma Sorted_fmap_elem {X} (R R' : relation X) (f : X → X) (l : list X) :
  (∀ a b, a ∈ l → b ∈ l → R a b → R' (f a) (f b)) →
  Sorted R l → Sorted R' (f <$> l).
Proof.
  intros HR Hs. induction Hs as [|x l Hl IH Hhd]; csimpl; [constructor|].
  constructor.
  - apply IH. intros a b Ha Hb. apply HR; by right.
  - destruct Hhd as [|y l' Hxy]; csimpl; constructor.
    apply HR; [left|right; left|done].
Qed.

(** The global balance keeps an ordered chord ordered. *)
Lemma descending_shiftHarmony (numVoices : nat) (k : Z) (l : list Note) :
  0 ≤ k → Forall (voicedIn numVoices) l →
  (∀ a b, a ∈ l → b ∈ l → isMelodyVoice a = true → isHarmonyVoice b = true →
          k = 0 ∨ pitch b + k * 12 < pitch a) →
  descending l → descending (shiftHarmony (k * 12) <$> l).
Proof.
  intros Hk Hvoiced Hgap. apply Sorted_fmap_elem. intros a b Ha Hb [Hv Hp].
  rewrite Forall_forall in Hvoiced.
  destruct (Hvoiced a Ha) as (va & Hva & ?), (Hvoiced b Hb) as (vb & Hvb & ?).
  specialize (Hgap a b Ha Hb).
  unfold shiftHarmony, isHarmonyVoice, isMelodyVoice, voiceOr0 in *.
  rewrite Hva, Hvb in *. simpl in *.
  destruct va as [|va|va], vb as [|vb|vb]; simpl; rewrite ?Hva, ?Hvb; simpl;
    lia.
Qed.

Lemma voicedIn_shiftHarmony numVoices shift n :
  voicedIn numVoices n → voicedIn numVoices (shiftHarmony shift n).
Proof. unfold shiftHarmony. by case_match. Qed.

(** X6.  When the input notes come without voices, every chord after the
    first that has a note not matching a melody note is, in the chords
    that the optimizer flattens into its output, ordered from the top voice
    down: all its notes carry a voice of 0 .. N-1, the voice index does not
    decrease along the chord, each note is at most an octave above the next
    and not below it, and the last note has the highest voice index and the
    lowest pitch of the chord. *)
Theorem optimizedChords_later_descending (melodyNotes harmonyNotes : list Note)
    (chords : list Chord) (i : nat) (c0 c : Chord) :
  Forall (λ n, voice n = None) (melodyNotes ++ harmonyNotes) →
  optimizedChords melodyNotes harmonyNotes = Ok chords →
  (0 < i)%nat →
  identifyChords melodyNotes harmonyNotes !! i = Some c0 →
  (∃ n, n ∈ notes c0 ∧ voice n = None) →
  chords !! i = Some c →
  chordPosition c = chordPosition c0
  ∧ Forall (voicedIn (determineVoiceCount
                        (identifyChords melodyNotes harmonyNotes))) (notes c)
  ∧ descending (notes c)
  ∧ ∀ bass, last (notes c) = Some bass →
      ∀ n, n ∈ notes c → voiceOr0 n ≤ voiceOr0 bass ∧ pitch bass ≤ pitch n.
Proof.
  intros Hin Hopt Hi Hc0 Hunfixed Hc.
  assert (melodyNotes ++ harmonyNotes ≠ []) as Hne.
  { intros Hnil. apply app_eq_nil in Hnil as [-> ->]. by destruct i. }
  destruct (optimizedChords_shape melodyNotes harmonyNotes Hne)
    as (c00 & rest & first & rest' & Hchords & Hfirst & Hall & Hopt').
  rewrite Hopt' in Hopt. injection Hopt as <-.
  destruct (adjustHarmony_octaves (first :: rest')) as (k & Hk & Hadj & Hgap).
  rewrite Hadj, list_lookup_fmap in Hc.
  destruct i as [|i]; [lia|]. rewrite Hchords in Hc0. simpl in Hc, Hc0.
  destruct (rest' !! i) as [c'|] eqn:Hc'; [|done]. simpl in Hc.
  injection Hc as <-.
  destruct (Forall2_lookup_lr _ _ _ _ _ _ Hall Hc0 Hc') as [prev Hprev].
  assert (c0 ∈ identifyChords melodyNotes harmonyNotes) as Hc0in.
  { rewrite Hchords. right. by eapply list_elem_of_lookup_2. }
  destruct (optimizeChordVoicing_later prev c0
              (determineVoiceCount (identifyChords melodyNotes harmonyNotes)) c')
    as [Hd Hv];
    [intros n Hn; by eapply identifyChords_voices
    |by apply determineVoiceCount_le|done..|].
  assert (descending (shiftHarmony (k * 12) <$> notes c')) as Hd'.
  { eapply descending_shiftHarmony; [done..| |done].
    intros a b Ha Hb. apply Hgap; unfold flattenChordsToNotes; csimpl;
      apply elem_of_app; right; apply list_elem_of_join;
      exists (notes c'); (split; [done|]); apply list_elem_of_fmap_2;
      by eapply list_elem_of_lookup_2. }
  split_and!.
  - simpl. by apply optimizeChordVoicing_pitchClasses in Hprev as [? _].
  - simpl. apply Forall_fmap. eapply Forall_impl; [exact Hv|].
    intros n. apply voicedIn_shiftHarmony.
  - done.
  - simpl. intros bass. by apply descending_last.
Qed.

Lemma optimizedChords_later_descending_witness :
  optimizedChords
    [inputNote 72 0 8; inputNote 74 8 8]
    [inputNote 67 0 8; inputNote 64 0 8; inputNote 60 0 8;
     inputNote 69 8 8; inputNote 65 8 8; inputNote 57 8 8]
  = Ok [mkChord 0 [mkNote 72 0 8 (Some 0); mkNote 67 0 8 (Some 1);
                   mkNote 64 0 8 (Some 2); mkNote 60 0 8 (Some 3)] (Some 8);
        mkChord 8 [mkNote 69 8 8 (Some 1); mkNote 65 8 8 (Some 2);
                   mkNote 62 8 8 (Some 3); mkNote 57 8 8 (Some 3)] None]
  ∧ descending [mkNote 69 8 8 (Some 1); mkNote 65 8 8 (Some 2);
                mkNote 62 8 8 (Some 3); mkNote 57 8 8 (Some 3)].
Proof.
  assert (optimizedChords
    [inputNote 72 0 8; inputNote 74 8 8]
    [inputNote 67 0 8; inputNote 64 0 8; inputNote 60 0 8;
     inputNote 69 8 8; inputNote 65 8 8; inputNote 57 8 8]
  = Ok [mkChord 0 [mkNote 72 0 8 (Some 0); mkNote 67 0 8 (Some 1);
                   mkNote 64 0 8 (Some 2); mkNote 60 0 8 (Some 3)] (Some 8);
        mkChord 8 [mkNote 69 8 8 (Some 1); mkNote 65 8 8 (Some 2);
                   mkNote 62 8 8 (Some 3); mkNote 57 8 8 (Some 3)] None])
    as Hopt by (vm_compute; reflexivity).
  split; [exact Hopt|].
  assert (Forall (λ n, voice n = None)
    ([inputNote 72 0 8; inputNote 74 8 8] ++
     [inputNote 67 0 8; inputNote 64 0 8; inputNote 60 0 8;
      inputNote 69 8 8; inputNote 65 8 8; inputNote 57 8 8])) as Hin
    by (repeat constructor).
  destruct (optimizedChords_later_descending _ _ _ 1
    (mkChord 8 [mkNote 74 8 8 (Some 0); inputNote 69 8 8;
                inputNote 65 8 8; inputNote 57 8 8] None)
    (mkChord 8 [mkNote 69 8 8 (Some 1); mkNote 65 8 8 (Some 2);
                mkNote 62 8 8 (Some 3); mkNote 57 8 8 (Some 3)] None)
    Hin Hopt) as (_ & _ & Hd & _).
  - lia.
  - reflexivity.
  - exists (inputNote 69 8 8). split; [right; left|reflexivity].
  - reflexivity.
  - exact Hd.
Defined.

(** ** The last candidate of the search *)

Lemma bind_filter_out {X Y} (P : X → Prop) `{!∀ x, Decision (P x)}
    (g : X → list Y) (l : list X) :
  l ≫= (λ x, if decide (P x) then [] else g x) = filter (λ x, ¬ P x) l ≫= g.
Proof.
  induction l as [|x l IH]; [done|]. rewrite bind_cons, filter_cons, IH.
  destruct (decide (P x)); [by rewrite decide_False by tauto|].
  by rewrite decide_True, bind_cons by done.
Qed.

Lemma filter_out_last (array current free : list Z) (x : Z) :
  NoDup array → filter (λ y, y ∉ current) array = free ++ [x] →
  filter (λ y, y ∉ current ++ [x]) array = free.
Proof.
  intros Hnd Hfree.
  assert (NoDup (free ++ [x])) as Hnd' by (rewrite <- Hfree; by apply NoDup_filter).
  apply NoDup_app in Hnd' as (_ & Hx & _).
  rewrite (list_filter_iff _ (λ y, y ≠ x ∧ y ∉ current)).
  2:{ intros y. rewrite elem_of_app, list_elem_of_singleton. tauto. }
  rewrite <- list_filter_filter, Hfree, filter_app.
  rewrite filter_cons, decide_False, filter_nil, app_nil_r by tauto.
  clear -Hx. induction free as [|y free IH]; [done|].
  rewrite filter_cons, decide_True, IH; [done| |].
  - intros z Hz. apply Hx. by right.
  - intros ->. apply (Hx x); [left|by apply list_elem_of_singleton].
Qed.

(** The last sequence that [backtrack] produces takes the free elements
    of the array from its end. *)
Lemma last_backtrack (array : list Z) (todo start : nat) (current : list Z) :
  NoDup array →
  (todo ≤ length (filter (λ x, x ∉ current) array))%nat →
  last (backtrack array todo start current) =
  Some (current ++ take todo (filter (λ x, x ∉ current) (reverse array))).
Proof.
  intros Hnd. revert start current.
  induction todo as [|todo IH]; intros start current Hlen.
  - simpl. by rewrite take_0, app_nil_r.
  - rewrite backtrack_bind, bind_filter_out.
    destruct (filter (λ x, x ∉ current) array) as [|y free'] eqn:Hfree
      using rev_ind; [simpl in Hlen; lia|]. clear IHfree'.
    rewrite length_app in Hlen. simpl in Hlen.
    rewrite bind_app, bind_singleton, last_app.
    pose proof (filter_out_last array current free' y Hnd Hfree) as Hout.
    rewrite IH by (rewrite Hout; lia).
    rewrite !filter_reverse, Hfree, Hout, reverse_snoc. simpl.
    by rewrite <- app_assoc.
Qed.

Lemma last_generatePermutations (array : list Z) (k : nat) :
  NoDup array → (k ≤ length array)%nat →
  last (generatePermutations array k) = Some (take k (reverse array)).
Proof.
  intros Hnd Hk. unfold generatePermutations.
  assert (∀ l : list Z, filter (λ x, x ∉ @nil Z) l = l) as Hall.
  { induction l as [|x l IHl]; [done|].
    by rewrite filter_cons, decide_True, IHl by apply not_elem_of_nil. }
  rewrite last_backtrack by (rewrite ?Hall; done). by rewrite Hall.
Qed.

(** X7.  The search of a chord with unfixed notes and enough free voices
    changes voices only, and gives the unfixed notes pairwise distinct
    voices, each of them free when the search began. *)
Theorem commitBestAssignment_unfixed (prevChord currentChord : Chord)
    (numVoices : nat) :
  let unfixed := refsWhere isUndefined 0 (notes currentChord) in
  let free := availableVoices (notes currentChord) numVoices in
  unfixed ≠ [] → (length unfixed ≤ length free)%nat →
  ∃ best store,
    commitBestAssignment prevChord currentChord numVoices = Ok (Some store)
    ∧ erase <$> store = erase <$> notes currentChord
    ∧ length best = length unfixed ∧ NoDup best
    ∧ (∀ v, v ∈ best →
            0 ≤ v < Z.of_nat numVoices
            ∧ ∀ n, n ∈ notes currentChord → voice n ≠ Some v)
    ∧ ∀ i j n0, unfixed !! i = Some j → notes currentChord !! j = Some n0 →
                store !! j = Some (setVoice (best !! i) n0).
Proof.
  intros unfixed free Hne Hlen. subst unfixed free.
  destruct (commitBestAssignment_spec prevChord currentChord numVoices Hne Hlen)
    as (best & tried & Hcommit & _ & (i & Hi%list_elem_of_lookup_2 & _)).
  apply elem_of_generateVoiceAssignments in Hi as (Hbl & Hnd & Hsub).
  exists best, (setVoices (refsWhere isUndefined 0 (notes currentChord)) best
                  (storeAfter (notes currentChord) (Some tried))).
  split_and!; [done|apply erase_committed|done|done| |].
  - intros v Hv. by apply elem_of_availableVoices, Hsub.
  - intros. by apply lookup_committed_unfixed.
Qed.

Lemma commitBestAssignment_unfixed_witness :
  ∃ (best : list Z) store,
    commitBestAssignment
      (mkChord 0 [mkNote 72 0 8 (Some 0); mkNote 60 0 8 (Some 1)] (Some 8))
      (mkChord 8 [mkNote 74 8 8 (Some 0); inputNote 62 8 8] None) 2
    = Ok (Some store)
    ∧ erase <$> store = erase <$> [mkNote 74 8 8 (Some 0); inputNote 62 8 8]
    ∧ length best = 1%nat.
Proof.
  destruct (commitBestAssignment_unfixed
    (mkChord 0 [mkNote 72 0 8 (Some 0); mkNote 60 0 8 (Some 1)] (Some 8))
    (mkChord 8 [mkNote 74 8 8 (Some 0); inputNote 62 8 8] None) 2)
    as (best & store & Hcommit & Her & Hlen & _).
  - discriminate.
  - simpl. lia.
  - exists best, store. split; [exact Hcommit|]. split; [exact Her|exact Hlen].
Defined.

(** X8.  The search overwrites fixed notes.  In a chord with k unfixed
    notes and enough free voices, a note that came with a voice and stands
    at index j < k of the chord leaves the search with the voice at index j
    of the last candidate, which lists the free voices from the highest
    down; a fixed note at an index from k on keeps its voice. *)
Theorem commitBestAssignment_fixed (prevChord currentChord : Chord)
    (numVoices : nat) :
  let unfixed := refsWhere isUndefined 0 (notes currentChord) in
  let free := availableVoices (notes currentChord) numVoices in
  unfixed ≠ [] → (length unfixed ≤ length free)%nat →
  ∃ store,
    commitBestAssignment prevChord currentChord numVoices = Ok (Some store)
    ∧ last (generateVoiceAssignments currentChord numVoices) =
        Some (take (length unfixed) (reverse free))
    ∧ ∀ j n0, notes currentChord !! j = Some n0 → voice n0 ≠ None →
        store !! j =
        Some (match take (length unfixed) (reverse free) !! j with
              | Some v => setVoice (Some v) n0
              | None => n0
              end).
Proof.
  intros unfixed free Hne Hlen. subst unfixed free.
  destruct (commitBestAssignment_spec prevChord currentChord numVoices Hne Hlen)
    as (best & tried & Hcommit & Hlast & _).
  assert (last (generateVoiceAssignments currentChord numVoices) =
          Some (take (length (refsWhere isUndefined 0 (notes currentChord)))
                  (reverse (availableVoices (notes currentChord) numVoices))))
    as Hlast'.
  { unfold generateVoiceAssignments. rewrite length_unfixed.
    apply last_generatePermutations; [apply NoDup_availableVoices|done]. }
  rewrite Hlast' in Hlast. injection Hlast as <-.
  eexists. split; [exact Hcommit|]. split; [done|].
  intros j n0 Hn0 Hv. apply lookup_committed_fixed; [|done].
  intros Hj. by apply (unfixed_lookup _ j n0) in Hj.
Qed.

Lemma commitBestAssignment_fixed_witness :
  commitBestAssignment
    (mkChord 0 [mkNote 72 0 8 (Some 0); mkNote 67 0 8 (Some 1);
                mkNote 60 0 8 (Some 2)] (Some 8))
    (mkChord 8 [mkNote 74 8 8 (Some 0); inputNote 65 8 8; inputNote 57 8 8] None) 3
  = Ok (Some [mkNote 74 8 8 (Some 2); mkNote 65 8 8 (Some 1);
              mkNote 57 8 8 (Some 2)])
  ∧ ∃ store,
      commitBestAssignment
        (mkChord 0 [mkNote 72 0 8 (Some 0); mkNote 67 0 8 (Some 1);
                    mkNote 60 0 8 (Some 2)] (Some 8))
        (mkChord 8 [mkNote 74 8 8 (Some 0); inputNote 65 8 8; inputNote 57 8 8]
           None) 3
      = Ok (Some store)
      ∧ last (generateVoiceAssignments
                (mkChord 8 [mkNote 74 8 8 (Some 0); inputNote 65 8 8;
                            inputNote 57 8 8] None) 3) = Some [2; 1].
Proof.
  split; [by vm_compute|].
  destruct (commitBestAssignment_fixed
    (mkChord 0 [mkNote 72 0 8 (Some 0); mkNote 67 0 8 (Some 1);
                mkNote 60 0 8 (Some 2)] (Some 8))
    (mkChord 8 [mkNote 74 8 8 (Some 0); inputNote 65 8 8; inputNote 57 8 8] None) 3)
    as (store & Hcommit & Hlast & _).
  - discriminate.
  - simpl. lia.
  - exists store. split; [exact Hcommit|exact Hlast].
Defined.

(** ** The first chord *)

Lemma remainingRefs_zip (i : nat) (l : list Note) :
  fst <$> filter (λ a : nat * Note, isUndefined a.2) (zip (seq i (length l)) l)
  = refsWhere isUndefined i l.
Proof.
  revert i. induction l as [|n l IH]; intros i; [done|]. simpl.
  rewrite filter_cons. case_decide as HP; simpl in HP;
    destruct (isUndefined n); try done; csimpl; by rewrite IH.
Qed.

Lemma StronglySorted_lookup_lt {X} (R : relation X) (l : list X) i j x y :
  StronglySorted R l → l !! i = Some x → l !! j = Some y → (i < j)%nat → R x y.
Proof.
  intros Hs. revert i j. induction Hs as [|z l Hs IH Hz]; intros i j Hi Hj Hlt;
    [done|].
  destruct j as [|j]; [lia|]. destruct i as [|i]; simpl in *.
  - simplify_eq. rewrite Forall_forall in Hz. apply Hz.
    by eapply list_elem_of_lookup_2.
  - apply (IH i j); [done..|lia].
Qed.

Lemma remainingRefs_perm (store : list Note) :
  remainingRefs store ≡ₚ refsWhere isUndefined 0 store.
Proof.
  unfold remainingRefs. by rewrite stableSort_perm, remainingRefs_zip.
Qed.

Lemma zip_seq_lookup (i : nat) (l : list Note) (a : nat * Note) :
  a ∈ zip (seq i (length l)) l → (i ≤ a.1)%nat ∧ l !! (a.1 - i)%nat = Some a.2.
Proof.
  revert i. induction l as [|n l IH]; intros i; simpl; [by intros ?%elem_of_nil|].
  intros [->|Hin]%elem_of_cons; simpl.
  - by rewrite Nat.sub_diag.
  - apply IH in Hin as [? Hl]. split; [lia|].
    by replace (a.1 - i)%nat with (S (a.1 - S i)) by lia.
Qed.

(** The references of the remaining notes come by descending pitch. *)
Lemma remainingRefs_sorted (store : list Note) (i1 i2 r1 r2 : nat) (n1 n2 : Note) :
  remainingRefs store !! i1 = Some r1 → remainingRefs store !! i2 = Some r2 →
  (i1 < i2)%nat → store !! r1 = Some n1 → store !! r2 = Some n2 →
  pitch n2 ≤ pitch n1.
Proof.
  unfold remainingRefs. rewrite !list_lookup_fmap. intros H1 H2 Hlt Hn1 Hn2.
  set (sorted := stableSort (λ a b : nat * Note, pitch b.2 - pitch a.2)
                   (filter (λ a : nat * Note, isUndefined a.2)
                      (zip (seq 0 (length store)) store))) in *.
  destruct (sorted !! i1) as [[r1' m1]|] eqn:Hs1; [|done].
  destruct (sorted !! i2) as [[r2' m2]|] eqn:Hs2; [|done].
  simpl in H1, H2. simplify_eq.
  assert (∀ a, a ∈ sorted → store !! a.1 = Some a.2) as Hpair.
  { intros a Ha. unfold sorted in Ha.
    rewrite elem_of_stableSort in Ha. apply list_elem_of_filter in Ha as [_ Ha].
    apply zip_seq_lookup in Ha as [_ Ha]. by rewrite Nat.sub_0_r in Ha. }
  pose proof (Hpair _ (list_elem_of_lookup_2 _ _ _ Hs1)) as Hm1.
  pose proof (Hpair _ (list_elem_of_lookup_2 _ _ _ Hs2)) as Hm2.
  simpl in Hm1, Hm2. simplify_eq.
  assert (∀ a b : nat * Note,
    pitch b.2 - pitch a.2 = (- pitch a.2) - (- pitch b.2)) as Hkey
    by (intros; lia).
  pose proof (stableSort_sorted (λ a b : nat * Note, pitch b.2 - pitch a.2)
    (λ a, - pitch a.2) Hkey
    (filter (λ a : nat * Note, isUndefined a.2)
       (zip (seq 0 (length store)) store))) as Hsorted.
  fold sorted in Hsorted.
  pose proof (StronglySorted_lookup_lt _ _ _ _ _ _ Hsorted Hs1 Hs2 Hlt) as H.
  simpl in H. lia.
Qed.

Lemma assignRemaining_cons numVoices r r' rest currentVoice store :
  assignRemaining numVoices (r :: r' :: rest) currentVoice store =
  assignRemaining numVoices (r' :: rest) (currentVoice + 1)
    (alter (setVoice (Some currentVoice)) r store).
Proof. done. Qed.

Lemma lookup_assignRemaining_ne numVoices remaining currentVoice store j :
  j ∉ remaining →
  assignRemaining numVoices remaining currentVoice store !! j = store !! j.
Proof.
  revert currentVoice store.
  induction remaining as [|r rest IH]; intros currentVoice store Hj; [done|].
  apply not_elem_of_cons in Hj as [? ?]. destruct rest as [|r' rest].
  - simpl. by rewrite list_lookup_alter_ne.
  - by rewrite assignRemaining_cons, IH, list_lookup_alter_ne.
Qed.

(** The remaining notes get the voices currentVoice, currentVoice + 1, ...
    in their order, but the last of them the bottom voice. *)
Lemma lookup_assignRemaining numVoices remaining currentVoice store i r :
  NoDup remaining → remaining !! i = Some r →
  assignRemaining numVoices remaining currentVoice store !! r =
  setVoice (Some (if decide (S i = length remaining)
                  then Z.of_nat numVoices - 1
                  else currentVoice + Z.of_nat i)) <$> store !! r.
Proof.
  revert currentVoice store i.
  induction remaining as [|r0 rest IH]; intros currentVoice store i Hnd Hi;
    [done|].
  apply NoDup_cons in Hnd as [Hr0 Hnd]. destruct rest as [|r1 rest].
  - destruct i as [|i]; [|done]. simpl in Hi. simplify_eq. simpl.
    by rewrite list_lookup_alter_eq.
  - rewrite assignRemaining_cons. destruct i as [|i]; simpl in Hi.
    + simplify_eq. rewrite lookup_assignRemaining_ne by done.
      rewrite list_lookup_alter_eq, decide_False by (simpl; lia).
      by rewrite Z.add_0_r.
    + rewrite (IH _ _ i) by done.
      rewrite list_lookup_alter_ne.
      2:{ intros ->. apply Hr0. by eapply list_elem_of_lookup_2. }
      destruct (decide (S i = length (r1 :: rest))).
      * by rewrite decide_True by (simpl in *; lia).
      * rewrite decide_False by (simpl in *; lia).
        by replace (currentVoice + 1 + Z.of_nat i)
          with (currentVoice + Z.of_nat (S i)) by lia.
Qed.

Section first_chord.
Context (chord : Chord) (numVoices : nat).
Hypothesis Hvoices : ∀ n, n ∈ notes chord → voice n = None ∨ voice n = Some 0.
Hypothesis Hsize : (length (notes chord) ≤ numVoices)%nat.

Local Abbreviation refs := (remainingRefs (notes chord)).
Local Abbreviation currentVoice :=
  (match list_find (λ note, voice note = Some 0) (notes chord) with
   | Some _ => 1
   | None => 0
   end).
Local Abbreviation assigned :=
  (assignRemaining numVoices (remainingRefs (notes chord))
     (match list_find (λ note, voice note = Some 0) (notes chord) with
      | Some _ => 1
      | None => 0
      end) (notes chord)).
Local Abbreviation given i :=
  (if decide (S i = length (remainingRefs (notes chord)))
   then Z.of_nat numVoices - 1
   else (match list_find (λ note, voice note = Some 0) (notes chord) with
         | Some _ => 1
         | None => 0
         end) + Z.of_nat i).

Lemma NoDup_remainingRefs : NoDup refs.
Proof. rewrite remainingRefs_perm. apply NoDup_refsWhere. Qed.

Lemma elem_of_remainingRefs j n :
  notes chord !! j = Some n → j ∈ refs ↔ voice n = None.
Proof. intros Hn. rewrite remainingRefs_perm. by apply unfixed_lookup. Qed.

(** There is room for the voices: the melody voice, if there is one,
    and one voice for each remaining note. *)
Lemma remainingRefs_room : currentVoice + Z.of_nat (length refs) ≤ Z.of_nat numVoices.
Proof.
  assert (∀ j, j ∈ refs → (j < length (notes chord))%nat) as Hrange.
  { intros j Hj. rewrite remainingRefs_perm in Hj.
    apply elem_of_refsWhere in Hj as [_ (n & Hn%lookup_lt_Some & _)]. lia. }
  destruct (list_find _ _) as [[j n]|] eqn:Hfind.
  - apply list_find_Some in Hfind as (Hj & Hv & _).
    assert (j :: refs ⊆+ seq 0 (length (notes chord))) as Hsub.
    { apply NoDup_submseteq.
      - constructor; [|apply NoDup_remainingRefs].
        rewrite (elem_of_remainingRefs j n Hj). by rewrite Hv.
      - intros x [->|Hx]%elem_of_cons; apply elem_of_seq.
        + apply lookup_lt_Some in Hj. lia.
        + specialize (Hrange x Hx). lia. }
    apply submseteq_length in Hsub. rewrite length_seq in Hsub. simpl in Hsub.
    lia.
  - assert (refs ⊆+ seq 0 (length (notes chord))) as Hsub.
    { apply NoDup_submseteq; [apply NoDup_remainingRefs|].
      intros x Hx. apply elem_of_seq. specialize (Hrange x Hx). lia. }
    apply submseteq_length in Hsub. rewrite length_seq in Hsub. lia.
Qed.

Lemma given_range i :
  (i < length refs)%nat → 0 ≤ given i < Z.of_nat numVoices.
Proof.
  intros Hi. pose proof remainingRefs_room.
  case_decide; destruct (list_find _ _); lia.
Qed.

Lemma given_increasing i1 i2 :
  (i1 < i2)%nat → (i2 < length refs)%nat → given i1 < given i2.
Proof.
  intros Hlt Hi2. pose proof remainingRefs_room.
  rewrite decide_False by lia. case_decide; destruct (list_find _ _); lia.
Qed.

(** The voice of every note of the first chord after the assignment. *)
Lemma lookup_assigned j n' :
  assigned !! j = Some n' →
  ∃ n, notes chord !! j = Some n ∧ erase n' = erase n
    ∧ ((∃ i, refs !! i = Some j ∧ voice n = None ∧ voice n' = Some (given i))
       ∨ (voice n = Some 0 ∧ n' = n)).
Proof.
  intros Hn'. destruct (decide (j ∈ refs)) as [Hj|Hj].
  - apply list_elem_of_lookup in Hj as Hi. destruct Hi as [i Hi].
    rewrite (lookup_assignRemaining _ _ _ _ i j NoDup_remainingRefs Hi) in Hn'.
    destruct (notes chord !! j) as [n|] eqn:Hn; [|done].
    simpl in Hn'. injection Hn' as <-. exists n. split_and!; [done..|].
    left. exists i. split_and!; [done| |done].
    by apply (elem_of_remainingRefs j n).
  - rewrite lookup_assignRemaining_ne in Hn' by done. exists n'.
    split_and!; [done..|]. right. split; [|done].
    destruct (Hvoices n') as [Hnone|?]; [by eapply list_elem_of_lookup_2| |done].
    exfalso. apply Hj. by apply (elem_of_remainingRefs j n').
Qed.
End first_chord.

(** X9.  The first chord.  For a chord of at most N notes that come
    without a voice or with voice 0, at most one of them with voice 0,
    [assignVoicesToFirstChord] returns the chord with its notes in place
    and their pitches untouched; every note has one of the voices 0 .. N-1
    and no two notes the same; a note that came with voice 0 keeps it; and
    of two notes that came without a voice the one of higher pitch gets
    the lower voice index. *)
Theorem assignVoicesToFirstChord_voices (chord : Chord) (numVoices : nat) :
  (∀ n, n ∈ notes chord → voice n = None ∨ voice n = Some 0) →
  (∀ j1 j2 n1 n2, notes chord !! j1 = Some n1 → notes chord !! j2 = Some n2 →
                  voice n1 = Some 0 → voice n2 = Some 0 → j1 = j2) →
  (length (notes chord) ≤ numVoices)%nat →
  ∃ first,
    assignVoicesToFirstChord (Some chord) numVoices = Ok first
    ∧ erase <$> notes first = erase <$> notes chord
    ∧ Forall (voicedIn numVoices) (notes first)
    ∧ NoDup (voice <$> notes first)
    ∧ (∀ j n n', notes chord !! j = Some n → notes first !! j = Some n' →
                 voice n = Some 0 → n' = n)
    ∧ ∀ j1 j2 a b a' b',
        notes chord !! j1 = Some a → notes chord !! j2 = Some b →
        notes first !! j1 = Some a' → notes first !! j2 = Some b' →
        voice a = None → voice b = None → pitch b < pitch a →
        voiceOr0 a' < voiceOr0 b'.
Proof.
  intros Hvoices Hone Hsize. eexists. split; [done|]. simpl.
  pose proof (lookup_assigned chord numVoices Hvoices) as Hlook.
  pose proof (NoDup_remainingRefs chord) as Hnd.
  split_and!.
  - apply erase_assignRemaining.
  - apply Forall_lookup. intros j n' Hn'.
    destruct (Hlook j n' Hn') as (n & Hn & _ & [(i & Hi & _ & Hv)|[Hv ->]]).
    + eexists. split; [exact Hv|].
      apply (given_range chord numVoices Hsize).
      by apply lookup_lt_Some in Hi.
    + exists 0. split; [done|]. apply lookup_lt_Some in Hn. lia.
  - apply NoDup_alt. intros j1 j2 v. rewrite !list_lookup_fmap.
    intros H1 H2.
    destruct (assignRemaining _ _ _ _ !! j1) as [a'|] eqn:Ha'; [|done].
    destruct (assignRemaining _ _ _ _ !! j2) as [b'|] eqn:Hb'; [|done].
    simpl in H1, H2. assert (voice a' = voice b') as H12 by congruence.
    clear H1 H2.
    destruct (Hlook j1 a' Ha') as (a & Ha & _ & [(i1 & Hi1 & _ & Hv1)|[Hv1 ->]]),
      (Hlook j2 b' Hb') as (b & Hb & _ & [(i2 & Hi2 & _ & Hv2)|[Hv2 ->]]).
    + rewrite Hv1, Hv2 in H12. injection H12 as H12.
      destruct (decide (i1 = i2)) as [->|Hne]; [congruence|]. exfalso.
      apply lookup_lt_Some in Hi1 as Hl1. apply lookup_lt_Some in Hi2 as Hl2.
      destruct (decide (i1 < i2)%nat).
      * pose proof (given_increasing chord numVoices Hsize i1 i2). lia.
      * pose proof (given_increasing chord numVoices Hsize i2 i1). lia.
    + rewrite Hv1, Hv2 in H12. injection H12 as H12. exfalso.
      apply lookup_lt_Some in Hi1 as Hl1.
      pose proof (remainingRefs_room chord numVoices Hsize) as Hroom.
      assert (is_Some (list_find (λ note, voice note = Some 0) (notes chord)))
        as [[j n] Hfind].
      { eapply list_find_elem_of; [|exact Hv2]. by eapply list_elem_of_lookup_2. }
      rewrite Hfind in H12, Hroom. case_decide; lia.
    + rewrite Hv1, Hv2 in H12. injection H12 as H12. exfalso.
      apply lookup_lt_Some in Hi2 as Hl2.
      pose proof (remainingRefs_room chord numVoices Hsize) as Hroom.
      assert (is_Some (list_find (λ note, voice note = Some 0) (notes chord)))
        as [[j n] Hfind].
      { eapply list_find_elem_of; [|exact Hv1]. by eapply list_elem_of_lookup_2. }
      rewrite Hfind in H12, Hroom. case_decide; lia.
    + by eapply Hone.
  - intros j n n' Hn Hn' Hv.
    destruct (Hlook j n' Hn') as (m & Hm & _ & [(i & _ & Hnone & _)|[_ ->]]);
      congruence.
  - intros j1 j2 a b a' b' Ha Hb Ha' Hb' Hva Hvb Hp.
    destruct (Hlook j1 a' Ha') as (a0 & Ha0 & _ & [(i1 & Hi1 & _ & Hv1)|[Hv1 _]]);
      [|congruence].
    destruct (Hlook j2 b' Hb') as (b0 & Hb0 & _ & [(i2 & Hi2 & _ & Hv2)|[Hv2 _]]);
      [|congruence].
    unfold voiceOr0. rewrite Hv1, Hv2. simpl.
    apply lookup_lt_Some in Hi1 as Hl1. apply lookup_lt_Some in Hi2 as Hl2.
    destruct (decide (i1 < i2)%nat) as [Hlt|Hge].
    + by apply (given_increasing chord numVoices Hsize).
    + exfalso. destruct (decide (i1 = i2)) as [->|Hne].
      * assert (j1 = j2) as -> by congruence. simplify_eq. lia.
      * pose proof (remainingRefs_sorted (notes chord) i2 i1 j2 j1 b a
          Hi2 Hi1 ltac:(lia) Hb Ha). lia.
Qed.

Lemma assignVoicesToFirstChord_voices_witness :
  assignVoicesToFirstChord
    (Some (mkChord 0 [mkNote 72 0 8 (Some 0); inputNote 60 0 8;
                      inputNote 67 0 8] (Some 8))) 4
  = Ok (mkChord 0 [mkNote 72 0 8 (Some 0); mkNote 60 0 8 (Some 3);
                   mkNote 67 0 8 (Some 1)] (Some 8))
  ∧ ∃ first,
      assignVoicesToFirstChord
        (Some (mkChord 0 [mkNote 72 0 8 (Some 0); inputNote 60 0 8;
                          inputNote 67 0 8] (Some 8))) 4 = Ok first
      ∧ NoDup (voice <$> notes first).
Proof.
  split; [reflexivity|].
  destruct (assignVoicesToFirstChord_voices
    (mkChord 0 [mkNote 72 0 8 (Some 0); inputNote 60 0 8; inputNote 67 0 8]
       (Some 8)) 4) as (first & Hfirst & _ & _ & Hnd & _).
  - intros n Hn. simpl in Hn.
    repeat (apply elem_of_cons in Hn as [->|Hn]; [simpl; tauto|]).
    by apply elem_of_nil in Hn.
  - intros [|[|[|j1]]] [|[|[|j2]]] n1 n2 H1 H2 Hv1 Hv2; simpl in *;
      simplify_eq; done.
  - simpl. lia.
  - exists first. split; [exact Hfirst|exact Hnd].
Defined.

(** ** The size of the search *)

Lemma length_bind_const {X Y} (f : X → list Y) (l : list X) (c : nat) :
  (∀ x, x ∈ l → length (f x) = c) → length (l ≫= f) = (length l * c)%nat.
Proof.
  induction l as [|x l IH]; intros Hc; [done|].
  rewrite bind_cons, length_app, IH, Hc; [simpl; lia|left|].
  intros y Hy. apply Hc. by right.
Qed.

Lemma filter_all {X} (P : X → Prop) `{!∀ x, Decision (P x)} (l : list X) :
  (∀ x, x ∈ l → P x) → filter P l = l.
Proof.
  induction l as [|x l IH]; intros Hall; [done|].
  rewrite filter_cons, decide_True, IH; [done| |apply Hall; left].
  intros y Hy. apply Hall. by right.
Qed.

Lemma length_filter_ne (l : list Z) (x : Z) :
  NoDup l → x ∈ l → length (filter (λ y, y ≠ x) l) = (length l - 1)%nat.
Proof.
  induction 1 as [|z l Hz Hnd IH]; [by intros ?%elem_of_nil|].
  rewrite filter_cons. intros [->|Hx]%elem_of_cons.
  - rewrite decide_False by tauto. rewrite filter_all; [simpl; lia|].
    intros y Hy ->. done.
  - rewrite decide_True by (intros ->; done). simpl. rewrite IH by done.
    apply list_elem_of_lookup in Hx as [i Hi%lookup_lt_Some]. lia.
Qed.

Lemma length_filter_out (array current : list Z) (x : Z) :
  NoDup array → x ∈ array → x ∉ current →
  length (filter (λ y, y ∉ current ++ [x]) array) =
  (length (filter (λ y, y ∉ current) array) - 1)%nat.
Proof.
  intros Hnd Hx Hc.
  rewrite (list_filter_iff _ (λ y, y ≠ x ∧ y ∉ current)).
  2:{ intros y. rewrite elem_of_app, list_elem_of_singleton. tauto. }
  rewrite <- list_filter_filter. apply length_filter_ne.
  - by apply NoDup_filter.
  - by apply list_elem_of_filter.
Qed.

Lemma length_backtrack (array : list Z) (todo start : nat) (current : list Z) :
  NoDup array →
  length (backtrack array todo start current) =
  fallingFactorial (length (filter (λ x, x ∉ current) array)) todo.
Proof.
  intros Hnd. revert start current.
  induction todo as [|todo IH]; intros start current; [done|].
  rewrite backtrack_bind, bind_filter_out. simpl.
  apply length_bind_const. intros x [Hx Hin]%list_elem_of_filter.
  by rewrite IH, length_filter_out.
Qed.

Lemma fallingFactorial_fact (n : nat) : fallingFactorial n n = fact n.
Proof.
  induction n as [|n IH]; [done|]. simpl fallingFactorial.
  rewrite Nat.sub_0_r, IH. done.
Qed.

Lemma fallingFactorial_over (n k : nat) : (n < k)%nat → fallingFactorial n k = 0%nat.
Proof.
  revert n. induction k as [|k IH]; intros n Hlt; [lia|]. simpl.
  destruct n as [|n]; [done|]. rewrite IH; lia.
Qed.

(** X10.  The size of the search.  Out of an array of n distinct voices
    [generatePermutations] returns n (n - 1) ... (n - k + 1) sequences of
    length k: n! of them for k = n, none for k > n, and the one empty
    sequence for k = 0. *)
Theorem generatePermutations_count (array : list Z) (k : nat) :
  NoDup array →
  length (generatePermutations array k) = fallingFactorial (length array) k
  ∧ length (generatePermutations array (length array)) = fact (length array)
  ∧ ((length array < k)%nat → generatePermutations array k = [])
  ∧ generatePermutations array 0 = [[]].
Proof.
  intros Hnd.
  assert (∀ k, length (generatePermutations array k) =
               fallingFactorial (length array) k) as Hlen.
  { intros k'. unfold generatePermutations. rewrite length_backtrack by done.
    rewrite filter_all; [done|]. intros x _. apply not_elem_of_nil. }
  split_and!; [done| | |done].
  - by rewrite Hlen, fallingFactorial_fact.
  - intros Hk. apply nil_length_inv. by rewrite Hlen, fallingFactorial_over.
Qed.

Lemma generatePermutations_count_witness :
  length (generatePermutations [1; 2; 3; 4] 3) = 24%nat
  ∧ length (generatePermutations [1; 2; 3; 4] 3) = fallingFactorial 4 3.
Proof.
  split; [reflexivity|].
  apply (generatePermutations_count [1; 2; 3; 4] 3).
  by apply (bool_decide_unpack _); vm_compute.
Defined.

(** ** The errors of the cost model *)

Lemma assignVoices_throw (i : nat) (va : list Z) (store : list Note) :
  (i ≤ length store)%nat → (length store < i + length va)%nat →
  assignVoices i va store = Throw TypeError.
Proof.
  revert i store. induction va as [|v va IH]; intros i store Hi Hlen; simpl in *.
  - lia.
  - case_decide; [|done]. apply IH; rewrite length_alter; lia.
Qed.

(** X11.  The cost model throws a TypeError exactly when the assignment
    is longer than the chord, and otherwise returns the chord with the
    assignment written over its first notes. *)
Theorem calculateVoiceLeadingCost_throws (prevChord currentChord : Chord)
    (voiceAssignments : list Z) :
  (calculateVoiceLeadingCost prevChord currentChord voiceAssignments
     = Throw TypeError
   ↔ (length (notes currentChord) < length voiceAssignments)%nat)
  ∧ ((length voiceAssignments ≤ length (notes currentChord))%nat →
     snd <$> calculateVoiceLeadingCost prevChord currentChord voiceAssignments
     = Ok (withVoices voiceAssignments (notes currentChord))).
Proof.
  split.
  - split.
    + intros Hthrow.
      destruct (decide (length (notes currentChord) < length voiceAssignments)%nat);
        [done|].
      rewrite calculateVoiceLeadingCost_ok in Hthrow by lia. done.
    + intros Hlen. unfold calculateVoiceLeadingCost.
      by rewrite assignVoices_throw by (simpl; lia).
  - intros Hlen. by rewrite calculateVoiceLeadingCost_ok.
Qed.

(** ** The segmentation into chords *)

Lemma groupChords_positions melodyNotes allNotes sortedPositions :
  chordPosition <$> groupChords melodyNotes allNotes sortedPositions
  = sortedPositions.
Proof. induction sortedPositions as [|pos rest IH]; csimpl; by f_equal. Qed.

Lemma StronglySorted_le_lt (l : list Z) :
  NoDup l → StronglySorted Z.le l → StronglySorted Z.lt l.
Proof.
  intros Hnd Hs. induction Hs as [|x l Hs IH Hx]; [constructor|].
  apply NoDup_cons in Hnd as [Hxl Hnd]. constructor; [by apply IH|].
  rewrite Forall_forall in *. intros y Hy. specialize (Hx y Hy).
  assert (x ≠ y) by (intros ->; done). lia.
Qed.



(** X13.  The number of voices is the size of the largest chord: no
    chord has more notes, some chord has as many when there is a chord, and
    it is 0 when there is none. *)
Theorem determineVoiceCount_max (chords : list Chord) :
  (∀ chord, chord ∈ chords →
            (length (notes chord) ≤ determineVoiceCount chords)%nat)
  ∧ (chords ≠ [] →
     ∃ chord, chord ∈ chords ∧ length (notes chord) = determineVoiceCount chords)
  ∧ (chords = [] → determineVoiceCount chords = 0%nat).
Proof.
  split_and!; [apply determineVoiceCount_le| |by intros ->].
  unfold determineVoiceCount.
  assert (∀ acc,
    fold_left (λ maxNotes chord, Nat.max maxNotes (length (notes chord))) chords acc
      = acc
    ∨ ∃ chord, chord ∈ chords ∧ length (notes chord) =
        fold_left (λ maxNotes chord, Nat.max maxNotes (length (notes chord)))
          chords acc) as Hfold.
  { induction chords as [|c chords IH]; intros acc; simpl; [by left|].
    destruct (IH (Nat.max acc (length (notes c)))) as [Heq|(c' & Hc' & Heq)].
    - rewrite Heq. destruct (Nat.max_spec acc (length (notes c)))
        as [[_ ->]|[_ ->]]; [right; exists c; split; [left|done]|by left].
    - right. exists c'. split; [by right|done]. }
  intros Hne. destruct (Hfold 0%nat) as [Heq|?]; [|done].
  destruct chords as [|c chords]; [done|]. exists c. split; [left|].
  pose proof (determineVoiceCount_le (c :: chords) c ltac:(left)) as Hle.
  unfold determineVoiceCount in Hle. lia.
Qed.

(** ** The global balance, again *)

Lemma filter_fmap_comm {X Y} (f : X → Y) (P : Y → Prop) `{!∀ y, Decision (P y)}
    (l : list X) :
  filter P (f <$> l) = f <$> filter (λ x, P (f x)) l.
Proof.
  induction l as [|x l IH]; [done|]. csimpl. rewrite !filter_cons, IH.
  by destruct (decide (P (f x))).
Qed.

Lemma mathMax_shift (l : list Z) (s m : Z) :
  mathMax l = Some m → mathMax ((λ p, p + s) <$> l) = Some (m + s).
Proof.
  rewrite !mathMax_Some. intros [Hm Hmax]. split.
  - by apply (list_elem_of_fmap_2 (λ p, p + s)).
  - intros y (x & -> & Hx)%list_elem_of_fmap. specialize (Hmax x Hx). lia.
Qed.

Lemma voice_shiftHarmony (shift : Z) (n : Note) :
  voice (shiftHarmony shift n) = voice n.
Proof. unfold shiftHarmony. by case_match. Qed.

Lemma melody_shifted (shift : Z) (l : list Note) :
  pitch <$> filter (λ n, isMelodyVoice n = true) (shiftHarmony shift <$> l)
  = pitch <$> filter (λ n, isMelodyVoice n = true) l.
Proof.
  rewrite filter_fmap_comm, <- list_fmap_compose.
  rewrite (list_filter_iff _ (λ n, isMelodyVoice n = true)).
  2:{ intros n. unfold isMelodyVoice. by rewrite voice_shiftHarmony. }
  apply list_fmap_ext. intros i n Hn%list_elem_of_lookup_2.
  apply list_elem_of_filter in Hn as [Hn _]. simpl.
  unfold shiftHarmony, isHarmonyVoice, isMelodyVoice in *.
  by destruct (voice n) as [[| |]|].
Qed.

Lemma harmony_shifted (shift : Z) (l : list Note) :
  pitch <$> filter (λ n, isHarmonyVoice n = true) (shiftHarmony shift <$> l)
  = (λ p, p + shift) <$> (pitch <$> filter (λ n, isHarmonyVoice n = true) l).
Proof.
  rewrite filter_fmap_comm, <- !list_fmap_compose.
  rewrite (list_filter_iff _ (λ n, isHarmonyVoice n = true)).
  2:{ intros n. unfold isHarmonyVoice. by rewrite voice_shiftHarmony. }
  apply list_fmap_ext. intros i n Hn%list_elem_of_lookup_2.
  apply list_elem_of_filter in Hn as [Hn _]. simpl.
  unfold shiftHarmony. by rewrite Hn.
Qed.

(** X14.  The global balance is done in one pass: balancing a balanced
    piece changes nothing. *)
Theorem adjustHarmonyOctaveRelativeToMelody_idempotent (chords : list Chord) :
  adjustHarmonyOctaveRelativeToMelody
    (adjustHarmonyOctaveRelativeToMelody chords)
  = adjustHarmonyOctaveRelativeToMelody chords.
Proof.
  assert (adjustHarmonyOctaveRelativeToMelody chords = chords
    ∨ ∃ minMelody maxHarmony,
        mathMin (pitch <$> filter (λ n, isMelodyVoice n = true)
                   (flattenChordsToNotes chords)) = Some minMelody
        ∧ mathMax (pitch <$> filter (λ n, isHarmonyVoice n = true)
                     (flattenChordsToNotes chords)) = Some maxHarmony
        ∧ 12 < minMelody - maxHarmony
        ∧ adjustHarmonyOctaveRelativeToMelody chords =
          (λ chord, setNotes
             (shiftHarmony ((minMelody - maxHarmony - 1) / 12 * 12)
                <$> notes chord) chord) <$> chords) as [Heq|Hshift].
  { unfold adjustHarmonyOctaveRelativeToMelody.
    destruct (mathMin _) as [minMelody|] eqn:Hmin; [|by left].
    destruct (mathMax _) as [maxHarmony|] eqn:Hmax; [|by left].
    destruct (12 <? _) eqn:Hgap; [|by left].
    destruct (0 <? _) eqn:Hpos; [|by left].
    right. exists minMelody, maxHarmony. apply Z.ltb_lt in Hgap. done. }
  - by rewrite !Heq.
  - destruct Hshift as (minMelody & maxHarmony & Hmin & Hmax & Hgap & ->).
    unfold adjustHarmonyOctaveRelativeToMelody at 1.
    rewrite flatten_fmap_notes, melody_shifted, harmony_shifted, Hmin.
    rewrite (mathMax_shift _ _ _ Hmax).
    pose proof (Z.div_mod (minMelody - maxHarmony - 1) 12 ltac:(lia)).
    pose proof (Z.mod_pos_bound (minMelody - maxHarmony - 1) 12 ltac:(lia)).
    replace (12 <? _) with false; [done|].
    symmetry. apply Z.ltb_ge. lia.
Qed.

(** ** The order of the output *)

Lemma identifyChords_ascending (melodyNotes harmonyNotes : list Note) :
  StronglySorted Z.lt
    (chordPosition <$> identifyChords melodyNotes harmonyNotes).
Proof.
  unfold identifyChords. rewrite groupChords_positions.
  destruct (sortedPositions_spec (melodyNotes ++ harmonyNotes)) as [Hnd _].
  apply StronglySorted_le_lt; [done|].
  apply (stableSort_sorted (λ a b, a - b) (λ p, p)). done.
Qed.

Lemma identifyChords_positions (melodyNotes harmonyNotes : list Note)
    (chord : Chord) :
  chord ∈ identifyChords melodyNotes harmonyNotes →
  Forall (λ n, position n = chordPosition chord) (notes chord).
Proof.
  intros [_ ->]%elem_of_groupChords. apply Forall_forall.
  intros n' (n & -> & [Hn _]%list_elem_of_filter)%list_elem_of_fmap.
  pose proof (frame_markMelody melodyNotes n) as Hframe.
  by injection Hframe as -> _.
Qed.

Lemma positions_frame (p : Z) (l l' : list Note) :
  frame <$> l' ≡ₚ frame <$> l →
  Forall (λ n, position n = p) l → Forall (λ n, position n = p) l'.
Proof.
  rewrite !Forall_forall. intros Hperm Hl n' Hn'.
  assert (frame n' ∈ frame <$> l) as (n & Hframe & Hn)%list_elem_of_fmap
    by (rewrite <- Hperm; by apply list_elem_of_fmap_2).
  injection Hframe as -> _. by apply Hl.
Qed.

Lemma constant_sorted (p : Z) (l : list Z) :
  Forall (λ x, x = p) l → StronglySorted Z.le l.
Proof.
  induction 1 as [|x l -> Hl IH]; constructor; [done|].
  eapply Forall_impl; [exact Hl|]. intros ? ->. lia.
Qed.

Lemma flatten_positions_sorted (chords : list Chord) :
  StronglySorted Z.lt (chordPosition <$> chords) →
  Forall (λ c, Forall (λ n, position n = chordPosition c) (notes c)) chords →
  StronglySorted Z.le (position <$> flattenChordsToNotes chords).
Proof.
  unfold flattenChordsToNotes.
  induction chords as [|c chords IH]; csimpl; [constructor|].
  intros [Hs Hlt]%StronglySorted_inv [Hc Hall]%Forall_cons.
  rewrite fmap_app. apply StronglySorted_app_2.
  - intros a b (n & -> & Hn)%list_elem_of_fmap
      (m & -> & (l & Hm & (c' & -> & Hc')%list_elem_of_fmap)%list_elem_of_join)%list_elem_of_fmap.
    rewrite Forall_forall in Hc. rewrite Forall_forall in Hall.
    rewrite Forall_forall in Hlt.
    rewrite (Hc n Hn), (proj1 (Forall_forall _ _) (Hall c' Hc') m Hm).
    assert (chordPosition c < chordPosition c'); [|lia].
    apply Hlt. by apply list_elem_of_fmap_2.
  - apply (constant_sorted (chordPosition c)), Forall_fmap.
    eapply Forall_impl; [exact Hc|done].
  - by apply IH.
Qed.

(** X15.  The output is in order of position, whatever the order of the
    input: on an input with a note the optimizer returns the notes chord
    after chord, so the positions along the output never decrease, and they
    are the positions of the input notes, rearranged. *)
Theorem optimizeVoiceLeading_sorted (melodyNotes harmonyNotes : list Note) :
  melodyNotes ++ harmonyNotes ≠ [] →
  ∃ output,
    optimizeVoiceLeading melodyNotes harmonyNotes = Ok output
    ∧ StronglySorted Z.le (position <$> output)
    ∧ position <$> output ≡ₚ position <$> (melodyNotes ++ harmonyNotes).
Proof.
  intros Hne.
  destruct (optimizedChords_shape melodyNotes harmonyNotes Hne)
    as (c0 & rest & first & rest' & Hchords & Hfirst & Hall & Hopt).
  unfold optimizeVoiceLeading. rewrite Hopt. simpl. eexists. split; [done|].
  rewrite adjustHarmony_fmap by done.
  pose proof (identifyChords_ascending melodyNotes harmonyNotes) as Hasc.
  assert (∀ c, c ∈ c0 :: rest →
            Forall (λ n, position n = chordPosition c) (notes c)) as Hpos.
  { intros c Hc. apply (identifyChords_positions melodyNotes harmonyNotes).
    by rewrite Hchords. }
  rewrite Hchords in Hasc.
  assert (chordPosition <$> rest' = chordPosition <$> rest
          ∧ Forall (λ c, Forall (λ n, position n = chordPosition c) (notes c))
              rest'
          ∧ frame <$> flattenChordsToNotes rest'
            ≡ₚ frame <$> flattenChordsToNotes rest) as (Hrest & Hrest' & Hfr).
  { split_and!; [| |by eapply frame_later_chords].
    - clear Hopt Hasc Hpos Hchords.
      induction Hall as [|c c' l l' [prev Hc] _ IH]; csimpl; [done|].
      apply optimizeChordVoicing_pitchClasses in Hc as [-> _]. by f_equal.
    - assert (∀ c, c ∈ rest →
                Forall (λ n, position n = chordPosition c) (notes c)) as Hpos'
        by (intros; apply Hpos; by right).
      clear Hopt Hasc Hpos Hchords.
      induction Hall as [|c c' l l' [prev Hc] _ IH]; [constructor|].
      constructor; [|apply IH; intros; apply Hpos'; by right].
      destruct (optimizeChordVoicing_total prev c
                  (determineVoiceCount (identifyChords melodyNotes harmonyNotes)))
        as (c'' & Hc' & Hframe).
      rewrite Hc in Hc'. injection Hc' as <-.
      apply optimizeChordVoicing_pitchClasses in Hc as [-> _].
      apply (positions_frame _ _ _ Hframe), Hpos'. left. }
  assert (frame <$> notes first = frame <$> notes c0) as Hfirst'.
  { rewrite Hfirst. simpl. apply frame_erase, erase_assignRemaining. }
  split.
  - apply flatten_positions_sorted.
    + csimpl. rewrite Hrest. by rewrite Hfirst.
    + constructor; [|done].
      replace (chordPosition first) with (chordPosition c0) by by rewrite Hfirst.
      apply (positions_frame _ (notes c0)); [by rewrite Hfirst'|].
      apply Hpos. left.
  - assert (frame <$> flattenChordsToNotes (first :: rest')
            ≡ₚ frame <$> (melodyNotes ++ harmonyNotes)) as Hframe.
    { change (flattenChordsToNotes (first :: rest'))
        with (notes first ++ flattenChordsToNotes rest').
      rewrite fmap_app, Hfr, Hfirst', <- fmap_app.
      change (notes c0 ++ flattenChordsToNotes rest)
        with (flattenChordsToNotes (c0 :: rest)).
      rewrite <- Hchords, flatten_identifyChords, <- list_fmap_compose.
      apply reflexive_eq, list_fmap_ext. intros i n _.
      apply frame_markMelody. }
    apply (fmap_Permutation fst) in Hframe.
    by rewrite <- !list_fmap_compose in Hframe.
Qed.

Lemma optimizeVoiceLeading_sorted_witness :
  ∃ output,
    optimizeVoiceLeading [inputNote 74 8 4; inputNote 72 0 8]
      [inputNote 62 8 4; inputNote 60 0 8] = Ok output
    ∧ StronglySorted Z.le (position <$> output)
    ∧ position <$> output
      ≡ₚ position <$> ([inputNote 74 8 4; inputNote 72 0 8]
                        ++ [inputNote 62 8 4; inputNote 60 0 8]).
Proof.
  apply (optimizeVoiceLeading_sorted [inputNote 74 8 4; inputNote 72 0 8]
           [inputNote 62 8 4; inputNote 60 0 8]).
  discriminate.
Defined.

(** * The utilities of the grid *)

(** ** pitchToNoteName *)

(** A number in decimal does not begin with a sharp. *)
Lemma pretty_N_go_ne_sharp x s s' :
  s ≠ "#" +:+ s' → pretty_N_go x s ≠ "#" +:+ s'.
Proof.
  revert s. induction (N.lt_wf_0 x) as [x _ IH]; intros s ?.
  assert (x = 0 ∨ 0 < x)%N as [->|?] by lia.
  - by rewrite pretty_N_go_0.
  - rewrite pretty_N_go_step by done. apply IH.
    { by apply N.div_lt. }
    unfold pretty_N_char. by repeat case_match.
Qed.

Lemma pretty_Z_ne_sharp (z : Z) s : pretty z ≠ "#" +:+ s.
Proof.
  destruct z as [|x|x]; [done| |done].
  unfold pretty, pretty_Z, pretty, pretty_positive, pretty, pretty_N.
  case_decide; [done|]. by apply pretty_N_go_ne_sharp.
Qed.

(** X16.  The names of the pitches.  Two pitches from 0 up with the same
    name are the same pitch.  Below 0 this fails: there [pitch % 12] is
    negative for every pitch that is not a C, the lookup in [noteNames]
    gives [undefined], and all such pitches of one octave share the name
    made of the word undefined and the number of the octave. *)
Theorem pitchToNoteName_names (p q : Z) :
  (0 ≤ p → 0 ≤ q → pitchToNoteName p = pitchToNoteName q → p = q)
  ∧ (p < 0 → q < 0 → Z.rem p 12 ≠ 0 → Z.rem q 12 ≠ 0 → p / 12 = q / 12 →
     pitchToNoteName p = pitchToNoteName q).
Proof.
  split.
  - intros Hp Hq. unfold pitchToNoteName.
    rewrite !Z.rem_mod_nonneg by lia.
    pose proof (Z.mod_pos_bound p 12 ltac:(lia)) as Hip.
    pose proof (Z.mod_pos_bound q 12 ltac:(lia)) as Hiq.
    pose proof (Z.div_mod p 12 ltac:(lia)) as Hpd.
    pose proof (Z.div_mod q 12 ltac:(lia)) as Hqd.
    revert Hip Hiq Hpd Hqd.
    generalize (p mod 12) (q mod 12) (p / 12) (q / 12). intros i j a b Hi Hj -> ->.
    assert (i = 0 ∨ i = 1 ∨ i = 2 ∨ i = 3 ∨ i = 4 ∨ i = 5 ∨ i = 6 ∨ i = 7
            ∨ i = 8 ∨ i = 9 ∨ i = 10 ∨ i = 11) as Hcase by lia.
    assert (j = 0 ∨ j = 1 ∨ j = 2 ∨ j = 3 ∨ j = 4 ∨ j = 5 ∨ j = 6 ∨ j = 7
            ∨ j = 8 ∨ j = 9 ∨ j = 10 ∨ j = 11) as Hcase' by lia.
    destruct_or! Hcase; subst i; destruct_or! Hcase'; subst j;
      cbn [element noteNames template default decide]; simpl;
      intros Heq; simplify_eq;
      solve [ lia | match goal with
              | H : pretty _ = pretty _ |- _ => apply (inj pretty) in H; lia
              end
            | exfalso; by eapply pretty_Z_ne_sharp
            | exfalso; symmetry in Heq; by eapply pretty_Z_ne_sharp ].
  - intros Hp Hq Hrp Hrq Hdiv. unfold pitchToNoteName, element.
    pose proof (Z.rem_nonpos p 12 ltac:(lia) ltac:(lia)).
    pose proof (Z.rem_nonpos q 12 ltac:(lia) ltac:(lia)).
    rewrite !decide_False by lia. by rewrite Hdiv.
Qed.

Lemma pitchToNoteName_names_witness :
  60 = 60 ∧ pitchToNoteName (-1) = pitchToNoteName (-2).
Proof.
  split.
  - apply (proj1 (pitchToNoteName_names 60 60)); [lia|lia|reflexivity].
  - apply (proj2 (pitchToNoteName_names (-1) (-2)));
      [lia|lia|vm_compute; lia|vm_compute; lia|reflexivity].
Defined.

(** ** snapColumn *)

(** X17.  Snapping to a positive snap value returns a multiple of it, and
    a multiple is left where it is, so snapping twice is snapping once.  A
    column from 0 up goes to the nearest multiple, a column half way between
    two to the lower one.  A column below 0 is not rounded to the nearest:
    it always goes towards 0, by less than one snap value. *)
Theorem snapColumn_nearest (col snapValue : Z) :
  0 < snapValue →
  ∃ snapped,
    snapColumn col snapValue = Some snapped
    ∧ (snapValue | snapped)
    ∧ snapColumn snapped snapValue = Some snapped
    ∧ (0 ≤ col → - snapValue ≤ 2 * (snapped - col) < snapValue)
    ∧ (col < 0 → col ≤ snapped ≤ 0 ∧ snapped - col < snapValue).
Proof.
  intros Hpos.
  assert (∀ c, (snapValue | c) → snapColumn c snapValue = Some c) as Hfix.
  { intros c [k ->]. unfold snapColumn, remainder.
    case_decide as Hc; [by rewrite Hc|].
    rewrite decide_False by lia. simpl.
    rewrite Z.rem_mul by lia. rewrite decide_False by lia.
    f_equal. lia. }
  unfold snapColumn, remainder.
  case_decide as Hc.
  { subst col. exists 0. split; [done|]. split; [apply Z.divide_0_r|].
    split; [apply Hfix, Z.divide_0_r|]. lia. }
  rewrite decide_False by lia. simpl.
  pose proof (Z.quot_rem' col snapValue) as Hqr.
  assert (0 ≤ col → 0 ≤ Z.rem col snapValue < snapValue) as Hnn
    by (intros; apply Z.rem_bound_pos; lia).
  assert (col < 0 → - snapValue < Z.rem col snapValue ≤ 0) as Hneg
    by (intros; apply Z.rem_bound_pos_neg; lia).
  case_decide as Hhalf.
  - eexists. split; [done|].
    assert (snapValue | col + (snapValue - Z.rem col snapValue)) as Hdiv.
    { exists (Z.quot col snapValue + 1). lia. }
    split; [done|]. split; [by apply Hfix|]. lia.
  - eexists. split; [done|].
    assert (snapValue | col - Z.rem col snapValue) as Hdiv.
    { exists (Z.quot col snapValue). lia. }
    split; [done|]. split; [by apply Hfix|].
    split; [lia|]. intros Hlt. specialize (Hneg Hlt).
    pose proof (Z.quot_le_mono col 0 snapValue Hpos ltac:(lia)) as Hq.
    rewrite Z.quot_0_l in Hq by lia. nia.
Qed.

Lemma snapColumn_nearest_witness :
  ∃ snapped,
    snapColumn 7 4 = Some snapped
    ∧ (4 | snapped)
    ∧ snapColumn snapped 4 = Some snapped
    ∧ (0 ≤ 7 → - 4 ≤ 2 * (snapped - 7) < 4)
    ∧ (7 < 0 → 7 ≤ snapped ≤ 0 ∧ snapped - 7 < 4).
Proof. apply (snapColumn_nearest 7 4). lia. Defined.

(** ** getNearestBar *)

(** X18.  For a positive bar length and notes that end at a column from
    0 up, [getNearestBar] returns a multiple of the bar length that no note
    ends after; for an empty grid it is one bar, and otherwise it is the
    least such multiple: some note ends less than a bar before it. *)
Theorem getNearestBar_least (BAR_LENGTH : Z) (notes : list NoteData.t) :
  0 < BAR_LENGTH →
  (∀ note, note ∈ notes → 0 ≤ NoteData.column note + NoteData.units note) →
  ∃ bar,
    getNearestBar BAR_LENGTH notes = Some bar
    ∧ (BAR_LENGTH | bar)
    ∧ (∀ note, note ∈ notes → NoteData.column note + NoteData.units note ≤ bar)
    ∧ (notes = [] → bar = BAR_LENGTH)
    ∧ (notes ≠ [] →
       ∃ note, note ∈ notes
         ∧ bar - BAR_LENGTH < NoteData.column note + NoteData.units note).
Proof.
  intros Hpos Hends. unfold getNearestBar.
  case_decide as Hlen.
  { destruct notes; [|done]. exists BAR_LENGTH. split; [done|].
    split; [done|]. split; [by intros ? ?%elem_of_nil|]. done. }
  destruct (mathMax _) as [farthestCol|] eqn:Hmax;
    [|by destruct notes].
  apply mathMax_Some in Hmax as [Hin Hle].
  apply list_elem_of_fmap in Hin as (far & Hfar & Hin).
  pose proof (Hends _ Hin) as Hfar0. rewrite <- Hfar in Hfar0.
  simpl. unfold remainder. rewrite decide_False by lia. simpl.
  pose proof (Z.quot_rem' farthestCol BAR_LENGTH) as Hqr.
  pose proof (Z.rem_bound_pos farthestCol BAR_LENGTH ltac:(lia) ltac:(lia)) as Hr.
  assert (∀ note, note ∈ notes →
            NoteData.column note + NoteData.units note ≤ farthestCol) as Hle'.
  { intros n Hn. apply Hle, list_elem_of_fmap. by exists n. }
  case_decide as Hm.
  - eexists. split; [done|]. split.
    { exists (Z.quot farthestCol BAR_LENGTH + 1). lia. }
    split; [intros n Hn; specialize (Hle' n Hn); lia|].
    split; [by intros ->|]. intros _. exists far. split; [done|]. lia.
  - eexists. split; [done|]. split.
    { exists (Z.quot farthestCol BAR_LENGTH). lia. }
    split; [done|]. split; [by intros ->|]. intros _. exists far.
    split; [done|]. lia.
Qed.

Lemma getNearestBar_least_witness :
  ∃ bar,
    getNearestBar 16 [NoteData.mk 3 30 None 4 1 1 1 false None] = Some bar
    ∧ (16 | bar)
    ∧ (∀ note, note ∈ [NoteData.mk 3 30 None 4 1 1 1 false None] →
               NoteData.column note + NoteData.units note ≤ bar)
    ∧ ([NoteData.mk 3 30 None 4 1 1 1 false None] = [] → bar = 16)
    ∧ ([NoteData.mk 3 30 None 4 1 1 1 false None] ≠ [] →
       ∃ note, note ∈ [NoteData.mk 3 30 None 4 1 1 1 false None]
         ∧ bar - 16 < NoteData.column note + NoteData.units note).
Proof.
  apply (getNearestBar_least 16 [NoteData.mk 3 30 None 4 1 1 1 false None]).
  - lia.
  - intros note ->%list_elem_of_singleton. simpl. lia.
Defined.

(** ** Rows and note names *)

Lemma indexOf_elem {A} `{EqDecision A} (array : list A) (x : A) :
  x ∈ array →
  ∃ i : nat, indexOf array x = Z.of_nat i ∧ array !! i = Some x
    ∧ ∀ j : nat, array !! j = Some x → (i ≤ j)%nat.
Proof.
  intros Hin. unfold indexOf.
  destruct (list_find (x =.) array) as [[i y]|] eqn:Hfind.
  - apply list_find_Some in Hfind as (Hi & <- & Hfirst).
    exists i. split; [done|]. split; [done|].
    intros j Hj. destruct (decide (i ≤ j)%nat) as [|Hlt]; [done|].
    by destruct (Hfirst j x Hj ltac:(lia)).
  - apply list_find_None in Hfind.
    by destruct (proj1 (Forall_forall _ _) Hfind x Hin).
Qed.

Lemma indexOf_not_elem {A} `{EqDecision A} (array : list A) (x : A) :
  x ∉ array → indexOf array x = -1.
Proof.
  intros Hnot. unfold indexOf.
  destruct (list_find (x =.) array) as [[i y]|] eqn:Hfind; [|done].
  apply list_find_Some in Hfind as (Hi & <- & _).
  by apply list_elem_of_lookup_2 in Hi.
Qed.

(** X19.  A note made for a row of the grid carries a name of
    [allNotes], and [getRowFromNote] takes the name back to the row when the
    names of the grid are distinct; when they are not, it takes the name to
    a row of the grid that is not below the row of the note. *)
Theorem makeNewNote_row (allNotes : list string) (row col noteLength idGen : Z) :
  0 ≤ row < Z.of_nat (length allNotes) →
  ∃ name,
    NoteData.note (makeNewNote allNotes row col noteLength idGen).1 = Some name
    ∧ row ≤ getRowFromNote allNotes name < Z.of_nat (length allNotes)
    ∧ (NoDup allNotes → getRowFromNote allNotes name = row).
Proof.
  intros Hrow. unfold makeNewNote, getRowFromNote, element. simpl.
  rewrite decide_True by lia.
  destruct (lookup_lt_is_Some_2 allNotes
              (Z.to_nat (Z.of_nat (length allNotes) - 1 - row)) ltac:(lia))
    as [name Hname].
  exists name. split; [done|].
  destruct (indexOf_elem allNotes name) as (i & -> & Hi & Hfirst);
    [by eapply list_elem_of_lookup_2|].
  pose proof (Hfirst _ Hname). pose proof (lookup_lt_Some _ _ _ Hi).
  split; [lia|]. intros Hnodup.
  pose proof (NoDup_lookup _ _ _ _ Hnodup Hi Hname). lia.
Qed.

Lemma makeNewNote_row_witness :
  ∃ name,
    NoteData.note (makeNewNote ["b0"; "a0"; "g0"]%string 1 5 2 7).1 = Some name
    ∧ 1 ≤ getRowFromNote ["b0"; "a0"; "g0"]%string name
        < Z.of_nat (length ["b0"; "a0"; "g0"]%string)
    ∧ (NoDup ["b0"; "a0"; "g0"]%string →
       getRowFromNote ["b0"; "a0"; "g0"]%string name = 1).
Proof. apply (makeNewNote_row ["b0"; "a0"; "g0"]%string 1 5 2 7). simpl. lia. Defined.

(** X20.  The row of a name.  For a name of the grid [getRowFromNote]
    is a row of the grid, and a note made for that row carries the name.
    For a name that is not in the grid it is [allNotes.length], one past the
    top row, and a note made for that row has no name. *)
Theorem getRowFromNote_note (allNotes : list string) (name : string)
    (col noteLength idGen : Z) :
  let row := getRowFromNote allNotes name in
  let created := (makeNewNote allNotes row col noteLength idGen).1 in
  (name ∈ allNotes →
   0 ≤ row < Z.of_nat (length allNotes) ∧ NoteData.note created = Some name)
  ∧ (name ∉ allNotes →
     row = Z.of_nat (length allNotes) ∧ NoteData.note created = None).
Proof.
  unfold makeNewNote, getRowFromNote, element. simpl. split.
  - intros Hin. destruct (indexOf_elem allNotes name Hin) as (i & -> & Hi & _).
    pose proof (lookup_lt_Some _ _ _ Hi). split; [lia|].
    rewrite decide_True by lia. rewrite <- Hi. f_equal. lia.
  - intros Hnot. rewrite (indexOf_not_elem _ _ Hnot). split; [lia|].
    rewrite decide_False by lia. done.
Qed.

(** ** The grid of note names *)

Lemma lookup_bind_const {A B} (g : A → list B) (n : nat) (l : list A)
    (k j : nat) :
  (∀ x, length (g x) = n) → (j < n)%nat →
  (l ≫= g) !! (k * n + j)%nat = l !! k ≫= λ x, g x !! j.
Proof.
  intros Hlen Hj. revert k. induction l as [|x l IH]; intros k; [done|].
  rewrite bind_cons. destruct k as [|k]; simpl.
  - rewrite lookup_app_l by (rewrite Hlen; lia). done.
  - rewrite lookup_app_r by (rewrite Hlen; lia). rewrite Hlen.
    replace (n + k * n + j - n)%nat with (k * n + j)%nat by lia. apply IH.
Qed.

(** X21.  The grid of [getAllNotesFromOctaveCount] has one name for each
    key of [NOTES] in each octave from [startOctave] to [octaveCount - 1],
    and rows count from the lowest note up: the note made for row
    [(i - startOctave) * n + j], for [n] keys, is named by key [j] and
    octave [i]. *)
Theorem getAllNotesFromOctaveCount_rows (NOTES : list string)
    (octaveCount startOctave : Z) :
  let allNotes := getAllNotesFromOctaveCount NOTES octaveCount startOctave in
  length allNotes = (Z.to_nat (octaveCount - startOctave) * length NOTES)%nat
  ∧ ∀ (i : Z) (j : nat) (key : string) (col noteLength idGen : Z),
      startOctave ≤ i < octaveCount → NOTES !! j = Some key →
      let row := (i - startOctave) * Z.of_nat (length NOTES) + Z.of_nat j in
      NoteData.note (makeNewNote allNotes row col noteLength idGen).1
      = Some (key +:+ pretty i).
Proof.
  intros allNotes.
  assert (∀ i : Z, length ((λ note, note +:+ pretty i) <$> NOTES)
                   = length NOTES) as Hlen by (intros; apply length_fmap).
  assert (∀ l : list Z,
            length (l ≫= λ i, (λ note, note +:+ pretty i) <$> NOTES)
            = (length l * length NOTES)%nat) as Hbind
    by (intros; apply length_bind_const; intros; apply Hlen).
  assert (length allNotes
          = (Z.to_nat (octaveCount - startOctave) * length NOTES)%nat) as Hall.
  { unfold allNotes, getAllNotesFromOctaveCount.
    by rewrite length_reverse, (Hbind), length_seqZ. }
  split; [done|]. intros i j key col noteLength idGen Hi Hkey row.
  pose proof (lookup_lt_Some _ _ _ Hkey) as Hj.
  assert (∃ a : nat, i - startOctave = Z.of_nat a) as [a Ha]
    by (exists (Z.to_nat (i - startOctave)); lia).
  assert (∃ d : nat, octaveCount - startOctave = Z.of_nat d) as [d Hd]
    by (exists (Z.to_nat (octaveCount - startOctave)); lia).
  unfold row. rewrite Ha. rewrite Hd, Nat2Z.id in Hall.
  assert (a * length NOTES + j < d * length NOTES)%nat as Hrow by nia.
  unfold makeNewNote, element. cbn [getNewID fst NoteData.note].
  rewrite decide_True by lia.
  unfold allNotes at 2, getAllNotesFromOctaveCount.
  rewrite reverse_lookup
    by (rewrite (Hbind), length_seqZ; lia).
  rewrite (Hbind), length_seqZ, Hd, Nat2Z.id.
  match goal with |- _ !! ?k = _ =>
    replace k with (a * length NOTES + j)%nat by lia
  end.
  rewrite (lookup_bind_const _ (length NOTES)) by done.
  rewrite lookup_seqZ_lt by lia. simpl.
  replace (startOctave + Z.of_nat a) with i by lia.
  by rewrite list_lookup_fmap, Hkey.
Qed.
